(** * treeprint: a shallow embedding of [treeprint.go] and its properties

    The Go package builds a tree of [*Node] values linked both ways
    (children in [Nodes], the owner in [Root]) and renders it with
    box-drawing connectors.  Nodes live in a heap addressed by natural
    numbers, the package-level variables live next to it, and every Go
    function is a computation over that state which may panic. *)

From Stdlib Require Import ZArith String Ascii DecimalString List Lia.
From Stdlib Require Import Strings.Byte.
From stdpp Require Import base list option strings.


(** ** Payloads: the closed set of [any] values carried by nodes *)

#[warnings="-register-all"]
Inductive any : Type :=
| ANil : any
| ABool (b : bool) : any
| AInt (z : Z) : any
| AString (s : string) : any
| ASlice (l : list any) : any.

(** [reflect.DeepEqual] on payloads: same dynamic type and equal contents,
    element by element for slices.  On the payloads above a value equals
    itself; Go's floats (NaN) and funcs, for which that fails, are not
    among them. *)
Fixpoint DeepEqual (x y : any) {struct x} : bool :=
  match x, y with
  | ANil, ANil => true
  | ABool a, ABool b => Bool.eqb a b
  | AInt a, AInt b => Z.eqb a b
  | AString a, AString b => String.eqb a b
  | ASlice l, ASlice m =>
      (fix all2 (l : list any) (m : list any) {struct l} : bool :=
         match l, m with
         | [], [] => true
         | a :: l', b :: m' => DeepEqual a b && all2 l' m'
         | _, _ => false
         end) l m
  | _, _ => false
  end.

(** [strings.Join]. *)
Definition strings_Join (elems : list string) (sep : string) : string :=
  String.concat sep elems.

(** [fmt.Sprintf("%v", x)]. *)
Fixpoint Sprint (x : any) : string :=
  match x with
  | ANil => "<nil>"
  | ABool b => if b then "true" else "false"
  | AInt z => NilZero.string_of_int (Z.to_int z)
  | AString s => s
  | ASlice l => "[" +:+ strings_Join (map Sprint l) " " +:+ "]"
  end.

Definition newline : ascii := "010"%char.
Definition nl : string := String newline EmptyString.

(** [strings.Split(s, "\n")]: the pieces between line breaks, never empty. *)
Fixpoint strings_Split (s : string) : list string :=
  match s with
  | EmptyString => [EmptyString]
  | String c r =>
      if Ascii.eqb c newline then EmptyString :: strings_Split r
      else match strings_Split r with
           | x :: xs => String c x :: xs
           | [] => [String c EmptyString]
           end
  end.

Fixpoint spaces (n : nat) : string :=
  match n with
  | O => EmptyString
  | S k => String " "%char (spaces k)
  end.

(** ** The heap of nodes and the package variables *)

Definition addr := nat.

Record Node : Type := mkNode {
  Root : option addr;
  Meta : any;
  Value : any;
  Nodes : list addr
}.

Record state : Type := mkState {
  heap : list Node;
  IndentSize : Z;
  EdgeTypeLink : string;
  EdgeTypeMid : string;
  EdgeTypeEnd : string
}.

Definition init : state :=
  {| heap := [];
     IndentSize := 3;
     EdgeTypeLink := "│";
     EdgeTypeMid := "├─";
     EdgeTypeEnd := "└─" |}.

Definition with_heap (s : state) (h : list Node) : state :=
  {| heap := h;
     IndentSize := IndentSize s;
     EdgeTypeLink := EdgeTypeLink s;
     EdgeTypeMid := EdgeTypeMid s;
     EdgeTypeEnd := EdgeTypeEnd s |}.

(** ** Computations: state, panics, and fuel for unbounded recursion *)

Inductive result (A : Type) : Type :=
| Ok (a : A) (s : state)
| Panic
| Timeout.
Arguments Ok {A} a s.
Arguments Panic {A}.
Arguments Timeout {A}.

Definition M (A : Type) : Type := state -> result A.

Definition ret {A} (a : A) : M A := fun s => Ok a s.
Definition panic {A} : M A := fun _ => Panic.
Definition timeout {A} : M A := fun _ => Timeout.
Definition bind {A B} (m : M A) (k : A -> M B) : M B :=
  fun s => match m s with
           | Ok a s' => k a s'
           | Panic => Panic
           | Timeout => Timeout
           end.

Notation "'let!' x ':=' c1 'in' c2" := (bind c1 (fun x => c2))
  (at level 10, x name, c1 at level 100, c2 at level 200).
Notation "'let!' ' p ':=' c1 'in' c2" :=
  (bind c1 (fun x => match x with p => c2 end))
  (at level 10, p pattern, c1 at level 100, c2 at level 200).

Definition gets {A} (f : state -> A) : M A := fun s => Ok (f s) s.

(** Dereferencing: a pointer outside the heap is a nil dereference. *)
Definition load (p : addr) : M Node :=
  fun s => match heap s !! p with
           | Some nd => Ok nd s
           | None => Panic
           end.

Definition store (p : addr) (nd : Node) : M unit :=
  fun s => match heap s !! p with
           | Some _ => Ok tt (with_heap s (<[p := nd]> (heap s)))
           | None => Panic
           end.

(** [&Node{...}]: a fresh cell at the end of the heap. *)
Definition alloc (nd : Node) : M addr :=
  fun s => Ok (length (heap s)) (with_heap s (heap s ++ [nd])).

(** [strings.Repeat(" ", count)] panics on a negative count. *)
Definition strings_Repeat (count : Z) : M string :=
  if (count <? 0)%Z then panic else ret (spaces (Z.to_nat count)).

(** ** Tree construction and mutation

    A method called on a pointer outside the heap panics when it
    dereferences its receiver; what it allocated before that is
    unreachable, so the dereference is modelled first. *)

Definition New : M addr :=
  alloc {| Root := None; Meta := ANil; Value := AString "."; Nodes := [] |}.

Definition NewWithRoot (root : any) : M addr :=
  alloc {| Root := None; Meta := ANil; Value := root; Nodes := [] |}.

(** [n.Nodes = append(n.Nodes, c)]. *)
Definition append_child (n : addr) (c : addr) : M unit :=
  let! nd := load n in
  store n {| Root := Root nd; Meta := Meta nd; Value := Value nd;
             Nodes := Nodes nd ++ [c] |}.

Definition AddNode (n : addr) (a : any) : M addr :=
  let! _ := load n in
  let! c := alloc {| Root := Some n; Meta := ANil; Value := a; Nodes := [] |} in
  let! _ := append_child n c in
  ret n.

Definition AddMetaNode (n : addr) (meta a : any) : M addr :=
  let! _ := load n in
  let! c := alloc {| Root := Some n; Meta := meta; Value := a; Nodes := [] |} in
  let! _ := append_child n c in
  ret n.

Definition AddBranch (n : addr) (a : any) : M addr :=
  let! _ := load n in
  let! branch := alloc {| Root := Some n; Meta := ANil; Value := a;
                          Nodes := [] |} in
  let! _ := append_child n branch in
  ret branch.

Definition AddMetaBranch (n : addr) (meta a : any) : M addr :=
  let! _ := load n in
  let! branch := alloc {| Root := Some n; Meta := meta; Value := a;
                          Nodes := [] |} in
  let! _ := append_child n branch in
  ret branch.

Definition Branch (n : addr) : M addr :=
  let! nd := load n in
  let! _ := store n {| Root := None; Meta := Meta nd; Value := Value nd;
                  Nodes := Nodes nd |} in
  ret n.

Definition SetValue (n : addr) (value : any) : M unit :=
  let! nd := load n in
  store n {| Root := Root nd; Meta := Meta nd; Value := value;
             Nodes := Nodes nd |}.

Definition SetMetaValue (n : addr) (meta : any) : M unit :=
  let! nd := load n in
  store n {| Root := Root nd; Meta := meta; Value := Value nd;
             Nodes := Nodes nd |}.

Definition FindLastNode (n : addr) : M (option addr) :=
  let! nd := load n in
  ret (last (Nodes nd)).

(** ** Search *)

(** The body of [for _, node := range n.Nodes] in the two searches;
    [check] reads the compared field and [rec] is the recursive call. *)
Fixpoint find_range (check : Node -> bool) (rec : addr -> M (option addr))
    (nodes : list addr) : M (option addr) :=
  match nodes with
  | [] => ret None
  | node :: rest =>
      let! c := load node in
      if check c then ret (Some node)
      else
        let! v := rec node in
        match v with
        | Some _ => ret v
        | None => find_range check rec rest
        end
  end.

Fixpoint FindByMeta (fuel : nat) (n : addr) (meta : any) : M (option addr) :=
  match fuel with
  | O => timeout
  | S fuel' =>
      let! nd := load n in
      find_range (fun c => DeepEqual (Meta c) meta)
        (fun node => FindByMeta fuel' node meta) (Nodes nd)
  end.

(** The recursive call goes to [FindByMeta], as in the source. *)
Definition FindByValue (fuel : nat) (n : addr) (value : any) :
    M (option addr) :=
  let! nd := load n in
  find_range (fun c => DeepEqual (Value c) value)
    (fun node => FindByMeta fuel node value) (Nodes nd).

(** ** Traversal *)

(** The visitor is a Go closure: it receives the node and may read or
    change both the heap and whatever it captured, here a value of type
    [U] threaded through the calls. *)
Fixpoint visit_range {U : Type} (rec : addr -> U -> M U)
    (fn : addr -> U -> M U) (nodes : list addr) (u : U) : M U :=
  match nodes with
  | [] => ret u
  | node :: rest =>
      let! u := fn node u in
      let! c := load node in
      let! u := (if (0 <? length (Nodes c))%nat then rec node u
                 else ret u) in
      visit_range rec fn rest u
  end.

Fixpoint VisitAll {U : Type} (fuel : nat) (n : addr)
    (fn : addr -> U -> M U) (u : U) : M U :=
  match fuel with
  | O => timeout
  | S fuel' =>
      let! nd := load n in
      visit_range (fun node => VisitAll fuel' node fn) fn (Nodes nd) u
  end.

(** ** Rendering *)

(** [io.Writer]: the renderer only ever calls [Write] on its sink. *)
Class IOWriter (W : Type) := Write : W -> string -> W.

Fixpoint foldM {A B : Type} (f : B -> A -> M B) (l : list A) (b : B) : M B :=
  match l with
  | [] => ret b
  | a :: l' => let! b' := f b a in foldM f l' b'
  end.

Fixpoint isEnded (levelsEnded : list Z) (level : Z) : bool :=
  match levelsEnded with
  | [] => false
  | l :: rest => if (l =? level)%Z then true else isEnded rest level
  end.

(** [n == n.Root.FindLastNode()], by pointer identity. *)
Definition isLast (n : addr) : M bool :=
  let! nd := load n in
  match Root nd with
  | None => panic
  | Some r =>
      let! l := FindLastNode r in
      ret (bool_decide (l = Some n))
  end.

(** The loop of [padding].  Each round that finds a parent writes
    [links[level]] and panics when [level] is out of range, so the walk
    ends within [level + 2] rounds; [rounds] counts them down. *)
Fixpoint padding_walk (rounds : nat) (level : Z) (node : addr)
    (links : list string) : M string :=
  match rounds with
  | O => timeout
  | S rounds' =>
      let! nd := load node in
      match Root nd with
      | None => ret (strings_Join links "")
      | Some parent =>
          let! lst := isLast node in
          let! indent := gets IndentSize in
          let! seg := (if lst then strings_Repeat (indent + 1)
                       else let! link := gets EdgeTypeLink in
                            let! sp := strings_Repeat indent in
                            ret (link +:+ sp)) in
          if ((0 <=? level) && (level <? Z.of_nat (length links)))%Z
          then padding_walk rounds' (level - 1) parent
                 (<[Z.to_nat level := seg]> links)
          else panic
      end
  end.

Definition padding (level : Z) (node : addr) : M string :=
  if (level + 1 <? 0)%Z then panic
  else padding_walk (S (S (Z.to_nat level))) level node
         (replicate (Z.to_nat (level + 1)) EmptyString).

Definition renderValue (level : Z) (node : addr) : M any :=
  let! nd := load node in
  match strings_Split (Sprint (Value nd)) with
  | first :: (_ :: _) as rest =>
      let! pad := padding level node in
      ret (AString (strings_Join (first :: map (fun l => pad +:+ l) rest) nl))
  | _ => ret (Value nd)
  end.

Section Render.
Context {W : Type} `{IOWriter W}.

Definition printValues (wr : W) (level : Z) (levelsEnded : list Z)
    (edge : string) (node : addr) : M W :=
  let! wr := foldM (fun wr i =>
               let! indent := gets IndentSize in
               if isEnded levelsEnded i then
                 let! sp := strings_Repeat (indent + 1) in
                 ret (Write wr sp)
               else
                 let! link := gets EdgeTypeLink in
                 let! sp := strings_Repeat indent in
                 ret (Write wr (link +:+ sp)))
             (seqZ 0 level) wr in
  let! val := renderValue level node in
  let! nd := load node in
  match Meta nd with
  | ANil => ret (Write wr (edge +:+ " " +:+ Sprint val +:+ nl))
  | meta =>
      ret (Write wr (edge +:+ " [" +:+ Sprint meta +:+ "]  "
                       +:+ Sprint val +:+ nl))
  end.

(** The loop of [printNodes] from index [i] on; [len] is [len(nodes)]
    and [rec] the recursive call one level deeper. *)
Fixpoint print_range (rec : W -> list Z -> list addr -> M W)
    (len : nat) (level : Z) (i : Z) (rest : list addr)
    (levelsEnded : list Z) (wr : W) {struct rest} : M W :=
  match rest with
  | [] => ret wr
  | node :: rest' =>
      let! mid := gets EdgeTypeMid in
      let last := (i =? Z.of_nat len - 1)%Z in
      let levelsEnded :=
        if last then levelsEnded ++ [level] else levelsEnded in
      let! edge := (if last then gets EdgeTypeEnd else ret mid) in
      let! wr := printValues wr level levelsEnded edge node in
      let! nd := load node in
      let! wr := (if (0 <? length (Nodes nd))%nat
                  then rec wr levelsEnded (Nodes nd)
                  else ret wr) in
      print_range rec len level (i + 1)%Z rest' levelsEnded wr
  end.

Fixpoint printNodes (fuel : nat) (wr : W) (level : Z)
    (levelsEnded : list Z) (nodes : list addr) {struct fuel} : M W :=
  match fuel with
  | O => timeout
  | S fuel' =>
      print_range
        (fun wr levelsEnded nodes =>
           printNodes fuel' wr (level + 1) levelsEnded nodes)
        (length nodes) level 0 nodes levelsEnded wr
  end.

Definition Writer (fuel : nat) (n : addr) (w : W) : M W :=
  let level := 0%Z in
  let levelsEnded : list Z := [] in
  let! nd := load n in
  let! '(w, levelsEnded) :=
    match Root nd with
    | None =>
        let w := match Meta nd with
                 | ANil => Write w (Sprint (Value nd))
                 | meta => Write w ("[" +:+ Sprint meta +:+ "]  "
                                      +:+ Sprint (Value nd))
                 end in
        ret (Write w nl, levelsEnded)
    | Some _ =>
        let! mid := gets EdgeTypeMid in
        let leaf := (length (Nodes nd) =? 0)%nat in
        let! edge := (if leaf then gets EdgeTypeEnd else ret mid) in
        let levelsEnded :=
          if leaf then levelsEnded ++ [level] else levelsEnded in
        let! w := printValues w 0 levelsEnded edge n in
        ret (w, levelsEnded)
    end in
  if (0 <? length (Nodes nd))%nat
  then printNodes fuel w level levelsEnded (Nodes nd)
  else ret w.
End Render.

(** [bytes.Buffer]: [Write] appends the bytes of the chunk. *)
Definition Buffer : Type := list byte.

#[global] Instance Buffer_Write : IOWriter Buffer :=
  fun b p => b ++ list_byte_of_string p.

Definition Bytes (fuel : nat) (n : addr) : M (list byte) :=
  let buf : Buffer := [] in
  let! buf := Writer fuel n buf in
  ret buf.

(** The method [String]; the plain name is the constructor of [string]. *)
Definition String_ (fuel : nat) (n : addr) : M string :=
  let! b := Bytes fuel n in
  ret (string_of_list_byte b).

(** * Specification-side definitions *)

(** ** Computations that leave the state alone *)

Definition readonly {A : Type} (m : M A) : Prop :=
  forall s a s', m s = Ok a s' -> s' = s.

(** The chunks handed to [Write], in order. *)
Definition feed {W : Type} `{IOWriter W} (w : W) (chunks : list string) : W :=
  fold_left Write chunks w.

Definition blank (s : state) : string :=
  spaces (Z.to_nat (IndentSize s + 1)).

Definition link (s : state) : string :=
  EdgeTypeLink s +:+ spaces (Z.to_nat (IndentSize s)).

Definition segment (s : state) (ended : bool) : string :=
  if ended then blank s else link s.

(** The text after the connector: the value, behind its bracketed meta
    when the meta is not nil. *)
Definition label (nd : Node) (val : any) : string :=
  match Meta nd with
  | ANil => Sprint val
  | meta => "[" +:+ Sprint meta +:+ "]  " +:+ Sprint val
  end.

(** ** The shape of the tree below a node *)

#[warnings="-register-all"]
Inductive tree : Type := T (a : addr) (kids : list tree).

Definition root_of (t : tree) : addr := let 'T a _ := t in a.
Definition kids_of (t : tree) : list tree := let 'T _ ks := t in ks.

(** Follow the [Nodes] pointers from [a]; [None] when a pointer dangles
    or the structure is deeper than [fuel] (in particular when cyclic). *)
Fixpoint unfold (fuel : nat) (h : list Node) (a : addr) : option tree :=
  match fuel with
  | O => None
  | S fuel' =>
      match h !! a with
      | None => None
      | Some nd =>
          match mapM (unfold fuel' h) (Nodes nd) with
          | Some ts => Some (T a ts)
          | None => None
          end
      end
  end.

Fixpoint preorder (t : tree) : list addr :=
  let 'T a ks := t in a :: flat_map preorder ks.

(** Child, the child's whole subtree, next child, and so on. *)
Definition descendants (t : tree) : list addr :=
  flat_map preorder (kids_of t).

(** ** The calls of [printValues] made by a render

    One record per line that carries a connector: the children sequence
    the node was reached through ([c_parent], [c_index]), the arguments
    [printValues] receives, and [c_anc]: the ancestors printed at levels
    [0 .. c_level - 1], outermost first, each with the connector choice
    made for it ([true] for the end connector). *)

Record call : Type := mkCall {
  c_parent : addr;
  c_index : nat;
  c_node : addr;
  c_level : Z;
  c_ended : list Z;
  c_end : bool;
  c_anc : list (addr * bool)
}.

Definition is_nil {A : Type} (l : list A) : bool :=
  match l with [] => true | _ => false end.

Fixpoint node_calls (parent : addr) (index : nat) (level : Z)
    (ended : list Z) (anc : list (addr * bool)) (last : bool) (t : tree)
    {struct t} : list call :=
  let 'T a ks := t in
  let ended' := if last then ended ++ [level] else ended in
  mkCall parent index a level ended' last anc ::
  (fix sibs (i : nat) (ks : list tree) {struct ks} : list call :=
     match ks with
     | [] => []
     | k :: rest =>
         node_calls a i (level + 1) ended' (anc ++ [(a, last)]) (is_nil rest) k
         ++ sibs (S i) rest
     end) O ks.

Fixpoint sib_calls (parent : addr) (level : Z) (ended : list Z)
    (anc : list (addr * bool)) (i : nat) (ks : list tree) {struct ks} :
    list call :=
  match ks with
  | [] => []
  | k :: rest =>
      node_calls parent i level ended anc (is_nil rest) k
      ++ sib_calls parent level ended anc (S i) rest
  end.

(** [ended] records exactly the levels below [level] whose ancestor got the
    end connector. *)
Definition tracks (level : Z) (ended : list Z) (anc : list (addr * bool)) :
    Prop :=
  level = Z.of_nat (length anc) /\
  (forall e, e ∈ ended -> (0 <= e < level)%Z) /\
  (forall (d : nat) x, anc !! d = Some x -> isEnded ended (Z.of_nat d) = x.2).

(** What holds of every call: it sits at [c_index] in the children of
    [c_parent] and gets the end connector exactly at the last index; its
    level is the number of ancestors and its ended levels are those of
    the ancestors that got the end connector. *)
Definition call_ok (h : list Node) (c : call) : Prop :=
  (exists pd, h !! c_parent c = Some pd /\
     Nodes pd !! c_index c = Some (c_node c) /\
     (c_end c = true <-> S (c_index c) = length (Nodes pd))) /\
  c_level c = Z.of_nat (length (c_anc c)) /\
  (forall (d : nat) x, c_anc c !! d = Some x ->
     isEnded (c_ended c) (Z.of_nat d) = x.2).

Section Emit.
Context {W : Type} `{IOWriter W}.

(** Print the line of one call. *)
Definition emit (wr : W) (c : call) : M W :=
  let! edge := gets (fun s => if c_end c then EdgeTypeEnd s
                              else EdgeTypeMid s) in
  printValues wr (c_level c) (c_ended c) edge (c_node c).
End Emit.

Section OwnLine.
Context {W : Type} `{IOWriter W}.

(** The line of the node a render starts at.  Without a parent it is the
    bare label; with a parent it gets a connector chosen by whether the
    node has children. *)
Definition own_line (n : addr) (nd : Node) (w : W) : M W :=
  match Root nd with
  | None => ret (feed w [label nd (Value nd); nl])
  | Some _ =>
      let leaf := is_nil (Nodes nd) in
      let! edge := gets (fun s => if leaf then EdgeTypeEnd s
                                  else EdgeTypeMid s) in
      printValues w 0 (if leaf then [0%Z] else []) edge n
  end.
End OwnLine.

(** All lines below the node a render starts at. *)
Definition Writer_calls (n : addr) (t : tree) : list call :=
  sib_calls n 0 [] [] O (kids_of t).

(** Every ancestor entry of [c] is itself a call of [cs], at that level. *)
Definition anc_linked (cs : list call) (c : call) : Prop :=
  forall (d : nat) x, c_anc c !! d = Some x ->
    exists c', c' ∈ cs /\ c_node c' = x.1 /\ c_end c' = x.2 /\
               c_level c' = Z.of_nat d.

(** The same, allowing entries inherited from the enclosing [anc]. *)
Definition anc_from (anc : list (addr * bool)) (cs : list call) (c : call) :
    Prop :=
  forall (d : nat) x, c_anc c !! d = Some x ->
    anc !! d = Some x \/
    exists c', c' ∈ cs /\ c_node c' = x.1 /\ c_end c' = x.2 /\
               c_level c' = Z.of_nat d.

(** ** The connector rule as stated for a render started below the root *)


(** ** The link rule as stated for every ancestor *)

(** [sub] occurs somewhere in [s]. *)
Fixpoint occurs (sub s : string) : bool :=
  String.prefix sub s
  || match s with
     | EmptyString => false
     | String _ r => occurs sub r
     end.

(** The claim on links read on the output of a render: when a node
    printed below the start has a parent that is not the last of its
    siblings, a vertical link shows in the output. *)
Definition link_below_open_ancestor (s : state) (n : addr) : Prop :=
  forall fuel t out s' (d a : addr) dd ad (p : addr) pd,
    unfold fuel (heap s) n = Some t ->
    String_ fuel n s = Ok out s' ->
    In d (descendants t) ->
    heap s !! d = Some dd -> Root dd = Some a ->
    heap s !! a = Some ad -> Root ad = Some p ->
    heap s !! p = Some pd -> last (Nodes pd) <> Some a ->
    occurs (EdgeTypeLink s) out = true.

(** ** Search and traversal, read off the tree shape *)

Definition Meta_at (h : list Node) (a : addr) : any :=
  match h !! a with Some nd => Meta nd | None => ANil end.

Definition Value_at (h : list Node) (a : addr) : any :=
  match h !! a with Some nd => Value nd | None => ANil end.

(** First descendant, in pre-order, whose meta equals [meta]. *)
Definition first_by_meta (h : list Node) (meta : any) (t : tree) :
    option addr :=
  find (fun a => DeepEqual (Meta_at h a) meta) (descendants t).

(** First descendant, in pre-order, whose value equals [value]: what the
    documentation of [FindByValue] asks for. *)
Definition first_by_value (h : list Node) (value : any) (t : tree) :
    option addr :=
  find (fun a => DeepEqual (Value_at h a) value) (descendants t).

(** One pass over siblings: a sibling passing [check] wins, else whatever
    [sub] finds below it, else on to the next sibling. *)
Fixpoint first_hit (check : addr -> bool) (sub : tree -> option addr)
    (ts : list tree) : option addr :=
  match ts with
  | [] => None
  | k :: rest =>
      if check (root_of k) then Some (root_of k)
      else match sub k with
           | Some r => Some r
           | None => first_hit check sub rest
           end
  end.

(** A visitor that leaves every [Nodes] field as it found it. *)
Definition keeps_shape {U : Type} (fn : addr -> U -> M U) : Prop :=
  forall a u s u' s',
    fn a u s = Ok u' s' -> map Nodes (heap s') = map Nodes (heap s).

(** The visitor as a step of a fold over a list of nodes. *)
Definition visit {U : Type} (fn : addr -> U -> M U) (u : U) (a : addr) : M U :=
  fn a u.

(** The claim on the order of visits, for every visitor: whatever [fn]
    does, [VisitAll] runs it over the descendants the receiver has when
    the call is made, child, the child's descendants, next child. *)
Definition visit_order_for_every_visitor (s : state) (n : addr) : Prop :=
  forall (U : Type) (fn : addr -> U -> M U) fuel t (u : U),
    unfold fuel (heap s) n = Some t ->
    VisitAll fuel n fn u s = foldM (visit fn) (descendants t) u s.

(** The visitor [func(item *Node) { item.AddNode(v) }], logging the
    nodes it is called on. *)
Definition adding_visitor (v : any) (a : addr) (u : list addr) :
    M (list addr) :=
  let! _ := AddNode a v in ret (u ++ [a]).

(** What [FindByValue] computes: the value is compared on the direct
    children only, below them the search goes by meta. *)
Definition found_by_value (h : list Node) (value : any) (t : tree) :
    option addr :=
  first_hit (fun a => DeepEqual (Value_at h a) value)
    (first_by_meta h value) (kids_of t).

(** ** The upward walk of [padding]

    From a node through the [Root] pointers up to the first node without
    parent.  The list holds, outermost first, one flag per node passed:
    whether that node is the last element of its parent's children. *)
Inductive upward (h : list Node) : addr -> list bool -> Prop :=
| upward_top (a : addr) nd :
    h !! a = Some nd -> Root nd = None -> upward h a []
| upward_step (a : addr) nd (p : addr) pd fl :
    h !! a = Some nd -> Root nd = Some p -> h !! p = Some pd ->
    upward h p fl ->
    upward h a (fl ++ [bool_decide (last (Nodes pd) = Some a)]).

(** The padding the walk prescribes: a blank segment for a last sibling,
    a link segment otherwise, outermost first. *)
Definition walk_padding (s : state) (fl : list bool) : string :=
  strings_Join (map (segment s) fl) EmptyString.

(** ** Computations that do not run out of fuel *)

Definition terminates {A : Type} (m : M A) : Prop :=
  forall s, m s <> Timeout.

(** ** Two sinks fed the same chunks *)

(** Outcomes that agree up to a relation on the returned values. *)
Definition agree {A B : Type} (R : A -> B -> Prop)
    (x : result A) (y : result B) : Prop :=
  match x, y with
  | Ok a s, Ok b s' => R a b /\ s = s'
  | Panic, Panic => True
  | Timeout, Timeout => True
  | _, _ => False
  end.

(** ** Trees built through the public operations *)

Inductive built : state -> Prop :=
| built_init : built init
| built_config s indent l m e :
    built s ->
    built {| heap := heap s; IndentSize := indent; EdgeTypeLink := l;
             EdgeTypeMid := m; EdgeTypeEnd := e |}
| built_New s r s' : built s -> New s = Ok r s' -> built s'
| built_NewWithRoot s v r s' :
    built s -> NewWithRoot v s = Ok r s' -> built s'
| built_AddNode s n v r s' : built s -> AddNode n v s = Ok r s' -> built s'
| built_AddMetaNode s n m v r s' :
    built s -> AddMetaNode n m v s = Ok r s' -> built s'
| built_AddBranch s n v r s' :
    built s -> AddBranch n v s = Ok r s' -> built s'
| built_AddMetaBranch s n m v r s' :
    built s -> AddMetaBranch n m v s = Ok r s' -> built s'
| built_Branch s n r s' : built s -> Branch n s = Ok r s' -> built s'
| built_SetValue s n v r s' : built s -> SetValue n v s = Ok r s' -> built s'
| built_SetMetaValue s n m r s' :
    built s -> SetMetaValue n m s = Ok r s' -> built s'.

(** Every child lies above its owner in the heap, and its [Root] is the
    owner, or nil once [Branch] was called on it. *)
Definition owned_by (h : list Node) (p c : addr) : Prop :=
  (p < c)%nat /\
  exists cd, h !! c = Some cd /\ (Root cd = None \/ Root cd = Some p).

Definition tree_shaped (h : list Node) : Prop :=
  forall (p : addr) pd, h !! p = Some pd -> Forall (owned_by h p) (Nodes pd).

(** The upward walk from [a] fits the slots [0 .. level]. *)
Definition fits (h : list Node) (a : addr) (level : Z) : Prop :=
  exists fl, upward h a fl /\ (Z.of_nat (length fl) <= level + 1)%Z.

(** ** [levelsEnded] as a Go slice

    [printNodes] above carries the contents of [levelsEnded].  In Go the
    variable is a slice: a window [0, len) into a backing array of [cap]
    cells which [append] fills in place while there is room, so a callee
    may write into an array its caller still holds.  The definitions below
    spell that out; [arrays] are the backing arrays in allocation order
    and [grow] is the capacity the runtime picks when it reallocates. *)

Record slice : Type := mkSlice {
  s_arr : nat;
  s_len : nat;
  s_cap : nat
}.

Abbreviation arrays := (list (list Z)).

(** The elements a [range] over the slice sees. *)
Definition view (m : arrays) (sl : slice) : list Z :=
  take (s_len sl) (m !!! s_arr sl).

Definition go_append (grow : nat -> nat) (m : arrays) (sl : slice) (x : Z) :
    arrays * slice :=
  if (s_len sl <? s_cap sl)%nat then
    (alter (fun a => <[s_len sl := x]> a) (s_arr sl) m,
     mkSlice (s_arr sl) (S (s_len sl)) (s_cap sl))
  else
    let c := Nat.max (S (s_len sl)) (grow (s_cap sl)) in
    (m ++ [view m sl ++ x :: replicate (c - S (s_len sl)) 0%Z],
     mkSlice (length m) (S (s_len sl)) c).

Section RenderSlices.
Context {W : Type} `{IOWriter W}.
Variable grow : nat -> nat.

Fixpoint print_range_sl
    (rec : W -> arrays -> slice -> list addr -> M (W * arrays))
    (len : nat) (level : Z) (i : Z) (rest : list addr)
    (m : arrays) (levelsEnded : slice) (wr : W) {struct rest} :
    M (W * arrays) :=
  match rest with
  | [] => ret (wr, m)
  | node :: rest' =>
      let! mid := gets EdgeTypeMid in
      let last := (i =? Z.of_nat len - 1)%Z in
      let appended :=
        if last then go_append grow m levelsEnded level
        else (m, levelsEnded) in
      let m := appended.1 in
      let levelsEnded := appended.2 in
      let! edge := (if last then gets EdgeTypeEnd else ret mid) in
      let! wr := printValues wr level (view m levelsEnded) edge node in
      let! nd := load node in
      let! r := (if (0 <? length (Nodes nd))%nat
                 then rec wr m levelsEnded (Nodes nd)
                 else ret (wr, m)) in
      print_range_sl rec len level (i + 1)%Z rest' r.2 levelsEnded r.1
  end.

Fixpoint printNodes_sl (fuel : nat) (wr : W) (level : Z) (m : arrays)
    (levelsEnded : slice) (nodes : list addr) {struct fuel} :
    M (W * arrays) :=
  match fuel with
  | O => timeout
  | S fuel' =>
      print_range_sl
        (fun wr m levelsEnded nodes =>
           printNodes_sl fuel' wr (level + 1) m levelsEnded nodes)
        (length nodes) level 0 nodes m levelsEnded wr
  end.
End RenderSlices.

(** The slice points into an array of its capacity. *)
Definition slice_ok (m : arrays) (sl : slice) : Prop :=
  (s_len sl <= s_cap sl)%nat /\
  ((0 < s_cap sl)%nat ->
   (s_arr sl < length m)%nat /\ length (m !!! s_arr sl) = s_cap sl).

(** From [m] to [m'] every array that existed keeps its length, the array
    of [sl] keeps the cells of the window of [sl], and the other arrays
    keep all their cells. *)
Definition frame (m m' : arrays) (sl : slice) : Prop :=
  (length m <= length m')%nat /\
  forall a : nat, (a < length m)%nat ->
    length (m' !!! a) = length (m !!! a) /\
    (a <> s_arr sl -> m' !!! a = m !!! a) /\
    (a = s_arr sl ->
     take (s_len sl) (m' !!! a) = take (s_len sl) (m !!! a)).

(** Same sink, and the arrays framed with respect to the slice given. *)
Definition same_lines {W : Type} (m : arrays) (sl : slice)
    (x : W * arrays) (w : W) : Prop :=
  x.1 = w /\ frame m x.2 sl.

(** ** Example trees *)

Definition state_of {A : Type} (r : result A) : state :=
  match r with Ok _ s => s | _ => init end.

(** [t := New(); t.AddNode("A"); t.AddNode("B")]: the root is 0, the
    leaves are 1 and 2. *)
Definition two_leaves : state :=
  Eval vm_compute in
    state_of ((let! t := New in
               let! _ := AddNode t (AString "A") in
               AddNode t (AString "B")) init).

(** [t := New(); t.AddBranch("a").AddNode("b")]: root 0, child 1,
    grandchild 2. *)
Definition chain3 : state :=
  Eval vm_compute in
    state_of ((let! t := New in
               let! a := AddBranch t (AString "a") in
               AddNode a (AString "b")) init).

(** [t := New(); t.AddBranch("a").AddMetaNode(1, "x")]: as [chain3], the
    grandchild carrying meta 1. *)
Definition meta_chain : state :=
  Eval vm_compute in
    state_of ((let! t := New in
               let! a := AddBranch t (AString "a") in
               AddMetaNode a (AInt 1) (AString "x")) init).

(** A root with a meta leaf [1: "x"], a branch "B" holding a leaf "C", and
    a last leaf "D": addresses 0 to 4 in that order. *)
Definition small_tree : state :=
  Eval vm_compute in
    state_of ((let! t := New in
               let! _ := AddMetaNode t (AInt 1) (AString "x") in
               let! b := AddBranch t (AString "B") in
               let! _ := AddNode b (AString "C") in
               AddNode t (AString "D")) init).

(** [t := New(); b := t.AddBranch("b"); b.AddNode("x\ny")]: root 0,
    branch 1, and leaf 2 whose value has two lines. *)
Definition two_line_leaf : state :=
  Eval vm_compute in
    state_of ((let! t := New in
               let! b := AddBranch t (AString "b") in
               AddNode b (AString ("x" +:+ nl +:+ "y"))) init).

(** [t := New(); t.SetMetaValue(1); t.SetValue("x")]: one node, without
    parent, with meta 1 and value "x". *)
Definition meta_root : state :=
  Eval vm_compute in
    state_of ((let! t := New in
               let! _ := SetMetaValue t (AInt 1) in
               SetValue t (AString "x")) init).

(** * The struct-tag helpers of the package *)

(** [strings.Split(s, sep)] for a separator of one byte: the pieces
    between its occurrences, never empty. *)
Fixpoint strings_Split_on (sep : ascii) (s : string) : list string :=
  match s with
  | EmptyString => [EmptyString]
  | String c r =>
      if Ascii.eqb c sep then EmptyString :: strings_Split_on sep r
      else match strings_Split_on sep r with
           | x :: xs => String c x :: xs
           | [] => [String c EmptyString]
           end
  end.

(** [strings.HasPrefix(s, prefix)]. *)
Definition strings_HasPrefix (s prefix : string) : bool :=
  String.prefix prefix s.

Definition tagSpec (tag : string) : string * bool :=
  match strings_Split_on ","%char tag with
  | p0 :: p1 :: _ =>
      if String.eqb p1 "omitempty" then (p0, true) else (p0, false)
  | _ => (tag, false)
  end.

(** The loop of [filterTags]: [filtered] grows by the tags kept. *)
Fixpoint filter_range (tags : list string) (filtered : list string) :
    list string :=
  match tags with
  | [] => filtered
  | t :: rest =>
      if strings_HasPrefix t "tree:" then filter_range rest filtered
      else filter_range rest (filtered ++ [t])
  end.

Definition filterTags (tag : string) : string :=
  let tags := strings_Split_on " "%char tag in
  let filtered := filter_range tags [] in
  strings_Join filtered " ".

(** * Further specification-side definitions *)

(** The byte [c] occurs nowhere in [s]. *)
Fixpoint free_of (c : ascii) (s : string) : bool :=
  match s with
  | EmptyString => true
  | String x r => negb (Ascii.eqb x c) && free_of c r
  end.

(** ** Adding children *)

(** The state once [n], currently [nd], got a new last child with the
    given meta and value. *)
Definition with_child (s : state) (n : addr) (nd : Node) (meta a : any) :
    state :=
  with_heap s
    (<[n := {| Root := Root nd; Meta := Meta nd; Value := Value nd;
               Nodes := Nodes nd ++ [length (heap s)] |}]>
       (heap s ++ [{| Root := Some n; Meta := meta; Value := a;
                      Nodes := [] |}])).

(** The lines of the children of a root whose children are all leaves:
    the mid connector on all but the last, the end connector there. *)
Fixpoint flat_lines (mid end_ : string) (vs : list string) : list string :=
  match vs with
  | [] => []
  | v :: rest =>
      ((if is_nil rest then end_ else mid) +:+ " " +:+ v +:+ nl)
      :: flat_lines mid end_ rest
  end.

(** The state once [n], currently [nd], got one new leaf per value of
    [vs], in that order. *)
Definition with_children (s : state) (n : addr) (nd : Node) (vs : list any) :
    state :=
  with_heap s
    (<[n := {| Root := Root nd; Meta := Meta nd; Value := Value nd;
               Nodes := Nodes nd ++ seq (length (heap s)) (length vs) |}]>
       (heap s ++ map (fun v => {| Root := Some n; Meta := ANil; Value := v;
                                   Nodes := [] |}) vs)).

(** ** A render without multi-line values, line by line *)

(** The chunk written for the node a render starts at. *)
Definition own_chunks (s : state) (nd : Node) : list string :=
  match Root nd with
  | None => [label nd (Value nd); nl]
  | Some _ =>
      [(if is_nil (Nodes nd) then EdgeTypeEnd s else EdgeTypeMid s)
       +:+ " " +:+ label nd (Value nd) +:+ nl]
  end.

(** The chunks written for one call: a segment per ancestor, then the
    connector and the label of the node. *)
Definition call_chunks (s : state) (c : call) : list string :=
  map (fun x : addr * bool => segment s x.2) (c_anc c)
  ++ match heap s !! c_node c with
     | Some cd =>
         [(if c_end c then EdgeTypeEnd s else EdgeTypeMid s)
          +:+ " " +:+ label cd (Value cd) +:+ nl]
     | None => []
     end.

(** ** The chunks of a line with a value of several lines *)

(** The value of [cd] as [renderValue] hands it on when the padding of
    the node is [pad]. *)
Definition padded (pad : string) (cd : Node) : any :=
  match strings_Split (Sprint (Value cd)) with
  | first :: (_ :: _) as rest =>
      AString (strings_Join (first :: map (fun l => pad +:+ l) rest) nl)
  | _ => Value cd
  end.

(** The chunks written for the call [c] of the node [cd]. *)
Definition line_chunks (s : state) (c : call) (cd : Node) (pad : string) :
    list string :=
  map (fun x : addr * bool => segment s x.2) (c_anc c)
  ++ [(if c_end c then EdgeTypeEnd s else EdgeTypeMid s)
      +:+ " " +:+ label cd (padded pad cd) +:+ nl].

(** The segments in front of the connector of [c], and one more for [c]
    itself. *)
Definition own_padding (s : state) (c : call) : string :=
  strings_Join
    (map (fun x : addr * bool => segment s x.2) (c_anc c)
     ++ [segment s (c_end c)]) EmptyString.

Definition full_chunks (s : state) (c : call) : list string :=
  match heap s !! c_node c with
  | Some cd => line_chunks s c cd (own_padding s c)
  | None => []
  end.

(** ** Relabelling *)

(** [nd] with another value. *)
Definition with_value (v : any) (nd : Node) : Node :=
  {| Root := Root nd; Meta := Meta nd; Value := v; Nodes := Nodes nd |}.


(** The heap once every node of [l] got the value [v]. *)
Definition relabel (v : any) (l : list addr) (h : list Node) : list Node :=
  fold_left (fun h a => alter (with_value v) a h) l h.

(** ** Sharing *)

(** No node is listed twice, be it by one parent or by two. *)
Definition unshared (h : list Node) : Prop :=
  NoDup (concat (map Nodes h)).

(** A [Root] that is not nil points at a node that lists the node
    holding it. *)
Definition rooted (h : list Node) : Prop :=
  forall (c : addr) cd (p : addr),
    h !! c = Some cd -> Root cd = Some p ->
    exists pd, h !! p = Some pd /\ In c (Nodes pd).
(** * Properties *)

(** ** [DeepEqual] is structural equality *)

Lemma any_rect' (P : any -> Prop) :
  P ANil -> (forall b, P (ABool b)) -> (forall z, P (AInt z)) ->
  (forall s, P (AString s)) -> (forall l, Forall P l -> P (ASlice l)) ->
  forall x, P x.
Proof.
  intros Hn Hb Hi Hs Hl. fix IH 1.
  intros [ |b|z|s|l]; [exact Hn|apply Hb|apply Hi|apply Hs|].
  apply Hl. induction l as [|x l IHl]; constructor; [apply IH|exact IHl].
Qed.

Lemma DeepEqual_eq x : forall y, DeepEqual x y = true <-> x = y.
Proof.
  induction x as [ |b|z|s|l IH] using any_rect'; intros y; destruct y;
    cbn [DeepEqual]; try (split; [discriminate|congruence]).
  - split; reflexivity.
  - rewrite Bool.eqb_true_iff. split; congruence.
  - rewrite Z.eqb_eq. split; congruence.
  - rewrite String.eqb_eq. split; congruence.
  - rename l0 into m. revert m.
    induction IH as [|x l Hx _ IHl]; intros [|y m];
      try (split; [discriminate|congruence]).
    + split; reflexivity.
    + rewrite andb_true_iff, Hx, IHl. split.
      * intros [-> E]. congruence.
      * intros E. injection E as -> ->. split; reflexivity.
Qed.

(** ** Rendering and searching leave the state alone *)

Lemma readonly_ret {A} (a : A) : readonly (ret a).
Proof. intros s a' s' E. inversion E. reflexivity. Qed.

Lemma readonly_panic {A} : readonly (@panic A).
Proof. intros s a s' E. discriminate E. Qed.

Lemma readonly_timeout {A} : readonly (@timeout A).
Proof. intros s a s' E. discriminate E. Qed.

Lemma readonly_gets {A} (f : state -> A) : readonly (gets f).
Proof. intros s a s' E. inversion E. reflexivity. Qed.

Lemma readonly_load p : readonly (load p).
Proof.
  intros s a s' E. unfold load in E.
  destruct (heap s !! p); inversion E; reflexivity.
Qed.

Lemma readonly_bind {A B} (m : M A) (k : A -> M B) :
  readonly m -> (forall a, readonly (k a)) -> readonly (bind m k).
Proof.
  intros Hm Hk s b s' E. unfold bind in E.
  destruct (m s) as [a s1| |] eqn:E1; try discriminate.
  apply Hm in E1. subst s1. exact (Hk a s b s' E).
Qed.

Create HintDb ro.

Ltac ro_step :=
  lazymatch goal with
  | |- readonly (ret _) => apply readonly_ret
  | |- readonly panic => apply readonly_panic
  | |- readonly timeout => apply readonly_timeout
  | |- readonly (gets _) => apply readonly_gets
  | |- readonly (load _) => apply readonly_load
  | |- readonly (bind _ _) => apply readonly_bind; [ | intros ? ]
  | |- readonly (match ?x with _ => _ end) => destruct x
  | |- readonly (let _ := _ in _) => cbv zeta
  | |- readonly _ => solve [ auto with ro ]
  end.

Ltac ro := repeat ro_step.

Lemma readonly_Repeat count : readonly (strings_Repeat count).
Proof. unfold strings_Repeat. ro. Qed.
#[local] Hint Resolve readonly_Repeat : ro.

Lemma readonly_FindLastNode n : readonly (FindLastNode n).
Proof. unfold FindLastNode. ro. Qed.
#[local] Hint Resolve readonly_FindLastNode : ro.

Lemma readonly_isLast n : readonly (isLast n).
Proof. unfold isLast. ro. Qed.
#[local] Hint Resolve readonly_isLast : ro.

Lemma readonly_padding_walk rounds :
  forall level node links, readonly (padding_walk rounds level node links).
Proof.
  induction rounds as [|r IH]; intros level node links; simpl; ro.
Qed.
#[local] Hint Resolve readonly_padding_walk : ro.

Lemma readonly_padding level node : readonly (padding level node).
Proof. unfold padding. ro. Qed.
#[local] Hint Resolve readonly_padding : ro.

Lemma readonly_renderValue level node : readonly (renderValue level node).
Proof. unfold renderValue. ro. Qed.
#[local] Hint Resolve readonly_renderValue : ro.

Lemma readonly_foldM {A B} (f : B -> A -> M B) (l : list A) :
  (forall b a, readonly (f b a)) -> forall b, readonly (foldM f l b).
Proof.
  intros Hf. induction l as [|a l IH]; intros b; simpl; ro.
Qed.

Section RenderFrame.
Context {W : Type} `{IOWriter W}.

Lemma readonly_printValues (wr : W) level levelsEnded edge node :
  readonly (printValues wr level levelsEnded edge node).
Proof.
  unfold printValues. ro.
  apply readonly_foldM. intros b a. ro.
Qed.
#[local] Hint Resolve readonly_printValues : ro.

Lemma readonly_print_range rec len level :
  (forall wr e ns, readonly (rec wr e ns)) ->
  forall rest i levelsEnded (wr : W),
    readonly (print_range rec len level i rest levelsEnded wr).
Proof.
  intros Hrec. induction rest as [|node rest IH];
    intros i levelsEnded wr; simpl; ro.
Qed.

Lemma readonly_printNodes fuel :
  forall (wr : W) level levelsEnded nodes,
    readonly (printNodes fuel wr level levelsEnded nodes).
Proof.
  induction fuel as [|f IH]; intros wr level levelsEnded nodes; simpl.
  - ro.
  - apply readonly_print_range. intros; apply IH.
Qed.
#[local] Hint Resolve readonly_printNodes : ro.

Lemma readonly_Writer fuel n (w : W) : readonly (Writer fuel n w).
Proof. unfold Writer. ro. Qed.
End RenderFrame.
#[local] Hint Resolve readonly_printValues readonly_printNodes
  readonly_Writer : ro.

Lemma readonly_Bytes fuel n : readonly (Bytes fuel n).
Proof. unfold Bytes. ro. Qed.
#[local] Hint Resolve readonly_Bytes : ro.

Lemma readonly_String fuel n : readonly (String_ fuel n).
Proof. unfold String_. ro. Qed.

(** ** Running a computation that does not touch the state *)

Lemma bind_Ok {A B} (m : M A) (k : A -> M B) s a s' :
  m s = Ok a s' -> bind m k s = k a s'.
Proof. intros E. unfold bind. rewrite E. reflexivity. Qed.

Lemma bind_Panic {A B} (m : M A) (k : A -> M B) s :
  m s = Panic -> bind m k s = Panic.
Proof. intros E. unfold bind. rewrite E. reflexivity. Qed.

Lemma bind_Timeout {A B} (m : M A) (k : A -> M B) s :
  m s = Timeout -> bind m k s = Timeout.
Proof. intros E. unfold bind. rewrite E. reflexivity. Qed.

Lemma bind_gets {A B} (f : state -> A) (k : A -> M B) s :
  bind (gets f) k s = k (f s) s.
Proof. reflexivity. Qed.

Lemma bind_ret {A B} (a : A) (k : A -> M B) s : bind (ret a) k s = k a s.
Proof. reflexivity. Qed.

Lemma bind_load {B} p nd (k : Node -> M B) s :
  heap s !! p = Some nd -> bind (load p) k s = k nd s.
Proof. intros E. unfold bind, load. rewrite E. reflexivity. Qed.

Lemma bind_assoc {A B C} (m : M A) (k : A -> M B) (k' : B -> M C) s :
  bind (bind m k) k' s = bind m (fun a => bind (k a) k') s.
Proof. unfold bind. destruct (m s); reflexivity. Qed.

Lemma bind_congr {A B} (m m' : M A) (k : A -> M B) s :
  m s = m' s -> bind m k s = bind m' k s.
Proof. intros E. unfold bind. rewrite E. reflexivity. Qed.

(** Case analysis on the outcome of the first computation of a bind. *)
Ltac bind_case m s E :=
  let a := fresh "a" in
  let s' := fresh "s" in
  destruct (m s) as [a s'| |] eqn:E;
  [ rewrite !(bind_Ok m _ s a s' E)
  | rewrite !(bind_Panic m _ s E)
  | rewrite !(bind_Timeout m _ s E) ].

Lemma foldM_app {A B} (f : B -> A -> M B) (l1 l2 : list A) (b : B) s :
  foldM f (l1 ++ l2) b s = (let! b' := foldM f l1 b in foldM f l2 b') s.
Proof.
  revert b s. induction l1 as [|a l1 IH]; intros b s; simpl.
  - reflexivity.
  - unfold bind in *. destruct (f b a s) as [b' s'| |]; [|reflexivity..].
    apply IH.
Qed.

Lemma append_assoc (a b c : string) : (a +:+ b) +:+ c = a +:+ (b +:+ c).
Proof.
  induction a as [|x a IH]; [reflexivity|].
  change (String x ((a +:+ b) +:+ c) = String x (a +:+ (b +:+ c))).
  f_equal. exact IH.
Qed.

(** ** What one call of [printValues] writes *)

Lemma feed_app {W : Type} `{IOWriter W} (w : W) (c1 c2 : list string) :
  feed w (c1 ++ c2) = feed (feed w c1) c2.
Proof. apply fold_left_app. Qed.

Section PrintValues.
Context {W : Type} `{IOWriter W}.

Lemma indent_segments levelsEnded s :
  (0 <= IndentSize s)%Z ->
  forall (l : list Z) (wr : W),
    foldM (fun wr i =>
             let! indent := gets IndentSize in
             if isEnded levelsEnded i then
               let! sp := strings_Repeat (indent + 1) in
               ret (Write wr sp)
             else
               let! link := gets EdgeTypeLink in
               let! sp := strings_Repeat indent in
               ret (Write wr (link +:+ sp))) l wr s
    = Ok (feed wr (map (fun i => segment s (isEnded levelsEnded i)) l)) s.
Proof.
  intros Hind. induction l as [|i l IH]; intros wr; simpl.
  - reflexivity.
  - unfold bind at 1. unfold bind at 1. unfold gets at 1.
    destruct (isEnded levelsEnded i); unfold segment, blank, link;
      unfold bind, gets, strings_Repeat, ret.
    + destruct (IndentSize s + 1 <? 0)%Z eqn:E; [lia|]. apply IH.
    + destruct (IndentSize s <? 0)%Z eqn:E; [lia|]. apply IH.
Qed.

Lemma printValues_line (wr : W) level levelsEnded edge node s :
  (0 <= IndentSize s)%Z ->
  printValues wr level levelsEnded edge node s
  = (let! val := renderValue level node in
     let! nd := load node in
     ret (feed wr
            (map (fun i => segment s (isEnded levelsEnded i)) (seqZ 0 level)
             ++ [edge +:+ " " +:+ label nd val +:+ nl]))) s.
Proof.
  intros Hind. unfold printValues.
  rewrite (bind_Ok _ _ _ _ _ (indent_segments levelsEnded s Hind _ wr)).
  unfold bind. destruct (renderValue level node s) as [val s1| |];
    [|reflexivity..].
  destruct (load node s1) as [nd s2| |]; [|reflexivity..].
  rewrite feed_app. unfold label.
  destruct (Meta nd); simpl; unfold ret; rewrite ?append_assoc;
    reflexivity.
Qed.
End PrintValues.

Lemma unfold_S fuel h a t :
  unfold (S fuel) h a = Some t ->
  exists nd ts, h !! a = Some nd /\ t = T a ts /\
    Forall2 (fun c k => unfold fuel h c = Some k) (Nodes nd) ts.
Proof.
  simpl. destruct (h !! a) as [nd|]; [|discriminate].
  destruct (mapM (unfold fuel h) (Nodes nd)) as [ts|] eqn:E; [|discriminate].
  intros [= <-]. exists nd, ts. split; [reflexivity|]. split; [reflexivity|].
  apply mapM_Some_1. exact E.
Qed.

Lemma unfold_kids_nonempty fuel h nodes ts :
  Forall2 (fun c k => unfold fuel h c = Some k) nodes ts ->
  nodes <> [] -> exists f, fuel = S f.
Proof.
  intros HF Hne. destruct HF as [|c k nodes' ts' Hc _]; [congruence|].
  destruct fuel; [discriminate|]. eauto.
Qed.

(** ** The calls of [printValues] made by a render *)

Lemma node_calls_eq parent index level ended anc last a ks :
  node_calls parent index level ended anc last (T a ks)
  = mkCall parent index a level
      (if last then ended ++ [level] else ended) last anc
    :: sib_calls a (level + 1)
         (if last then ended ++ [level] else ended) (anc ++ [(a, last)]) O ks.
Proof.
  simpl. f_equal. generalize O as i.
  induction ks as [|k ks IH]; intros i; simpl; [reflexivity|].
  f_equal. apply IH.
Qed.

Section Calls.
Context {W : Type} `{IOWriter W}.

Lemma readonly_emit wr c : readonly (emit wr c).
Proof. unfold emit. ro. Qed.

Lemma print_range_calls fuel h parent level anc len :
  (forall nodes ts (wr : W) ended anc' p s,
      heap s = h -> nodes <> [] ->
      Forall2 (fun c k => unfold fuel h c = Some k) nodes ts ->
      printNodes fuel wr (level + 1) ended nodes s
      = foldM emit (sib_calls p (level + 1) ended anc' O ts) wr s) ->
  forall rest ts (i : nat) ended (wr : W) s,
    heap s = h ->
    (i + length rest = len)%nat ->
    Forall2 (fun c k => unfold (S fuel) h c = Some k) rest ts ->
    print_range
      (fun wr levelsEnded nodes =>
         printNodes fuel wr (level + 1) levelsEnded nodes)
      len level (Z.of_nat i) rest ended wr s
    = foldM emit (sib_calls parent level ended anc i ts) wr s.
Proof.
  intros IHfuel. induction rest as [|node rest IH];
    intros ts i ended wr s Hh Hlen HF.
  - inversion HF; subst. reflexivity.
  - inversion HF as [|? t ? ts' Ht HF']; subst ts. clear HF.
    rewrite <- Hh in Ht.
    apply unfold_S in Ht as (nd & ks & Hnd & -> & Hks).
    cbn [sib_calls]. rewrite node_calls_eq. cbn [app foldM print_range].
    assert (Hlast : (Z.of_nat i =? Z.of_nat len - 1)%Z = is_nil ts').
    { destruct HF'; simpl in *.
      - apply Z.eqb_eq. lia.
      - apply Z.eqb_neq. lia. }
    rewrite Hlast. set (last := is_nil ts').
    set (ended' := if last then ended ++ [level] else ended).
    rewrite bind_gets.
    assert (Hedge : (if last then gets EdgeTypeEnd else ret (EdgeTypeMid s)) s
                    = Ok (if last then EdgeTypeEnd s else EdgeTypeMid s) s).
    { destruct last; reflexivity. }
    rewrite (bind_Ok _ _ _ _ _ Hedge).
    unfold emit at 1. cbn [c_end c_level c_ended c_node].
    rewrite bind_assoc, bind_gets.
    bind_case (printValues wr level ended'
                 (if last then EdgeTypeEnd s else EdgeTypeMid s) node) s Epv;
      [|reflexivity..].
    apply readonly_printValues in Epv. subst s0.
    rewrite (bind_load _ _ _ _ Hnd), foldM_app.
    assert (Hsub : (if (0 <? length (Nodes nd))%nat
                    then printNodes fuel a (level + 1) ended' (Nodes nd)
                    else ret a) s
                   = foldM emit
                       (sib_calls node (level + 1) ended' (anc ++ [(node, last)]) O ks)
                       a s).
    { destruct (Nodes nd) as [|c cs] eqn:En.
      - inversion Hks; subst. reflexivity.
      - change (0 <? length (c :: cs))%nat with true. cbv iota.
        apply IHfuel; [exact Hh|discriminate|rewrite <- Hh; exact Hks]. }
    rewrite (bind_congr _ _ _ _ Hsub).
    bind_case (foldM emit
                 (sib_calls node (level + 1) ended' (anc ++ [(node, last)]) O ks) a)
      s Esub; [|reflexivity..].
    + apply (readonly_foldM emit _ readonly_emit) in Esub. subst s0.
      replace (Z.of_nat i + 1)%Z with (Z.of_nat (S i)) by lia.
      destruct ts' as [|t' ts''].
      * inversion HF'; subst. reflexivity.
      * change ended' with ended.
        apply IH; [exact Hh| simpl in *; lia | exact HF'].
Qed.

Lemma printNodes_calls h fuel :
  forall level nodes ts (wr : W) ended anc p s,
    heap s = h -> nodes <> [] ->
    Forall2 (fun c k => unfold fuel h c = Some k) nodes ts ->
    printNodes fuel wr level ended nodes s
    = foldM emit (sib_calls p level ended anc O ts) wr s.
Proof.
  induction fuel as [|f IH]; intros level nodes ts wr ended anc p s
    Hh Hne HF.
  - destruct (unfold_kids_nonempty _ _ _ _ HF Hne) as [f' E].
    discriminate E.
  - cbn [printNodes]. change 0%Z with (Z.of_nat O).
    apply (print_range_calls f h p level anc (length nodes)).
    + intros. apply IH; assumption.
    + exact Hh.
    + reflexivity.
    + exact HF.
Qed.
End Calls.

(** ** More fuel never changes the shape found *)

Lemma unfold_mono fuel h :
  forall a t, unfold fuel h a = Some t -> unfold (S fuel) h a = Some t.
Proof.
  induction fuel as [|f IH]; intros a t E; [discriminate|].
  apply unfold_S in E as (nd & ts & Hnd & -> & Hks).
  change (unfold (S (S f)) h a) with
    (match h !! a with
     | None => None
     | Some nd => match mapM (unfold (S f) h) (Nodes nd) with
                  | Some ts => Some (T a ts)
                  | None => None
                  end
     end).
  rewrite Hnd.
  rewrite (mapM_Some_2 (unfold (S f) h) (Nodes nd) ts); [reflexivity|].
  eapply Forall2_impl; [exact Hks|]. intros c k. apply IH.
Qed.

Lemma unfold_kids fuel h a t :
  unfold fuel h a = Some t ->
  exists nd, h !! a = Some nd /\ root_of t = a /\
    Forall2 (fun c k => unfold fuel h c = Some k) (Nodes nd) (kids_of t).
Proof.
  intros E. destruct fuel as [|f]; [discriminate|].
  apply unfold_S in E as (nd & ts & Hnd & -> & Hks).
  exists nd. split; [exact Hnd|]. split; [reflexivity|].
  eapply Forall2_impl; [exact Hks|]. intros c k. apply unfold_mono.
Qed.

(** ** The ended levels seen by each call *)

Lemma isEnded_elem levelsEnded level :
  isEnded levelsEnded level = true <-> level ∈ levelsEnded.
Proof.
  induction levelsEnded as [|l rest IH]; simpl.
  - split; [discriminate|]. intros Hin. inversion Hin.
  - destruct (l =? level)%Z eqn:E.
    + apply Z.eqb_eq in E. subst. split; [|reflexivity].
      intros _. apply list_elem_of_here.
    + apply Z.eqb_neq in E. rewrite IH. split.
      * intros Hin. apply list_elem_of_further. exact Hin.
      * intros Hin. inversion Hin; subst; [congruence|assumption].
Qed.

Lemma isEnded_app l1 l2 level :
  isEnded (l1 ++ l2) level = isEnded l1 level || isEnded l2 level.
Proof.
  induction l1 as [|l rest IH]; simpl; [reflexivity|].
  destruct (l =? level)%Z; [reflexivity|exact IH].
Qed.

Lemma tracks_here level ended anc (last : bool) :
  tracks level ended anc ->
  forall (d : nat) x, anc !! d = Some x ->
    isEnded (if last then ended ++ [level] else ended) (Z.of_nat d) = x.2.
Proof.
  intros (Hlen & Hbound & Hanc) d x Hd. destruct last; [|eauto].
  rewrite isEnded_app, (Hanc d x Hd). simpl.
  apply lookup_lt_Some in Hd.
  destruct (level =? Z.of_nat d)%Z eqn:E; [apply Z.eqb_eq in E; lia|].
  apply orb_false_r.
Qed.

Lemma tracks_deeper level ended anc a (last : bool) :
  tracks level ended anc ->
  tracks (level + 1) (if last then ended ++ [level] else ended)
    (anc ++ [(a, last)]).
Proof.
  intros Ht. pose proof Ht as (Hlen & Hbound & Hanc).
  split; [rewrite length_app; simpl; lia|]. split.
  - intros e He. destruct last.
    + apply elem_of_app in He as [He|He].
      * apply Hbound in He. lia.
      * apply list_elem_of_singleton in He. subst. lia.
    + apply Hbound in He. lia.
  - intros d x Hd. apply lookup_app_Some in Hd as [Hd|[Hge Hd]].
    + apply (tracks_here level ended anc last Ht). exact Hd.
    + destruct (d - length anc)%nat as [|k] eqn:Ek; [|discriminate].
      simpl in Hd. injection Hd as <-. simpl.
      assert (Z.of_nat d = level) as -> by lia.
      destruct last.
      * rewrite isEnded_app. simpl. rewrite Z.eqb_refl. apply orb_true_r.
      * destruct (isEnded ended level) eqn:E; [|reflexivity].
        apply isEnded_elem, Hbound in E. lia.
Qed.

Lemma sib_calls_ok h fuel :
  forall p pd level ended anc ts,
    h !! p = Some pd ->
    Forall2 (fun c k => unfold fuel h c = Some k) (Nodes pd) ts ->
    tracks level ended anc ->
    Forall (call_ok h) (sib_calls p level ended anc O ts).
Proof.
  induction fuel as [|f IH]; intros p pd level ended anc ts Hp HF Ht.
  - destruct HF; [constructor|discriminate].
  - assert (Hgen : forall rest ts' i,
               drop i (Nodes pd) = rest ->
               Forall2 (fun c k => unfold (S f) h c = Some k) rest ts' ->
               Forall (call_ok h) (sib_calls p level ended anc i ts')).
    { induction rest as [|node rest IHrest]; intros ts' i Hdrop HF'.
      - inversion HF'; subst. constructor.
      - inversion HF' as [|? t ? ts'' Hnode HF'']; subst.
        apply unfold_S in Hnode as (nd & ks & Hnd & -> & Hks).
        cbn [sib_calls]. rewrite node_calls_eq.
        assert (Hi : Nodes pd !! i = Some node).
        { rewrite <- (Nat.add_0_r i), <- lookup_drop, Hdrop. reflexivity. }
        assert (Hlen : length (Nodes pd) = (i + S (length rest))%nat).
        { pose proof (length_drop (Nodes pd) i) as Hl.
          rewrite Hdrop in Hl. simpl in Hl.
          apply lookup_lt_Some in Hi. lia. }
        apply Forall_cons. split; [|apply Forall_app; split].
        + split; [|split]; cbn.
          * exists pd. split; [exact Hp|]. split; [exact Hi|].
            rewrite Hlen. destruct HF''; simpl; split; intros; try lia;
              try reflexivity; discriminate.
          * apply Ht.
          * apply tracks_here. exact Ht.
        + apply (IH node nd); [exact Hnd|exact Hks|].
          apply tracks_deeper. exact Ht.
        + apply IHrest; [|exact HF''].
          transitivity (drop 1 (drop i (Nodes pd))).
          { rewrite drop_drop. f_equal. lia. }
          rewrite Hdrop. reflexivity. }
    apply (Hgen (Nodes pd)); [apply drop_0|exact HF].
Qed.

(** ** Ancestors are calls of the same render *)

Lemma tree_rect' (P : tree -> Prop) :
  (forall a ks, Forall P ks -> P (T a ks)) -> forall t, P t.
Proof.
  intros HT. fix IH 1. intros [a ks]. apply HT.
  induction ks as [|k ks IHks]; constructor; [apply IH|exact IHks].
Qed.

Lemma anc_from_mono anc cs cs' c :
  (forall c', c' ∈ cs -> c' ∈ cs') -> anc_from anc cs c -> anc_from anc cs' c.
Proof.
  intros Hsub Hc d x Hd. destruct (Hc d x Hd) as [Ha|(c' & Hin & Hrest)].
  - left. exact Ha.
  - right. exists c'. split; [apply Hsub; exact Hin|exact Hrest].
Qed.

Lemma sib_calls_anc ks :
  Forall (fun t => forall p i level ended anc last,
            level = Z.of_nat (length anc) ->
            Forall (anc_from anc (node_calls p i level ended anc last t))
              (node_calls p i level ended anc last t)) ks ->
  forall p level ended anc i,
    level = Z.of_nat (length anc) ->
    Forall (anc_from anc (sib_calls p level ended anc i ks))
      (sib_calls p level ended anc i ks).
Proof.
  induction 1 as [|k ks Hk _ IH]; intros p level ended anc i Hlen;
    cbn [sib_calls]; [constructor|].
  apply Forall_app. split.
  - eapply Forall_impl; [apply Hk; exact Hlen|].
    intros c Hc. eapply anc_from_mono; [|exact Hc].
    intros c' Hin. apply elem_of_app. left. exact Hin.
  - eapply Forall_impl; [apply IH; exact Hlen|].
    intros c Hc. eapply anc_from_mono; [|exact Hc].
    intros c' Hin. apply elem_of_app. right. exact Hin.
Qed.

Lemma node_calls_anc t :
  forall p i level ended anc last,
    level = Z.of_nat (length anc) ->
    Forall (anc_from anc (node_calls p i level ended anc last t))
      (node_calls p i level ended anc last t).
Proof.
  induction t as [a ks IH] using tree_rect'.
  intros p i level ended anc last Hlen. rewrite node_calls_eq.
  set (ended' := if last then ended ++ [level] else ended).
  set (hd := mkCall p i a level ended' last anc).
  apply Forall_cons. split.
  - intros d x Hd. left. exact Hd.
  - assert (Hlen' : (level + 1)%Z = Z.of_nat (length (anc ++ [(a, last)]))).
    { rewrite length_app. simpl. lia. }
    pose proof (sib_calls_anc ks IH a (level + 1)%Z ended'
                  (anc ++ [(a, last)]) O Hlen') as Hs.
    eapply Forall_impl; [exact Hs|]. intros c Hc d x Hd.
    destruct (Hc d x Hd) as [Ha|(c' & Hin & Hrest)].
    + apply lookup_app_Some in Ha as [Ha|[Hge Ha]]; [left; exact Ha|].
      right. exists hd. split; [apply list_elem_of_here|].
      destruct (d - length anc)%nat as [|k] eqn:Ek; [|discriminate].
      simpl in Ha. injection Ha as <-. cbn. repeat split. lia.
    + right. exists c'. split; [|exact Hrest].
      apply list_elem_of_further. exact Hin.
Qed.

Lemma Writer_calls_linked n t :
  Forall (anc_linked (Writer_calls n t)) (Writer_calls n t).
Proof.
  unfold Writer_calls.
  assert (Hk : Forall (fun t => forall p i level ended anc last,
            level = Z.of_nat (length anc) ->
            Forall (anc_from anc (node_calls p i level ended anc last t))
              (node_calls p i level ended anc last t)) (kids_of t)).
  { apply Forall_forall. intros k _. apply node_calls_anc. }
  pose proof (sib_calls_anc _ Hk n 0%Z [] [] O eq_refl) as Hs.
  eapply Forall_impl; [exact Hs|]. intros c Hc d x Hd.
  destruct (Hc d x Hd) as [Ha|Hex]; [discriminate Ha|exact Hex].
Qed.

(** ** A render is its own line followed by the lines of its calls *)

Section WriterCalls.
Context {W : Type} `{IOWriter W}.

Lemma Writer_lines fuel n nd t (w : W) s :
  heap s !! n = Some nd ->
  unfold fuel (heap s) n = Some t ->
  Writer fuel n w s
  = (let! w := own_line n nd w in foldM emit (Writer_calls n t) w) s.
Proof.
  intros Hn Ht. apply unfold_kids in Ht as (nd' & Hn' & _ & Hks).
  rewrite Hn in Hn'. injection Hn' as <-.
  unfold Writer, own_line, Writer_calls. rewrite (bind_load _ _ _ _ Hn).
  destruct (Root nd) as [p|].
  - rewrite !bind_assoc, !bind_gets.
    assert (Hleaf : (length (Nodes nd) =? 0)%nat = is_nil (Nodes nd))
      by (destruct (Nodes nd); reflexivity).
    rewrite Hleaf. set (leaf := is_nil (Nodes nd)).
    assert (Hedge : (if leaf then gets EdgeTypeEnd else ret (EdgeTypeMid s)) s
                    = Ok (if leaf then EdgeTypeEnd s else EdgeTypeMid s) s)
      by (destruct leaf; reflexivity).
    rewrite bind_assoc, (bind_Ok _ _ _ _ _ Hedge), bind_assoc.
    change ([] ++ [0%Z]) with [0%Z].
    bind_case (printValues w 0 (if leaf then [0%Z] else [])
                 (if leaf then EdgeTypeEnd s else EdgeTypeMid s) n) s Epv;
      [|reflexivity..].
    apply readonly_printValues in Epv. subst s0. rewrite bind_ret.
    subst leaf. destruct (Nodes nd) as [|c cs] eqn:En.
    + inversion Hks; subst. reflexivity.
    + apply (printNodes_calls (heap s));
        [reflexivity|discriminate|exact Hks].
  - rewrite !bind_ret.
    match goal with
    | |- context [Write ?x nl] =>
        replace (Write x nl) with (feed w [label nd (Value nd); nl])
          by (unfold label; destruct (Meta nd); reflexivity)
    end.
    destruct (Nodes nd) as [|c cs] eqn:En.
    + inversion Hks; subst. reflexivity.
    + apply (printNodes_calls (heap s));
        [reflexivity|discriminate|exact Hks].
Qed.
End WriterCalls.

(** ** Labels and indentation segments *)

Lemma length_append (a b : string) :
  String.length (a +:+ b) = (String.length a + String.length b)%nat.
Proof.
  induction a as [|x a IH]; [reflexivity|].
  change (S (String.length (a +:+ b)) = S (String.length a + String.length b)).
  f_equal. exact IH.
Qed.

Lemma label_bare nd val : label nd val = Sprint val <-> Meta nd = ANil.
Proof.
  unfold label. split.
  - destruct (Meta nd) eqn:E; [reflexivity|..]; intros Heq;
      apply (f_equal String.length) in Heq;
      rewrite !length_append in Heq; simpl in Heq; lia.
  - intros ->. reflexivity.
Qed.

Lemma segments_anc s ended (anc : list (addr * bool)) :
  (forall (d : nat) x, anc !! d = Some x -> isEnded ended (Z.of_nat d) = x.2) ->
  map (fun i => segment s (isEnded ended i)) (seqZ 0 (Z.of_nat (length anc)))
  = map (fun x => segment s x.2) anc.
Proof.
  intros Hanc. apply list_eq. intros i.
  change (map ?f ?l) with (f <$> l). rewrite !list_lookup_fmap.
  destruct (anc !! i) as [x|] eqn:E.
  - pose proof (lookup_lt_Some _ _ _ E) as Hlt.
    rewrite lookup_seqZ_lt by lia. rewrite Z.add_0_l. simpl.
    rewrite (Hanc i x E). reflexivity.
  - apply lookup_ge_None in E. rewrite lookup_seqZ_ge by lia. reflexivity.
Qed.

(** ** The shape depends on the [Nodes] fields only *)

Lemma lookup_same_shape (h h' : list Node) (a : addr) nd :
  map Nodes h' = map Nodes h ->
  h !! a = Some nd ->
  exists nd', h' !! a = Some nd' /\ Nodes nd' = Nodes nd.
Proof.
  intros Hsh Ha.
  assert (E : Nodes <$> (h' !! a) = Nodes <$> (h !! a)).
  { rewrite <- !list_lookup_fmap.
    exact (f_equal (fun l : list (list addr) => l !! a) Hsh). }
  rewrite Ha in E. destruct (h' !! a) as [nd'|]; [|discriminate E].
  injection E as E. exists nd'. split; [reflexivity|exact E].
Qed.

Lemma unfold_eq fuel h a :
  unfold (S fuel) h a
  = match h !! a with
    | None => None
    | Some nd => match mapM (unfold fuel h) (Nodes nd) with
                 | Some ts => Some (T a ts)
                 | None => None
                 end
    end.
Proof. reflexivity. Qed.

Lemma unfold_same_shape fuel (h h' : list Node) :
  map Nodes h' = map Nodes h ->
  forall a t, unfold fuel h a = Some t -> unfold fuel h' a = Some t.
Proof.
  intros Hsh. induction fuel as [|f IH]; intros a t E; [discriminate|].
  apply unfold_S in E as (nd & ts & Hnd & -> & Hks).
  destruct (lookup_same_shape h h' a nd Hsh Hnd) as (nd' & Hnd' & HN).
  rewrite unfold_eq, Hnd', HN.
  rewrite (mapM_Some_2 (unfold f h') (Nodes nd) ts); [reflexivity|].
  eapply Forall2_impl; [exact Hks|]. intros c k. apply IH.
Qed.

Lemma unfold_root fuel h a t : unfold fuel h a = Some t -> root_of t = a.
Proof. intros E. apply unfold_kids in E as (nd & _ & Hr & _). exact Hr. Qed.

(** ** A node is not among its own descendants *)

Lemma descendants_unfold fuel h :
  forall n t a,
    unfold (S fuel) h n = Some t -> In a (descendants t) ->
    exists t', unfold fuel h a = Some t'.
Proof.
  induction fuel as [|f IH]; intros n t a E Hin.
  - apply unfold_S in E as (nd & ts & _ & -> & Hks).
    unfold descendants in Hin. cbn [kids_of] in Hin.
    apply in_flat_map in Hin as (k & Hk & _).
    apply list_elem_of_In, list_elem_of_lookup in Hk as (i & Hi).
    destruct (Forall2_lookup_r _ _ _ _ _ Hks Hi) as (c & _ & Hc).
    discriminate Hc.
  - apply unfold_S in E as (nd & ts & _ & -> & Hks).
    unfold descendants in Hin. cbn [kids_of] in Hin.
    apply in_flat_map in Hin as (k & Hk & Hak).
    apply list_elem_of_In, list_elem_of_lookup in Hk as (i & Hi).
    destruct (Forall2_lookup_r _ _ _ _ _ Hks Hi) as (c & _ & Hc).
    pose proof (unfold_root _ _ _ _ Hc) as Hr.
    destruct k as [c' ks]. cbn in Hr. subst c'.
    cbn [preorder] in Hak. destruct Hak as [<-|Hak].
    + exists (T c ks). exact Hc.
    + destruct (IH c (T c ks) a Hc Hak) as (t' & Ht').
      exists t'. apply unfold_mono. exact Ht'.
Qed.

Lemma not_own_descendant fuel h :
  forall n t, unfold fuel h n = Some t -> ~ In n (descendants t).
Proof.
  induction fuel as [|f IH]; intros n t E Hin; [discriminate|].
  destruct (descendants_unfold f h n t n E Hin) as (t' & Ht').
  pose proof (unfold_mono _ _ _ _ Ht') as Ht''.
  rewrite E in Ht''. injection Ht'' as ->.
  exact (IH n t' Ht' Hin).
Qed.

(** ** [VisitAll] calls the visitor on the descendants in pre-order *)

Section Visit.
Context {U : Type} (fn : addr -> U -> M U).
Hypothesis fn_keeps : keeps_shape fn.

Lemma visits_keep_shape l :
  forall u s u' s',
    foldM (visit fn) l u s = Ok u' s' ->
    map Nodes (heap s') = map Nodes (heap s).
Proof.
  induction l as [|a l IH]; intros u s u' s' E; cbn [foldM] in E.
  - inversion E. reflexivity.
  - unfold bind in E. destruct (visit fn u a s) as [u1 s1| |] eqn:E1;
      try discriminate.
    apply fn_keeps in E1. rewrite <- E1. exact (IH _ _ _ _ E).
Qed.

Lemma visit_range_preorder fuel :
  (forall node t u s,
      unfold fuel (heap s) node = Some t ->
      VisitAll fuel node fn u s = foldM (visit fn) (descendants t) u s) ->
  forall rest ts u s,
    Forall2 (fun c k => unfold fuel (heap s) c = Some k) rest ts ->
    visit_range (fun node => VisitAll fuel node fn) fn rest u s
    = foldM (visit fn) (flat_map preorder ts) u s.
Proof.
  intros IHfuel. induction rest as [|node rest IH]; intros ts u s HF.
  - inversion HF; subst. reflexivity.
  - inversion HF as [|? k ? ts' Hk HF']; subst.
    cbn [visit_range flat_map]. rewrite foldM_app.
    pose proof (unfold_root _ _ _ _ Hk) as Hr.
    destruct k as [c ks]. cbn in Hr. subst c.
    cbn [preorder foldM]. rewrite bind_assoc.
    change (visit fn u node) with (fn node u).
    bind_case (fn node u) s Efn; [|reflexivity..].
    pose proof (fn_keeps _ _ _ _ _ Efn) as Hsh.
    pose proof (unfold_same_shape _ _ _ Hsh _ _ Hk) as Hk1.
    pose proof Hk1 as Hk2.
    apply unfold_kids in Hk2 as (c & Hc & _ & Hks). cbn [kids_of] in Hks.
    rewrite (bind_load _ _ _ _ Hc).
    assert (Hsub : (if (0 <? length (Nodes c))%nat
                    then VisitAll fuel node fn a else ret a) s0
                   = foldM (visit fn) (flat_map preorder ks) a s0).
    { destruct (Nodes c) as [|x xs] eqn:En.
      - inversion Hks; subst. reflexivity.
      - change (0 <? length (x :: xs))%nat with true. cbv iota.
        rewrite (IHfuel node (T node ks) a s0 Hk1). reflexivity. }
    rewrite (bind_congr _ _ _ _ Hsub).
    bind_case (foldM (visit fn) (flat_map preorder ks) a) s0 Esub;
      [|reflexivity..].
    apply visits_keep_shape in Esub.
    apply IH. eapply Forall2_impl; [exact HF'|].
    intros x y Hxy. apply (unfold_same_shape _ (heap s)); [|exact Hxy].
    rewrite Esub. exact Hsh.
Qed.

Lemma VisitAll_preorder fuel :
  forall n t u s,
    unfold fuel (heap s) n = Some t ->
    VisitAll fuel n fn u s = foldM (visit fn) (descendants t) u s.
Proof.
  induction fuel as [|f IH]; intros n t u s E; [discriminate|].
  pose proof E as E'.
  apply unfold_S in E' as (nd & ts & Hnd & -> & Hks).
  cbn [VisitAll]. rewrite (bind_load _ _ _ _ Hnd).
  apply (visit_range_preorder f IH). exact Hks.
Qed.
End Visit.

(** ** The searches *)

Lemma find_app {A : Type} (P : A -> bool) (l1 l2 : list A) :
  find P (l1 ++ l2)
  = match find P l1 with Some x => Some x | None => find P l2 end.
Proof.
  induction l1 as [|x l1 IH]; simpl; [reflexivity|].
  destruct (P x); [reflexivity|exact IH].
Qed.

Lemma first_hit_find (P : addr -> bool) (ts : list tree) :
  first_hit P (fun k => find P (descendants k)) ts
  = find P (flat_map preorder ts).
Proof.
  induction ts as [|[a ks] ts IH]; [reflexivity|].
  cbn [first_hit flat_map preorder root_of app find].
  destruct (P a); [reflexivity|].
  rewrite find_app. unfold descendants at 1. cbn [kids_of].
  destruct (find P (flat_map preorder ks)); [reflexivity|exact IH].
Qed.

Lemma first_hit_In (P : addr -> bool) (sub : tree -> option addr) ts r :
  (forall k a, In k ts -> sub k = Some a -> In a (descendants k)) ->
  first_hit P sub ts = Some r -> In r (flat_map preorder ts).
Proof.
  induction ts as [|[a ks] ts IH]; intros Hsub E; [discriminate|].
  cbn [first_hit root_of] in E. cbn [flat_map preorder].
  destruct (P a).
  - injection E as <-. left. reflexivity.
  - right. apply in_or_app. destruct (sub (T a ks)) as [x|] eqn:Es.
    + injection E as <-. left. apply (Hsub (T a ks)); [left; reflexivity|].
      exact Es.
    + right. apply IH; [|exact E]. intros k b Hk. apply Hsub. right. exact Hk.
Qed.

Lemma find_range_first (check : Node -> bool) (rec : addr -> M (option addr))
    (chk : addr -> bool) (sub : tree -> option addr) fuel s :
  (forall c k, unfold fuel (heap s) c = Some k -> rec c s = Ok (sub k) s) ->
  (forall (c : addr) nd, heap s !! c = Some nd -> check nd = chk c) ->
  forall rest ts,
    Forall2 (fun c k => unfold fuel (heap s) c = Some k) rest ts ->
    find_range check rec rest s = Ok (first_hit chk sub ts) s.
Proof.
  intros Hrec Hchk. induction rest as [|node rest IH]; intros ts HF.
  - inversion HF; subst. reflexivity.
  - inversion HF as [|? k ? ts' Hk HF']; subst.
    cbn [find_range first_hit].
    pose proof (unfold_root _ _ _ _ Hk) as Hr. rewrite Hr.
    pose proof Hk as Hk'. apply unfold_kids in Hk' as (c & Hc & _).
    rewrite (bind_load _ _ _ _ Hc), (Hchk node c Hc).
    destruct (chk node); [reflexivity|].
    rewrite (bind_Ok _ _ _ _ _ (Hrec node k Hk)).
    destruct (sub k); [reflexivity|]. apply IH. exact HF'.
Qed.

Lemma Meta_at_eq (h : list Node) (c : addr) nd meta :
  h !! c = Some nd -> DeepEqual (Meta nd) meta = DeepEqual (Meta_at h c) meta.
Proof. intros E. unfold Meta_at. rewrite E. reflexivity. Qed.

Lemma Value_at_eq (h : list Node) (c : addr) nd value :
  h !! c = Some nd ->
  DeepEqual (Value nd) value = DeepEqual (Value_at h c) value.
Proof. intros E. unfold Value_at. rewrite E. reflexivity. Qed.

(** [FindByMeta] returns the first match in pre-order among the
    descendants. *)
Lemma FindByMeta_first fuel :
  forall n t meta s,
    unfold fuel (heap s) n = Some t ->
    FindByMeta fuel n meta s = Ok (first_by_meta (heap s) meta t) s.
Proof.
  induction fuel as [|f IH]; intros n t meta s E; [discriminate|].
  apply unfold_S in E as (nd & ts & Hnd & -> & Hks).
  cbn [FindByMeta]. rewrite (bind_load _ _ _ _ Hnd).
  unfold first_by_meta, descendants. cbn [kids_of].
  rewrite <- first_hit_find.
  apply (find_range_first _ _ _ _ f s);
    [|intros; apply Meta_at_eq; assumption|exact Hks].
  intros c k Hk. apply IH. exact Hk.
Qed.

(** [FindByValue] compares values on the children and metas below. *)
Lemma FindByValue_found fuel n t value s :
  unfold fuel (heap s) n = Some t ->
  FindByValue fuel n value s = Ok (found_by_value (heap s) value t) s.
Proof.
  intros E. apply unfold_kids in E as (nd & Hnd & _ & Hks).
  unfold FindByValue. rewrite (bind_load _ _ _ _ Hnd).
  unfold found_by_value.
  apply (find_range_first _ _ _ _ fuel s);
    [|intros; apply Value_at_eq; assumption|exact Hks].
  intros c k Hk. apply FindByMeta_first. exact Hk.
Qed.

(** ** Detaching *)

Lemma with_heap_same s : with_heap s (heap s) = s.
Proof. destruct s. reflexivity. Qed.

(** ** The padding of continuation lines *)

Lemma Join_empty_cons (l : list string) :
  strings_Join (EmptyString :: l) EmptyString = strings_Join l EmptyString.
Proof. destruct l; reflexivity. Qed.

Lemma Join_replicate_empty (j : nat) (l : list string) :
  strings_Join (replicate j EmptyString ++ l) EmptyString
  = strings_Join l EmptyString.
Proof.
  induction j as [|j IH]; [reflexivity|].
  cbn [replicate app]. rewrite Join_empty_cons. exact IH.
Qed.

Lemma isLast_value (a p : addr) nd pd s :
  heap s !! a = Some nd -> Root nd = Some p -> heap s !! p = Some pd ->
  isLast a s = Ok (bool_decide (last (Nodes pd) = Some a)) s.
Proof.
  intros Ha HR Hp. unfold isLast. rewrite (bind_load _ _ _ _ Ha), HR.
  unfold FindLastNode. rewrite bind_assoc, (bind_load _ _ _ _ Hp).
  reflexivity.
Qed.

Lemma segment_value (b : bool) s :
  (0 <= IndentSize s)%Z ->
  (if b then strings_Repeat (IndentSize s + 1)
   else let! link := gets EdgeTypeLink in
        let! sp := strings_Repeat (IndentSize s) in
        ret (link +:+ sp)) s
  = Ok (segment s b) s.
Proof.
  intros Hind. destruct b; unfold segment, blank, link, strings_Repeat.
  - destruct (IndentSize s + 1 <? 0)%Z eqn:E; [lia|reflexivity].
  - rewrite bind_gets. destruct (IndentSize s <? 0)%Z eqn:E; [lia|].
    reflexivity.
Qed.

Lemma padding_walk_step rounds level (a p : addr) nd pd links s :
  (0 <= IndentSize s)%Z ->
  heap s !! a = Some nd -> Root nd = Some p -> heap s !! p = Some pd ->
  padding_walk (S rounds) level a links s
  = (if ((0 <=? level) && (level <? Z.of_nat (length links)))%Z
     then padding_walk rounds (level - 1) p
            (<[Z.to_nat level :=
                 segment s (bool_decide (last (Nodes pd) = Some a))]> links)
     else panic) s.
Proof.
  intros Hind Ha HR Hp. cbn [padding_walk].
  rewrite (bind_load _ _ _ _ Ha), HR.
  rewrite (bind_Ok _ _ _ _ _ (isLast_value a p nd pd s Ha HR Hp)).
  rewrite bind_gets.
  rewrite (bind_Ok _ _ _ _ _ (segment_value _ s Hind)). reflexivity.
Qed.

Lemma padding_walk_value s :
  (0 <= IndentSize s)%Z ->
  forall a fl, upward (heap s) a fl ->
  forall rounds (k : nat) links,
    (length fl <= k)%nat -> (k <= length links)%nat -> (k < rounds)%nat ->
    padding_walk rounds (Z.of_nat k - 1) a links s
    = Ok (strings_Join (take (k - length fl) links ++ map (segment s) fl
                        ++ drop k links) EmptyString) s.
Proof.
  intros Hind a fl Hup.
  induction Hup as [a nd Ha HR|a nd p pd fl Ha HR Hp Hup IH];
    intros rounds k links Hk Hlinks Hrounds;
    (destruct rounds as [|r]; [lia|]).
  - cbn [padding_walk]. rewrite (bind_load _ _ _ _ Ha), HR.
    cbn [length map app]. rewrite Nat.sub_0_r, take_drop. reflexivity.
  - rewrite length_app in Hk. cbn [length] in Hk.
    rewrite (padding_walk_step r _ a p nd pd links s Hind Ha HR Hp).
    destruct ((0 <=? Z.of_nat k - 1) && (Z.of_nat k - 1 <? Z.of_nat (length links)))%Z
      eqn:Erange; [|apply andb_false_iff in Erange as [E|E];
                     [apply Z.leb_gt in E|apply Z.ltb_ge in E]; lia].
    replace (Z.of_nat k - 1 - 1)%Z with (Z.of_nat (k - 1) - 1)%Z by lia.
    replace (Z.to_nat (Z.of_nat k - 1)) with (k - 1)%nat by lia.
    rewrite IH by (rewrite ?length_insert; lia).
    f_equal. f_equal.
    rewrite take_insert_ge by lia.
    rewrite drop_insert_ge by lia. rewrite Nat.sub_diag.
    rewrite length_app. cbn [length].
    replace (k - (length fl + 1))%nat with (k - 1 - length fl)%nat by lia.
    f_equal. rewrite map_app, <- app_assoc. f_equal. cbn [map app].
    assert (Hd : exists x, drop (k - 1) links = x :: drop k links).
    { destruct (lookup_lt_is_Some_2 links (k - 1)) as [x Hx]; [lia|].
      exists x. rewrite (drop_S _ _ _ Hx). do 2 f_equal. lia. }
    destruct Hd as [x ->]. reflexivity.
Qed.

Lemma padding_walk_short s :
  (0 <= IndentSize s)%Z ->
  forall a fl, upward (heap s) a fl ->
  forall rounds (k : nat) links,
    (k < length fl)%nat -> (k < rounds)%nat ->
    padding_walk rounds (Z.of_nat k - 1) a links s = Panic.
Proof.
  intros Hind a fl Hup.
  induction Hup as [a nd Ha HR|a nd p pd fl Ha HR Hp Hup IH];
    intros rounds k links Hk Hrounds; [cbn in Hk; lia|].
  destruct rounds as [|r]; [lia|].
  rewrite length_app in Hk. cbn [length] in Hk.
  rewrite (padding_walk_step r _ a p nd pd links s Hind Ha HR Hp).
  destruct ((0 <=? Z.of_nat k - 1) && (Z.of_nat k - 1 <? Z.of_nat (length links)))%Z
    eqn:Erange; [|reflexivity].
  apply andb_true_iff in Erange as [E1 E2]. apply Z.leb_le in E1.
  replace (Z.of_nat k - 1 - 1)%Z with (Z.of_nat (k - 1) - 1)%Z by lia.
  apply IH; lia.
Qed.

(** [padding] returns the padding of the upward walk when the walk has at
    most [level + 1] steps, and panics on a longer walk. *)
Lemma padding_value level a fl s :
  (0 <= IndentSize s)%Z -> (0 <= level + 1)%Z ->
  upward (heap s) a fl ->
  padding level a s
  = if (Z.of_nat (length fl) <=? level + 1)%Z
    then Ok (walk_padding s fl) s else Panic.
Proof.
  intros Hind Hlevel Hup. unfold padding.
  destruct (level + 1 <? 0)%Z eqn:E; [apply Z.ltb_lt in E; lia|].
  set (k := Z.to_nat (level + 1)).
  replace level with (Z.of_nat k - 1)%Z at 2 by lia.
  destruct (Z.of_nat (length fl) <=? level + 1)%Z eqn:Efit.
  - apply Z.leb_le in Efit.
    rewrite (padding_walk_value s Hind a fl Hup);
      [|lia|rewrite length_replicate; lia|lia].
    rewrite take_replicate, drop_replicate, Nat.sub_diag.
    cbn [replicate]. rewrite app_nil_r. unfold walk_padding.
    rewrite Join_replicate_empty. reflexivity.
  - apply Z.leb_gt in Efit.
    apply (padding_walk_short s Hind a fl Hup); lia.
Qed.

Lemma padding_no_timeout rounds :
  forall level a links s,
    (Z.to_nat (level + 1) < rounds)%nat ->
    padding_walk rounds level a links s <> Timeout.
Proof.
  induction rounds as [|r IH]; intros level a links s Hr; [lia|].
  cbn [padding_walk]. unfold bind at 1.
  destruct (load a s) as [nd s1| |] eqn:El;
    [|discriminate|unfold load in El; destruct (heap s !! a); discriminate].
  apply readonly_load in El. subst s1.
  destruct (Root nd) as [p|]; [|discriminate].
  unfold bind at 1. destruct (isLast a s) as [b s1| |] eqn:Ei;
    try discriminate.
  - apply readonly_isLast in Ei. subst s1. rewrite bind_gets.
    unfold bind at 1.
    destruct ((if b then strings_Repeat (IndentSize s + 1)
               else let! link := gets EdgeTypeLink in
                    let! sp := strings_Repeat (IndentSize s) in
                    ret (link +:+ sp)) s) as [seg s1| |] eqn:Es;
      try discriminate.
    + assert (s1 = s) as ->.
      { destruct b; revert Es; [apply readonly_Repeat|].
        apply readonly_bind; [apply readonly_gets|]. intros l.
        apply readonly_bind; [apply readonly_Repeat|]. intros sp.
        apply readonly_ret. }
      destruct ((0 <=? level) && (level <? Z.of_nat (length links)))%Z
        eqn:Erange; [|discriminate].
      apply andb_true_iff in Erange as [E1 _]. apply Z.leb_le in E1.
      apply IH. lia.
    + exfalso. destruct b; unfold strings_Repeat, bind, gets in Es.
      * destruct (IndentSize s + 1 <? 0)%Z; discriminate.
      * destruct (IndentSize s <? 0)%Z; discriminate.
  - exfalso. unfold isLast, bind, FindLastNode, load in Ei.
    destruct (heap s !! a) as [x|]; [|discriminate].
    destruct (Root x) as [q|]; [|discriminate].
    unfold bind, load in Ei. destruct (heap s !! q); discriminate.
Qed.

(** ** Rendering one line never runs out of fuel *)

Lemma terminates_ret {A} (a : A) : terminates (ret a).
Proof. intros s. discriminate. Qed.

Lemma terminates_panic {A} : terminates (@panic A).
Proof. intros s. discriminate. Qed.

Lemma terminates_gets {A} (f : state -> A) : terminates (gets f).
Proof. intros s. discriminate. Qed.

Lemma terminates_load p : terminates (load p).
Proof. intros s. unfold load. destruct (heap s !! p); discriminate. Qed.

Lemma terminates_bind {A B} (m : M A) (k : A -> M B) :
  terminates m -> (forall a, terminates (k a)) -> terminates (bind m k).
Proof.
  intros Hm Hk s. unfold bind.
  destruct (m s) as [a s'| |] eqn:E; [apply Hk|discriminate|].
  exfalso. exact (Hm s E).
Qed.

Create HintDb term.

Ltac term_step :=
  lazymatch goal with
  | |- terminates (ret _) => apply terminates_ret
  | |- terminates panic => apply terminates_panic
  | |- terminates (gets _) => apply terminates_gets
  | |- terminates (load _) => apply terminates_load
  | |- terminates (bind _ _) => apply terminates_bind; [ | intros ? ]
  | |- terminates (match ?x with _ => _ end) => destruct x
  | |- terminates (let _ := _ in _) => cbv zeta
  | |- terminates _ => solve [ auto with term ]
  end.

Ltac term := repeat term_step.

Lemma terminates_Repeat count : terminates (strings_Repeat count).
Proof. unfold strings_Repeat. term. Qed.
#[local] Hint Resolve terminates_Repeat : term.

Lemma terminates_padding level a : terminates (padding level a).
Proof.
  intros s. unfold padding. destruct (level + 1 <? 0)%Z; [discriminate|].
  apply padding_no_timeout. lia.
Qed.
#[local] Hint Resolve terminates_padding : term.

Lemma terminates_renderValue level a : terminates (renderValue level a).
Proof. unfold renderValue. term. Qed.
#[local] Hint Resolve terminates_renderValue : term.

Lemma terminates_foldM {A B} (f : B -> A -> M B) (l : list A) :
  (forall b a, terminates (f b a)) -> forall b, terminates (foldM f l b).
Proof.
  intros Hf. induction l as [|a l IH]; intros b; cbn [foldM]; term.
Qed.

Section LineTerminates.
Context {W : Type} `{IOWriter W}.

Lemma terminates_printValues (wr : W) level levelsEnded edge node :
  terminates (printValues wr level levelsEnded edge node).
Proof.
  unfold printValues. term. apply terminates_foldM. intros b a. term.
Qed.
#[local] Hint Resolve terminates_printValues : term.

Lemma terminates_emit (wr : W) c : terminates (emit wr c).
Proof. unfold emit. term. Qed.

Lemma terminates_own_line n nd (w : W) : terminates (own_line n nd w).
Proof. unfold own_line. term. Qed.

(** With fuel for the depth of the tree, a render ends: it returns or
    panics. *)
Lemma terminates_Writer fuel n nd t (w : W) s :
  heap s !! n = Some nd ->
  unfold fuel (heap s) n = Some t ->
  Writer fuel n w s <> Timeout.
Proof.
  intros Hn Ht. rewrite (Writer_lines fuel n nd t w s Hn Ht).
  apply terminates_bind; [apply terminates_own_line|].
  intros w'. apply terminates_foldM. apply terminates_emit.
Qed.
End LineTerminates.

(** ** Values of several lines *)

Lemma renderValue_single level (a : addr) nd line s :
  heap s !! a = Some nd ->
  strings_Split (Sprint (Value nd)) = [line] ->
  renderValue level a s = Ok (Value nd) s.
Proof.
  intros Ha Hs. unfold renderValue. rewrite (bind_load _ _ _ _ Ha), Hs.
  reflexivity.
Qed.

(** Every line after the first gets the padding of the upward walk in
    front, provided the walk fits the level; otherwise the render
    panics. *)
Lemma renderValue_lines level (a : addr) nd first second rest fl s :
  (0 <= IndentSize s)%Z -> (0 <= level + 1)%Z ->
  heap s !! a = Some nd ->
  strings_Split (Sprint (Value nd)) = first :: second :: rest ->
  upward (heap s) a fl ->
  renderValue level a s
  = if (Z.of_nat (length fl) <=? level + 1)%Z
    then Ok (AString
               (strings_Join
                  (first :: map (fun l => walk_padding s fl +:+ l)
                              (second :: rest)) nl)) s
    else Panic.
Proof.
  intros Hind Hlevel Ha Hs Hup. unfold renderValue.
  rewrite (bind_load _ _ _ _ Ha), Hs.
  unfold bind. rewrite (padding_value level a fl s Hind Hlevel Hup).
  destruct (Z.of_nat (length fl) <=? level + 1)%Z; reflexivity.
Qed.

(** ** The sink does not influence the render *)

Lemma agree_bind {A A' B B' : Type} (R : A -> A' -> Prop)
    (Q : B -> B' -> Prop) (m : M A) (m' : M A') (k : A -> M B)
    (k' : A' -> M B') s :
  agree R (m s) (m' s) ->
  (forall a a' s', R a a' -> agree Q (k a s') (k' a' s')) ->
  agree Q (bind m k s) (bind m' k' s).
Proof.
  intros Hm Hk. unfold bind.
  destruct (m s) as [a s1| |], (m' s) as [a' s1'| |]; cbn in Hm;
    try contradiction; try exact I.
  destruct Hm as [Hr <-]. apply Hk. exact Hr.
Qed.

Lemma agree_same {A : Type} (x : result A) : agree eq x x.
Proof. destruct x; cbn; auto. Qed.

Lemma agree_bind_same {A B B' : Type} (Q : B -> B' -> Prop) (m : M A)
    (k : A -> M B) (k' : A -> M B') s :
  (forall a s', agree Q (k a s') (k' a s')) ->
  agree Q (bind m k s) (bind m k' s).
Proof.
  intros Hk. apply (agree_bind eq); [apply agree_same|].
  intros a a' s' <-. apply Hk.
Qed.

Lemma agree_foldM {A B B' : Type} (R : B -> B' -> Prop)
    (f : B -> A -> M B) (f' : B' -> A -> M B') (l : list A) :
  (forall b b' a s, R b b' -> agree R (f b a s) (f' b' a s)) ->
  forall b b' s, R b b' -> agree R (foldM f l b s) (foldM f' l b' s).
Proof.
  intros Hf. induction l as [|a l IH]; intros b b' s Hb; cbn [foldM].
  - cbn. auto.
  - apply (agree_bind R); [apply Hf; exact Hb|].
    intros x x' s' Hx. apply IH. exact Hx.
Qed.

Section TwoSinks.
Context {W W' : Type} `{IOWriter W} `{IOWriter W'}.
Variable R : W -> W' -> Prop.
Hypothesis R_Write : forall w w' p, R w w' -> R (Write w p) (Write w' p).

Lemma agree_printValues w w' level levelsEnded edge node s :
  R w w' ->
  agree R (printValues w level levelsEnded edge node s)
    (printValues w' level levelsEnded edge node s).
Proof.
  intros Hw. unfold printValues.
  apply (agree_bind R).
  - apply agree_foldM; [|exact Hw]. intros b b' i s0 Hb.
    apply agree_bind_same. intros indent s1.
    destruct (isEnded levelsEnded i).
    + apply agree_bind_same. intros sp s2. cbn. auto.
    + apply agree_bind_same. intros l s2.
      apply agree_bind_same. intros sp s3. cbn. auto.
  - intros a a' s1 Ha. apply agree_bind_same. intros val s2.
    apply agree_bind_same. intros nd s3.
    destruct (Meta nd); cbn; auto.
Qed.

Lemma agree_print_range rec rec' len level :
  (forall w w' e ns s, R w w' -> agree R (rec w e ns s) (rec' w' e ns s)) ->
  forall rest i levelsEnded w w' s,
    R w w' ->
    agree R (print_range rec len level i rest levelsEnded w s)
      (print_range rec' len level i rest levelsEnded w' s).
Proof.
  intros Hrec. induction rest as [|node rest IH];
    intros i levelsEnded w w' s Hw; cbn [print_range].
  - cbn. auto.
  - apply agree_bind_same. intros mid s1.
    apply agree_bind_same. intros edge s2.
    apply (agree_bind R); [apply agree_printValues; exact Hw|].
    intros a a' s3 Ha. apply agree_bind_same. intros nd s4.
    apply (agree_bind R).
    + destruct (0 <? length (Nodes nd))%nat; [apply Hrec; exact Ha|].
      cbn. auto.
    + intros b b' s5 Hb. apply IH. exact Hb.
Qed.

Lemma agree_printNodes fuel :
  forall w w' level levelsEnded nodes s,
    R w w' ->
    agree R (printNodes fuel w level levelsEnded nodes s)
      (printNodes fuel w' level levelsEnded nodes s).
Proof.
  induction fuel as [|f IH]; intros w w' level levelsEnded nodes s Hw;
    cbn [printNodes]; [exact I|].
  apply agree_print_range; [|exact Hw].
  intros x x' e ns s' Hx. apply IH. exact Hx.
Qed.

Lemma agree_Writer fuel n w w' s :
  R w w' -> agree R (Writer fuel n w s) (Writer fuel n w' s).
Proof.
  intros Hw. unfold Writer. apply agree_bind_same. intros nd s1.
  apply (agree_bind (fun x y => R x.1 y.1 /\ x.2 = y.2)).
  - destruct (Root nd) as [p|].
    + apply agree_bind_same. intros mid s2.
      apply agree_bind_same. intros edge s3.
      apply (agree_bind R); [apply agree_printValues; exact Hw|].
      intros x x' s4 Hx. cbn. auto.
    + destruct (Meta nd); cbn; auto.
  - intros [a e] [a' e'] s2 [Ha He]. cbn in Ha, He. subst e'.
    destruct (0 <? length (Nodes nd))%nat; [|cbn; auto].
    apply agree_printNodes. exact Ha.
Qed.
End TwoSinks.

(** ** The public operations keep the heap tree-shaped *)

Lemma tree_shaped_alloc h nd0 :
  tree_shaped h -> Nodes nd0 = [] -> tree_shaped (h ++ [nd0]).
Proof.
  intros Hts Hn p pd Hp.
  apply lookup_app_Some in Hp as [Hp|[Hge Hp]].
  - eapply Forall_impl; [exact (Hts p pd Hp)|].
    intros c (Hlt & cd & Hc & HR). split; [exact Hlt|].
    exists cd. split; [|exact HR]. apply lookup_app_l_Some. exact Hc.
  - destruct (p - length h)%nat; [|discriminate Hp].
    injection Hp as <-. rewrite Hn. constructor.
Qed.

Lemma tree_shaped_update h (n : addr) nd nd' :
  tree_shaped h -> h !! n = Some nd ->
  Nodes nd' = Nodes nd -> (Root nd' = Root nd \/ Root nd' = None) ->
  tree_shaped (<[n := nd']> h).
Proof.
  intros Hts Hn HN HR p pd Hp.
  assert (Hkids : exists pd0, h !! p = Some pd0 /\ Nodes pd = Nodes pd0).
  { destruct (decide (n = p)) as [-> | Hne].
    - rewrite list_lookup_insert_eq in Hp by (eapply lookup_lt_Some; exact Hn).
      injection Hp as <-. exists nd. split; [exact Hn|exact HN].
    - rewrite list_lookup_insert_ne in Hp by exact Hne.
      exists pd. split; [exact Hp|reflexivity]. }
  destruct Hkids as (pd0 & Hp0 & ->).
  eapply Forall_impl; [exact (Hts p pd0 Hp0)|].
  intros c (Hlt & cd & Hc & HRc). split; [exact Hlt|].
  destruct (decide (n = c)) as [-> | Hne].
  - exists nd'. split.
    + apply list_lookup_insert_eq. eapply lookup_lt_Some; exact Hn.
    + rewrite Hn in Hc. injection Hc as <-.
      destruct HR as [-> | ->]; [exact HRc|left; reflexivity].
  - exists cd. split; [|exact HRc].
    rewrite list_lookup_insert_ne by exact Hne. exact Hc.
Qed.

Lemma tree_shaped_append h (n c : addr) nd cd :
  tree_shaped h -> h !! n = Some nd -> h !! c = Some cd ->
  (n < c)%nat -> Root cd = Some n ->
  tree_shaped (<[n := {| Root := Root nd; Meta := Meta nd; Value := Value nd;
                         Nodes := Nodes nd ++ [c] |}]> h).
Proof.
  intros Hts Hn Hc Hlt HRc p pd Hp.
  set (nd' := {| Root := Root nd; Meta := Meta nd; Value := Value nd;
                 Nodes := Nodes nd ++ [c] |}) in *.
  assert (Hnlt : (n < length h)%nat) by (eapply lookup_lt_Some; exact Hn).
  assert (Hkeep : forall k, owned_by h p k -> owned_by (<[n := nd']> h) p k).
  { intros k (Hpk & kd & Hk & HRk). split; [exact Hpk|].
    destruct (decide (n = k)) as [-> | Hne].
    - exists nd'. split; [apply list_lookup_insert_eq; exact Hnlt|].
      rewrite Hn in Hk. injection Hk as <-. exact HRk.
    - exists kd. split; [|exact HRk].
      rewrite list_lookup_insert_ne by exact Hne. exact Hk. }
  destruct (decide (n = p)) as [-> | Hne].
  - rewrite list_lookup_insert_eq in Hp by exact Hnlt. injection Hp as <-.
    cbn [Nodes nd']. apply Forall_app. split.
    + eapply Forall_impl; [exact (Hts p nd Hn)|]. exact Hkeep.
    + apply Forall_singleton. split; [exact Hlt|].
      exists cd. split; [|right; exact HRc].
      rewrite list_lookup_insert_ne by lia. exact Hc.
  - rewrite list_lookup_insert_ne in Hp by exact Hne.
    eapply Forall_impl; [exact (Hts p pd Hp)|]. exact Hkeep.
Qed.

Lemma tree_shaped_add h (n : addr) nd new :
  tree_shaped h -> h !! n = Some nd ->
  Nodes new = [] -> Root new = Some n ->
  tree_shaped
    (<[n := {| Root := Root nd; Meta := Meta nd; Value := Value nd;
               Nodes := Nodes nd ++ [length h] |}]> (h ++ [new])).
Proof.
  intros Hts Hn HN HR.
  assert (Hnlt : (n < length h)%nat) by (eapply lookup_lt_Some; exact Hn).
  apply (tree_shaped_append (h ++ [new]) n (length h) nd new).
  - apply tree_shaped_alloc; assumption.
  - apply lookup_app_l_Some. exact Hn.
  - rewrite lookup_app_r by lia. rewrite Nat.sub_diag. reflexivity.
  - exact Hnlt.
  - exact HR.
Qed.

(** The state after adding a child to [n]. *)
Lemma add_child_run (n : addr) meta a (k : addr -> addr -> M addr) r s s' :
  (forall x y, exists z, k x y = ret z) ->
  (let! _ := load n in
   let! c := alloc {| Root := Some n; Meta := meta; Value := a;
                      Nodes := [] |} in
   let! _ := append_child n c in
   k n c) s = Ok r s' ->
  exists nd,
    heap s !! n = Some nd /\
    s' = with_heap s
           (<[n := {| Root := Root nd; Meta := Meta nd; Value := Value nd;
                      Nodes := Nodes nd ++ [length (heap s)] |}]>
              (heap s ++ [{| Root := Some n; Meta := meta; Value := a;
                             Nodes := [] |}])).
Proof.
  intros Hk E.
  destruct (heap s !! n) as [nd|] eqn:Hn;
    [|unfold bind, load in E; rewrite Hn in E; discriminate E].
  exists nd. split; [reflexivity|].
  set (new := {| Root := Some n; Meta := meta; Value := a; Nodes := [] |}) in *.
  set (s1 := with_heap s (heap s ++ [new])).
  assert (Hn1 : heap s1 !! n = Some nd)
    by (apply lookup_app_l_Some; exact Hn).
  destruct (Hk n (length (heap s))) as [z Hz].
  rewrite (bind_load _ _ _ _ Hn) in E.
  rewrite (bind_Ok _ _ s (length (heap s)) s1 eq_refl) in E.
  unfold append_child in E.
  rewrite bind_assoc, (bind_load _ _ _ _ Hn1) in E.
  unfold bind, store in E. rewrite Hn1, Hz in E.
  injection E as _ <-. reflexivity.
Qed.

Lemma update_run (n : addr) (f : Node -> Node) r s s' :
  (let! nd := load n in store n (f nd)) s = Ok r s' ->
  exists nd, heap s !! n = Some nd /\
             s' = with_heap s (<[n := f nd]> (heap s)).
Proof.
  intros E. unfold bind, load, store in E.
  destruct (heap s !! n) as [nd|] eqn:Hn; [|discriminate E].
  rewrite Hn in E. injection E as _ <-. exists nd. split; reflexivity.
Qed.

Lemma built_tree_shaped s : built s -> tree_shaped (heap s).
Proof.
  induction 1 as [ |s indent l m e _ IH|s r s' _ IH E|s v r s' _ IH E
                 |s n v r s' _ IH E|s n m v r s' _ IH E
                 |s n v r s' _ IH E|s n m v r s' _ IH E
                 |s n r s' _ IH E|s n v r s' _ IH E|s n m r s' _ IH E].
  - intros p pd Hp. discriminate Hp.
  - exact IH.
  - unfold New, alloc in E. injection E as _ <-.
    apply tree_shaped_alloc; [exact IH|reflexivity].
  - unfold NewWithRoot, alloc in E. injection E as _ <-.
    apply tree_shaped_alloc; [exact IH|reflexivity].
  - apply (add_child_run n ANil v (fun x _ => ret x)) in E
      as (nd & Hn & ->); [|intros x y; exists x; reflexivity].
    apply tree_shaped_add; [exact IH|exact Hn|reflexivity..].
  - apply (add_child_run n m v (fun x _ => ret x)) in E
      as (nd & Hn & ->); [|intros x y; exists x; reflexivity].
    apply tree_shaped_add; [exact IH|exact Hn|reflexivity..].
  - apply (add_child_run n ANil v (fun _ y => ret y)) in E
      as (nd & Hn & ->); [|intros x y; exists y; reflexivity].
    apply tree_shaped_add; [exact IH|exact Hn|reflexivity..].
  - apply (add_child_run n m v (fun _ y => ret y)) in E
      as (nd & Hn & ->); [|intros x y; exists y; reflexivity].
    apply tree_shaped_add; [exact IH|exact Hn|reflexivity..].
  - unfold Branch in E. rewrite <- bind_assoc in E.
    unfold bind at 1 in E.
    destruct ((let! nd := load n in
               store n {| Root := None; Meta := Meta nd; Value := Value nd;
                          Nodes := Nodes nd |}) s) as [u s1| |] eqn:E1;
      try discriminate E.
    injection E as _ <-.
    apply (update_run n (fun nd => {| Root := None; Meta := Meta nd;
                                      Value := Value nd;
                                      Nodes := Nodes nd |})) in E1
      as (nd & Hn & ->).
    apply (tree_shaped_update _ n nd); [exact IH|exact Hn|reflexivity|].
    right. reflexivity.
  - apply (update_run n (fun nd => {| Root := Root nd; Meta := Meta nd;
                                      Value := v; Nodes := Nodes nd |})) in E
      as (nd & Hn & ->).
    apply (tree_shaped_update _ n nd); [exact IH|exact Hn|reflexivity|].
    left. reflexivity.
  - apply (update_run n (fun nd => {| Root := Root nd; Meta := m;
                                      Value := Value nd;
                                      Nodes := Nodes nd |})) in E
      as (nd & Hn & ->).
    apply (tree_shaped_update _ n nd); [exact IH|exact Hn|reflexivity|].
    left. reflexivity.
Qed.

(** ** Fuel for the whole heap is enough *)

Lemma unfold_total h :
  tree_shaped h ->
  forall fuel (a : addr),
    (a < length h)%nat -> (length h - a <= fuel)%nat ->
    exists t, unfold fuel h a = Some t.
Proof.
  intros Hts. induction fuel as [|f IH]; intros a Ha Hf; [lia|].
  assert (Hex : exists nd, h !! a = Some nd)
    by (apply lookup_lt_is_Some_2; exact Ha).
  destruct Hex as [nd Hnd]. rewrite unfold_eq, Hnd.
  assert (Hk : is_Some (mapM (unfold f h) (Nodes nd))).
  { apply mapM_is_Some_2. eapply Forall_impl; [exact (Hts a nd Hnd)|].
    intros c (Hlt & cd & Hc & _). cbn.
    apply lookup_lt_Some in Hc.
    destruct (IH c Hc) as [t Ht]; [lia|]. rewrite Ht. eauto. }
  destruct Hk as [ts ->]. eauto.
Qed.

(** ** Below a parentless start every upward walk fits its level *)

Lemma fits_child h (p c : addr) level :
  (0 <= level)%Z -> fits h p (level - 1) -> is_Some (h !! p) ->
  owned_by h p c -> fits h c level.
Proof.
  intros Hlevel (fl & Hup & Hlen) [pd Hp] (_ & cd & Hc & [HR|HR]).
  - exists []. split; [exact (upward_top h c cd Hc HR)|cbn; lia].
  - exists (fl ++ [bool_decide (last (Nodes pd) = Some c)]). split.
    + exact (upward_step h c cd p pd fl Hc HR Hp Hup).
    + rewrite length_app. cbn. lia.
Qed.

Lemma sib_calls_fit h fuel :
  tree_shaped h ->
  forall (p : addr) pd level ended anc,
    h !! p = Some pd -> (0 <= level)%Z -> fits h p (level - 1) ->
    forall rest ts i,
      Forall (owned_by h p) rest ->
      Forall2 (fun c k => unfold fuel h c = Some k) rest ts ->
      Forall (fun c => (0 <= c_level c)%Z /\ fits h (c_node c) (c_level c))
        (sib_calls p level ended anc i ts).
Proof.
  intros Hts. induction fuel as [|f IH];
    intros p pd level ended anc Hp Hlevel Hfit rest ts i Hown HF.
  - destruct HF; [constructor|discriminate].
  - revert ts i HF. induction rest as [|node rest IHrest]; intros ts i HF.
    + inversion HF; subst. constructor.
    + inversion HF as [|? t ? ts' Hnode HF']; subst.
      apply Forall_cons in Hown as [Hnode_own Hown].
      apply unfold_S in Hnode as (nd & ks & Hnd & -> & Hks).
      cbn [sib_calls]. rewrite node_calls_eq.
      assert (Hfn : fits h node level).
      { apply (fits_child h p node level Hlevel Hfit); [eauto|exact Hnode_own]. }
      apply Forall_cons. split; [|apply Forall_app; split].
      * cbn. split; [exact Hlevel|exact Hfn].
      * assert (Hfn' : fits h node (level + 1 - 1)).
        { replace (level + 1 - 1)%Z with level by lia. exact Hfn. }
        exact (IH node nd (level + 1)%Z _ _ Hnd ltac:(lia) Hfn' (Nodes nd)
                 ks O (Hts node nd Hnd) Hks).
      * apply IHrest; [exact Hown|exact HF'].
Qed.

Lemma Split_cases (x : string) :
  (exists l, strings_Split x = [l]) \/
  (exists l1 l2 ls, strings_Split x = l1 :: l2 :: ls).
Proof.
  assert (Hne : forall y, strings_Split y <> []).
  { intros y. induction y as [|c y IH]; cbn; [discriminate|].
    destruct (Ascii.eqb c newline); [discriminate|].
    destruct (strings_Split y); discriminate. }
  destruct (strings_Split x) as [|l1 [|l2 ls]] eqn:E.
  - exfalso. exact (Hne x E).
  - left. eauto.
  - right. eauto.
Qed.

Lemma renderValue_fits level (a : addr) s :
  (0 <= IndentSize s)%Z -> (0 <= level)%Z ->
  fits (heap s) a level ->
  exists v, renderValue level a s = Ok v s.
Proof.
  intros Hind Hlevel (fl & Hup & Hlen).
  assert (Ha : exists nd, heap s !! a = Some nd).
  { inversion Hup; eauto. }
  destruct Ha as [nd Ha].
  destruct (Split_cases (Sprint (Value nd))) as [[l Hs]|(l1 & l2 & ls & Hs)].
  - exists (Value nd). exact (renderValue_single level a nd l s Ha Hs).
  - eexists.
    rewrite (renderValue_lines level a nd l1 l2 ls fl s Hind
               ltac:(lia) Ha Hs Hup).
    destruct (Z.of_nat (length fl) <=? level + 1)%Z eqn:E;
      [reflexivity|apply Z.leb_gt in E; lia].
Qed.

Section RenderReturns.
Context {W : Type} `{IOWriter W}.

Lemma emit_fits (w : W) c s :
  (0 <= IndentSize s)%Z -> (0 <= c_level c)%Z ->
  fits (heap s) (c_node c) (c_level c) ->
  exists w', emit w c s = Ok w' s.
Proof.
  intros Hind Hlevel Hfit. unfold emit. rewrite bind_gets.
  rewrite printValues_line by exact Hind.
  destruct (renderValue_fits _ _ s Hind Hlevel Hfit) as [v Hv].
  rewrite (bind_Ok _ _ _ _ _ Hv).
  destruct Hfit as (fl & Hup & _).
  assert (Ha : exists nd, heap s !! c_node c = Some nd)
    by (inversion Hup; eauto).
  destruct Ha as [nd Ha]. rewrite (bind_load _ _ _ _ Ha). eexists.
  reflexivity.
Qed.

Lemma foldM_emit_fits s cs :
  (0 <= IndentSize s)%Z ->
  Forall (fun c => (0 <= c_level c)%Z /\
                   fits (heap s) (c_node c) (c_level c)) cs ->
  forall w : W, exists w', foldM emit cs w s = Ok w' s.
Proof.
  intros Hind. induction 1 as [|c cs [Hl Hf] _ IH]; intros w.
  - exists w. reflexivity.
  - destruct (emit_fits w c s Hind Hl Hf) as [w1 E1].
    cbn [foldM]. rewrite (bind_Ok _ _ _ _ _ E1). apply IH.
Qed.

(** A render started at a node without parent returns. *)
Lemma Writer_returns fuel (n : addr) nd t (w : W) s :
  tree_shaped (heap s) -> (0 <= IndentSize s)%Z ->
  heap s !! n = Some nd -> Root nd = None ->
  unfold fuel (heap s) n = Some t ->
  exists w', Writer fuel n w s = Ok w' s.
Proof.
  intros Hts Hind Hn HR Ht.
  rewrite (Writer_lines fuel n nd t w s Hn Ht).
  unfold own_line. rewrite HR, bind_ret.
  apply foldM_emit_fits; [exact Hind|].
  apply unfold_kids in Ht as (nd' & Hn' & _ & Hks).
  rewrite Hn in Hn'. injection Hn' as <-.
  unfold Writer_calls.
  assert (Hfit : fits (heap s) n (0 - 1)).
  { exists []. split; [exact (upward_top _ n nd Hn HR)|cbn; lia]. }
  exact (sib_calls_fit (heap s) fuel Hts n nd 0%Z [] [] Hn ltac:(lia) Hfit
           (Nodes nd) (kids_of t) O (Hts n nd Hn) Hks).
Qed.
End RenderReturns.

(** ** Appending to a slice does not disturb the slices it came from *)

Lemma frame_refl m sl : frame m m sl.
Proof. split; [lia|]. intros a Ha. auto. Qed.

Lemma frame_trans m1 m2 m3 sl :
  frame m1 m2 sl -> frame m2 m3 sl -> frame m1 m3 sl.
Proof.
  intros [Hl1 H1] [Hl2 H2]. split; [lia|]. intros a Ha.
  destruct (H1 a Ha) as (L1 & N1 & E1).
  destruct (H2 a ltac:(lia)) as (L2 & N2 & E2).
  split; [congruence|]. split.
  - intros Hne. rewrite (N2 Hne). exact (N1 Hne).
  - intros He. rewrite (E2 He). exact (E1 He).
Qed.

Lemma frame_ok m m' sl : frame m m' sl -> slice_ok m sl -> slice_ok m' sl.
Proof.
  intros [Hl Hf] [Hlen Hcap]. split; [exact Hlen|]. intros Hpos.
  destruct (Hcap Hpos) as [Ha Hc]. destruct (Hf _ Ha) as (L & _ & _).
  split; [lia|congruence].
Qed.

Lemma frame_view m m' sl :
  frame m m' sl -> slice_ok m sl -> view m' sl = view m sl.
Proof.
  intros [Hl Hf] [Hlen Hcap]. unfold view.
  destruct (s_cap sl) as [|c] eqn:Ec.
  - assert (s_len sl = O) as -> by lia. reflexivity.
  - destruct (Hcap ltac:(lia)) as [Ha _].
    destruct (Hf _ Ha) as (_ & _ & E). exact (E eq_refl).
Qed.

Lemma append_view grow m sl x :
  slice_ok m sl ->
  slice_ok (go_append grow m sl x).1 (go_append grow m sl x).2 /\
  view (go_append grow m sl x).1 (go_append grow m sl x).2
  = view m sl ++ [x].
Proof.
  intros [Hlen Hcap]. unfold go_append.
  destruct (s_len sl <? s_cap sl)%nat eqn:E.
  - apply Nat.ltb_lt in E. destruct (Hcap ltac:(lia)) as [Ha Hc].
    cbn [fst snd]. split.
    + split; cbn [s_len s_arr s_cap]; [lia|]. intros _.
      rewrite length_alter. split; [exact Ha|].
      rewrite list_lookup_total_alter_eq by exact Ha.
      rewrite length_insert. exact Hc.
    + unfold view. cbn [s_len s_arr].
      rewrite list_lookup_total_alter_eq by exact Ha.
      rewrite (take_S_r _ _ x) by (apply list_lookup_insert_eq; lia).
      rewrite take_insert_ge by lia. reflexivity.
  - apply Nat.ltb_ge in E. cbn [fst snd].
    assert (Hv : length (view m sl) = s_len sl).
    { unfold view. rewrite length_take.
      destruct (s_cap sl) as [|c] eqn:Ec; [lia|].
      destruct (Hcap ltac:(lia)) as [_ Hc]. lia. }
    split.
    + split; cbn [s_len s_arr s_cap]; [lia|]. intros _.
      rewrite length_app. cbn [length]. split; [lia|].
      rewrite lookup_total_app_r by lia. rewrite Nat.sub_diag. cbn.
      rewrite length_app. cbn. rewrite length_replicate. lia.
    + unfold view at 1. cbn [s_len s_arr].
      rewrite lookup_total_app_r by lia. rewrite Nat.sub_diag. cbn.
      rewrite <- Hv at 1.
      change (view m sl ++ x :: ?r) with (view m sl ++ [x] ++ r).
      rewrite app_assoc.
      replace (S (length (view m sl))) with (length (view m sl ++ [x]))
        by (rewrite length_app; cbn; lia).
      apply take_app_length.
Qed.

(** What happens behind the appended slice is invisible through the
    slice it was appended to. *)
Lemma append_frame grow m sl x m' :
  slice_ok m sl ->
  frame (go_append grow m sl x).1 m' (go_append grow m sl x).2 ->
  frame m m' sl.
Proof.
  intros [Hlen Hcap]. unfold go_append.
  destruct (s_len sl <? s_cap sl)%nat eqn:E; cbn [fst snd].
  - apply Nat.ltb_lt in E. destruct (Hcap ltac:(lia)) as [Ha Hc].
    intros [Hl Hf]. rewrite length_alter in Hl, Hf.
    split; [exact Hl|]. intros a Haa.
    destruct (Hf a Haa) as (L & N & Eq). cbn [s_arr s_len] in N, Eq.
    destruct (decide (a = s_arr sl)) as [-> | Hne].
    + rewrite list_lookup_total_alter_eq in L, Eq by exact Ha.
      rewrite length_insert in L. split; [exact L|].
      split; [congruence|]. intros _.
      specialize (Eq eq_refl).
      apply (f_equal (take (s_len sl))) in Eq.
      rewrite !take_take in Eq.
      replace (s_len sl `min` S (s_len sl))%nat with (s_len sl) in Eq by lia.
      rewrite Eq. apply take_insert_ge. lia.
    + rewrite list_lookup_total_alter_ne in L, N by congruence.
      split; [exact L|]. split; [intros _; exact (N Hne)|congruence].
  - intros [Hl Hf]. rewrite length_app in Hl, Hf. cbn in Hl, Hf.
    split; [lia|]. intros a Haa.
    destruct (Hf a ltac:(lia)) as (L & N & _). cbn [s_arr] in N.
    rewrite lookup_total_app_l in L, N by exact Haa.
    specialize (N ltac:(lia)).
    split; [exact L|]. split; [intros _; exact N|].
    intros _. rewrite N. reflexivity.
Qed.

Section SlicesByValue.
Context {W : Type} `{IOWriter W}.
Variable grow : nat -> nat.

Lemma print_range_by_value rec_sl rec len level :
  (forall w m sl ns s,
      slice_ok m sl ->
      agree (same_lines m sl) (rec_sl w m sl ns s) (rec w (view m sl) ns s)) ->
  forall rest i m sl (w : W) s,
    slice_ok m sl ->
    agree (same_lines m sl)
      (print_range_sl grow rec_sl len level i rest m sl w s)
      (print_range rec len level i rest (view m sl) w s).
Proof.
  intros Hrec. induction rest as [|node rest IH]; intros i m sl w s Hok;
    cbn [print_range_sl print_range].
  - cbn. split; [split; [reflexivity|apply frame_refl]|reflexivity].
  - apply agree_bind_same. intros mid s1. cbv zeta.
    set (last := (i =? Z.of_nat len - 1)%Z).
    set (ap := if last then go_append grow m sl level else (m, sl)).
    assert (Hap : slice_ok ap.1 ap.2 /\
                  view ap.1 ap.2
                  = (if last then view m sl ++ [level] else view m sl) /\
                  forall m', frame ap.1 m' ap.2 -> frame m m' sl).
    { subst ap. destruct last.
      - destruct (append_view grow m sl level Hok) as [Hok1 Hv1].
        split; [exact Hok1|]. split; [exact Hv1|].
        intros m'. apply append_frame. exact Hok.
      - cbn. auto. }
    destruct Hap as (Hok1 & Hv1 & Hback). rewrite <- Hv1.
    apply agree_bind_same. intros edge s2.
    apply agree_bind_same. intros w1 s3.
    apply agree_bind_same. intros nd s4.
    apply (agree_bind (same_lines ap.1 ap.2)).
    + destruct (0 <? length (Nodes nd))%nat; [apply Hrec; exact Hok1|].
      cbn. split; [split; [reflexivity|apply frame_refl]|reflexivity].
    + intros [w2 m2] w2' s5 [Hw Hf]. cbn [fst snd] in Hw, Hf |- *. subst w2'.
      pose proof (IH (i + 1)%Z m2 ap.2 w2 s5 (frame_ok _ _ _ Hf Hok1)) as Hrest.
      rewrite (frame_view _ _ _ Hf Hok1) in Hrest.
      destruct (print_range_sl grow rec_sl len level (i + 1) rest m2 ap.2 w2 s5)
        as [[w3 m3] s6| |],
        (print_range rec len level (i + 1) rest (view ap.1 ap.2) w2 s5)
        as [w3' s6'| |]; cbn in Hrest |- *; try contradiction; try exact I.
      destruct Hrest as [[Hw3 Hf3] Hs]. cbn [fst snd] in Hw3, Hf3.
      split; [|exact Hs]. split; [exact Hw3|]. cbn [snd].
      apply Hback. exact (frame_trans _ _ _ _ Hf Hf3).
Qed.

(** With slices spelled out, [printNodes] writes the same lines as with
    the contents of the slice passed by value, and returns the window of
    its caller's slice as it found it. *)
Lemma printNodes_by_value fuel :
  forall (w : W) level m sl nodes s,
    slice_ok m sl ->
    agree (same_lines m sl)
      (printNodes_sl grow fuel w level m sl nodes s)
      (printNodes fuel w level (view m sl) nodes s).
Proof.
  induction fuel as [|f IH]; intros w level m sl nodes s Hok;
    cbn [printNodes_sl printNodes]; [exact I|].
  apply print_range_by_value; [|exact Hok].
  intros w1 m1 sl1 ns s1 Hok1. apply IH. exact Hok1.
Qed.
End SlicesByValue.

(** * Further lemmas *)

(** ** Splitting and joining on one byte *)

Lemma append_cons (x : ascii) (a b : string) :
  String x a +:+ b = String x (a +:+ b).
Proof. reflexivity. Qed.

Lemma Split_on_nonempty sep s : strings_Split_on sep s <> [].
Proof.
  induction s as [|c s IH]; cbn; [discriminate|].
  destruct (Ascii.eqb c sep); [discriminate|].
  destruct (strings_Split_on sep s); discriminate.
Qed.

Lemma Split_on_free sep s :
  free_of sep s = true -> strings_Split_on sep s = [s].
Proof.
  induction s as [|c s IH]; cbn; [reflexivity|].
  intros H. apply andb_prop in H as [Hc Hs].
  apply negb_true_iff in Hc. rewrite Hc, (IH Hs). reflexivity.
Qed.

Lemma Split_on_append sep a b :
  free_of sep a = true ->
  strings_Split_on sep (a +:+ String sep b) = a :: strings_Split_on sep b.
Proof.
  induction a as [|c a IH]; intros H.
  - change (EmptyString +:+ String sep b) with (String sep b).
    cbn. rewrite Ascii.eqb_refl. reflexivity.
  - cbn in H. apply andb_prop in H as [Hc Ha]. apply negb_true_iff in Hc.
    rewrite append_cons. cbn. rewrite Hc, (IH Ha). reflexivity.
Qed.

Lemma Split_on_fields sep s :
  Forall (fun p => free_of sep p = true) (strings_Split_on sep s).
Proof.
  induction s as [|c s IH]; cbn.
  - constructor; [reflexivity|constructor].
  - destruct (Ascii.eqb c sep) eqn:E.
    + constructor; [reflexivity|exact IH].
    + destruct (strings_Split_on sep s) as [|x xs].
      * constructor; [cbn; rewrite E; reflexivity|constructor].
      * inversion IH as [|? ? Hx Hxs]; subst.
        constructor; [cbn; rewrite E, Hx; reflexivity|exact Hxs].
Qed.

Lemma Join_cons (x : string) (l : list string) (sep : string) :
  l <> [] ->
  strings_Join (x :: l) sep = x +:+ sep +:+ strings_Join l sep.
Proof. destruct l; [congruence|reflexivity]. Qed.

Lemma Join_Split_on sep s :
  strings_Join (strings_Split_on sep s) (String sep EmptyString) = s.
Proof.
  induction s as [|c s IH]; [reflexivity|].
  cbn [strings_Split_on]. destruct (Ascii.eqb c sep) eqn:E.
  - apply Ascii.eqb_eq in E. subst c.
    rewrite Join_cons by apply Split_on_nonempty. rewrite IH. reflexivity.
  - pose proof (Split_on_nonempty sep s) as Hne.
    destruct (strings_Split_on sep s) as [|x xs]; [congruence|].
    destruct xs as [|y ys].
    + cbn in IH |- *. congruence.
    + rewrite Join_cons in IH |- * by discriminate.
      rewrite append_cons. congruence.
Qed.

Lemma Split_on_Join sep (l : list string) :
  l <> [] -> Forall (fun p => free_of sep p = true) l ->
  strings_Split_on sep (strings_Join l (String sep EmptyString)) = l.
Proof.
  induction l as [|x l IH]; [congruence|]. intros _ Hall.
  inversion Hall as [|? ? Hx Hl]; subst.
  destruct l as [|y l].
  - cbn. apply Split_on_free. exact Hx.
  - rewrite Join_cons by discriminate.
    change (String sep EmptyString
            +:+ strings_Join (y :: l) (String sep EmptyString))
      with (String sep (strings_Join (y :: l) (String sep EmptyString))).
    rewrite Split_on_append by exact Hx.
    rewrite IH; [reflexivity|discriminate|exact Hl].
Qed.

Lemma filter_range_filter tags : forall filtered,
  filter_range tags filtered
  = filtered ++ List.filter (fun t => negb (strings_HasPrefix t "tree:")) tags.
Proof.
  induction tags as [|t tags IH]; intros filtered;
    cbn [filter_range List.filter].
  - rewrite app_nil_r. reflexivity.
  - destruct (strings_HasPrefix t "tree:"); cbn [negb].
    + apply IH.
    + rewrite IH, <- app_assoc. reflexivity.
Qed.

Lemma append_empty_r (a : string) : a +:+ EmptyString = a.
Proof.
  induction a as [|x a IH]; [reflexivity|].
  rewrite append_cons, IH. reflexivity.
Qed.

Lemma filterTags_filter tag :
  filterTags tag
  = strings_Join
      (List.filter (fun t => negb (strings_HasPrefix t "tree:"))
         (strings_Split_on " "%char tag)) " ".
Proof. unfold filterTags. rewrite filter_range_filter. reflexivity. Qed.

Lemma tagSpec_second name opt tail :
  free_of ","%char name = true ->
  free_of ","%char opt = true ->
  tail = EmptyString \/ (exists r, tail = String ","%char r) ->
  tagSpec (name +:+ "," +:+ opt +:+ tail)
  = (name, String.eqb opt "omitempty").
Proof.
  intros Hn Ho Ht. unfold tagSpec.
  change ("," +:+ opt +:+ tail) with (String ","%char (opt +:+ tail)).
  rewrite Split_on_append by exact Hn.
  assert (Hs : exists rest,
             strings_Split_on ","%char (opt +:+ tail) = opt :: rest).
  { destruct Ht as [->|[r ->]].
    - rewrite append_empty_r, Split_on_free by exact Ho. eauto.
    - rewrite Split_on_append by exact Ho. eauto. }
  destruct Hs as [rest ->].
  destruct (String.eqb opt "omitempty"); reflexivity.
Qed.

(** ** Adding children *)

Lemma add_child_Ok (n : addr) nd meta a (k : addr -> addr -> addr) s :
  heap s !! n = Some nd ->
  (let! _ := load n in
   let! c := alloc {| Root := Some n; Meta := meta; Value := a;
                      Nodes := [] |} in
   let! _ := append_child n c in
   ret (k n c)) s
  = Ok (k n (length (heap s))) (with_child s n nd meta a).
Proof.
  intros Hn.
  set (new := {| Root := Some n; Meta := meta; Value := a; Nodes := [] |}).
  set (s1 := with_heap s (heap s ++ [new])).
  assert (Hn1 : heap s1 !! n = Some nd)
    by (apply lookup_app_l_Some; exact Hn).
  rewrite (bind_load _ _ _ _ Hn).
  rewrite (bind_Ok _ _ s (length (heap s)) s1 eq_refl).
  unfold append_child.
  rewrite bind_assoc, (bind_load _ _ _ _ Hn1).
  unfold bind, store. rewrite Hn1. reflexivity.
Qed.

Lemma with_child_lookup s (n : addr) nd meta a :
  heap s !! n = Some nd ->
  heap (with_child s n nd meta a) !! n
  = Some {| Root := Root nd; Meta := Meta nd; Value := Value nd;
            Nodes := Nodes nd ++ [length (heap s)] |} /\
  heap (with_child s n nd meta a) !! length (heap s)
  = Some {| Root := Some n; Meta := meta; Value := a; Nodes := [] |} /\
  length (heap (with_child s n nd meta a)) = S (length (heap s)) /\
  (forall c : addr, c <> n -> (c < length (heap s))%nat ->
     heap (with_child s n nd meta a) !! c = heap s !! c).
Proof.
  intros Hn.
  assert (Hlt : (n < length (heap s))%nat)
    by (eapply lookup_lt_Some; exact Hn).
  unfold with_child. cbn [heap with_heap].
  split; [|split; [|split]].
  - apply list_lookup_insert_eq. rewrite length_app. cbn. lia.
  - rewrite list_lookup_insert_ne by lia.
    rewrite lookup_app_r by lia. rewrite Nat.sub_diag. reflexivity.
  - rewrite length_insert, length_app. cbn. lia.
  - intros c Hc Hlt'. rewrite list_lookup_insert_ne by congruence.
    apply lookup_app_l. exact Hlt'.
Qed.

Lemma foldM_AddNode (n : addr) vs : forall nd s,
  heap s !! n = Some nd ->
  foldM AddNode vs n s = Ok n (with_children s n nd vs).
Proof.
  induction vs as [|v vs IH]; intros nd s Hn.
  - cbn [foldM]. unfold ret, with_children. cbn [length map seq].
    rewrite !app_nil_r. f_equal.
    transitivity (with_heap s (heap s)); [symmetry; apply with_heap_same|].
    f_equal. symmetry. apply list_insert_id.
    destruct nd; exact Hn.
  - cbn [foldM].
    assert (Hadd : AddNode n v s = Ok n (with_child s n nd ANil v))
      by exact (add_child_Ok n nd ANil v (fun x _ => x) s Hn).
    rewrite (bind_Ok _ _ _ _ _ Hadd).
    destruct (with_child_lookup s n nd ANil v Hn) as (H1 & _ & H3 & _).
    rewrite (IH _ _ H1). f_equal.
    assert (Hlt : (n < length (heap s))%nat)
      by (eapply lookup_lt_Some; exact Hn).
    unfold with_children. rewrite H3. cbn [Root Meta Value Nodes].
    unfold with_child, with_heap.
    cbn [heap IndentSize EdgeTypeLink EdgeTypeMid EdgeTypeEnd].
    f_equal.
    rewrite <- insert_app_l by (rewrite length_app; cbn; lia).
    rewrite list_insert_insert_eq.
    rewrite <- !app_assoc. cbn [length map seq app]. reflexivity.
Qed.

Lemma with_children_lookup s (n : addr) nd vs :
  heap s !! n = Some nd ->
  heap (with_children s n nd vs) !! n
  = Some {| Root := Root nd; Meta := Meta nd; Value := Value nd;
            Nodes := Nodes nd ++ seq (length (heap s)) (length vs) |} /\
  (forall (i : nat) v, vs !! i = Some v ->
     heap (with_children s n nd vs) !! (length (heap s) + i)%nat
     = Some {| Root := Some n; Meta := ANil; Value := v; Nodes := [] |}) /\
  length (heap (with_children s n nd vs))
  = (length (heap s) + length vs)%nat /\
  (forall c : addr, c <> n -> (c < length (heap s))%nat ->
     heap (with_children s n nd vs) !! c = heap s !! c).
Proof.
  intros Hn.
  assert (Hlt : (n < length (heap s))%nat)
    by (eapply lookup_lt_Some; exact Hn).
  unfold with_children. cbn [heap with_heap].
  split; [|split; [|split]].
  - apply list_lookup_insert_eq. rewrite length_app. lia.
  - intros i v Hi.
    rewrite list_lookup_insert_ne by lia.
    rewrite lookup_app_r by lia.
    replace (length (heap s) + i - length (heap s))%nat with i by lia.
    rewrite list_lookup_fmap, Hi. reflexivity.
  - rewrite length_insert, length_app, length_map. reflexivity.
  - intros c Hc Hlt'. rewrite list_lookup_insert_ne by congruence.
    apply lookup_app_l. exact Hlt'.
Qed.

(** ** Lines and nodes of a render *)

Lemma Split_newline s : strings_Split s = strings_Split_on newline s.
Proof.
  induction s as [|c s IH]; [reflexivity|].
  cbn [strings_Split strings_Split_on]. rewrite IH. reflexivity.
Qed.

Lemma Split_single s :
  free_of newline s = true -> strings_Split s = [s].
Proof. intros H. rewrite Split_newline. apply Split_on_free. exact H. Qed.

Lemma sib_calls_nodes ks :
  Forall (fun t => forall p i level ended anc last,
            map c_node (node_calls p i level ended anc last t) = preorder t)
    ks ->
  forall p level ended anc i,
    map c_node (sib_calls p level ended anc i ks) = flat_map preorder ks.
Proof.
  induction 1 as [|k ks Hk _ IH]; intros p level ended anc i; [reflexivity|].
  cbn [sib_calls flat_map]. rewrite map_app, Hk, IH. reflexivity.
Qed.

Lemma node_calls_nodes t :
  forall p i level ended anc last,
    map c_node (node_calls p i level ended anc last t) = preorder t.
Proof.
  induction t as [a ks IH] using tree_rect'.
  intros p i level ended anc last. rewrite node_calls_eq.
  cbn [map c_node preorder]. f_equal. apply sib_calls_nodes. exact IH.
Qed.

Lemma Writer_calls_nodes n t : map c_node (Writer_calls n t) = descendants t.
Proof.
  unfold Writer_calls, descendants. apply sib_calls_nodes.
  apply List.Forall_forall. intros k _. apply node_calls_nodes.
Qed.

Lemma descendants_live fuel h n t a :
  unfold fuel h n = Some t -> In a (descendants t) -> is_Some (h !! a).
Proof.
  intros Ht Ha. apply unfold_mono in Ht.
  destruct (descendants_unfold fuel h n t a Ht Ha) as [t' Ht'].
  apply unfold_kids in Ht' as (nd & Hnd & _). eauto.
Qed.

Section SingleLine.
Context {W : Type} `{IOWriter W}.

Lemma printValues_single (wr : W) level levelsEnded edge (node : addr) nd s :
  (0 <= IndentSize s)%Z ->
  heap s !! node = Some nd ->
  free_of newline (Sprint (Value nd)) = true ->
  printValues wr level levelsEnded edge node s
  = Ok (feed wr
          (map (fun i => segment s (isEnded levelsEnded i)) (seqZ 0 level)
           ++ [edge +:+ " " +:+ label nd (Value nd) +:+ nl])) s.
Proof.
  intros Hind Hnd Hv. rewrite printValues_line by exact Hind.
  rewrite (bind_Ok _ _ _ _ _
             (renderValue_single level node nd _ s Hnd (Split_single _ Hv))).
  rewrite (bind_load _ _ _ _ Hnd). reflexivity.
Qed.

Lemma foldM_emit_single s cs :
  (0 <= IndentSize s)%Z ->
  Forall (fun c =>
            c_level c = Z.of_nat (length (c_anc c)) /\
            (forall (d : nat) x, c_anc c !! d = Some x ->
               isEnded (c_ended c) (Z.of_nat d) = x.2) /\
            exists cd, heap s !! c_node c = Some cd /\
                       free_of newline (Sprint (Value cd)) = true) cs ->
  forall w : W,
    foldM emit cs w s = Ok (feed w (flat_map (call_chunks s) cs)) s.
Proof.
  intros Hind. induction 1 as [|c cs (Hlev & Hanc & cd & Hcd & Hv) _ IH];
    intros w; [reflexivity|].
  cbn [foldM flat_map].
  assert (E : emit w c s = Ok (feed w (call_chunks s c)) s).
  { unfold emit. rewrite bind_gets.
    rewrite (printValues_single _ _ _ _ _ cd s Hind Hcd Hv).
    rewrite Hlev, (segments_anc s (c_ended c) (c_anc c) Hanc).
    unfold call_chunks. rewrite Hcd. reflexivity. }
  rewrite (bind_Ok _ _ _ _ _ E), IH, feed_app. reflexivity.
Qed.
End SingleLine.

Section FlatTree.
Context {W : Type} `{IOWriter W}.

Lemma print_range_leaves rec len s :
  forall rest vs (i : nat) ended (wr : W),
    (i + length rest = len)%nat ->
    Forall2 (fun (c : addr) v =>
               free_of newline (Sprint v) = true /\
               exists r, heap s !! c
                         = Some {| Root := r; Meta := ANil; Value := v;
                                   Nodes := [] |}) rest vs ->
    print_range rec len 0 (Z.of_nat i) rest ended wr s
    = Ok (feed wr (flat_lines (EdgeTypeMid s) (EdgeTypeEnd s)
                     (map Sprint vs))) s.
Proof.
  intros rest vs i ended wr Hlen Hall. revert i ended wr Hlen.
  induction Hall as [|c v rest vs (Hv & r & Hc) Hall IH];
    intros i ended wr Hlen; [reflexivity|].
  cbn [print_range map flat_lines]. rewrite bind_gets.
  assert (Hlast : (Z.of_nat i =? Z.of_nat len - 1)%Z
                  = is_nil (map Sprint vs)).
  { cbn [length] in Hlen. apply Forall2_length in Hall.
    destruct vs as [|v' vs]; cbn [is_nil map].
    - apply Z.eqb_eq. destruct rest; [cbn in Hlen; lia|discriminate].
    - apply Z.eqb_neq. destruct rest; [discriminate|cbn in Hlen; lia]. }
  rewrite Hlast. cbv zeta.
  set (edge := if is_nil (map Sprint vs) then EdgeTypeEnd s
               else EdgeTypeMid s).
  assert (Hedge : (if is_nil (map Sprint vs) then gets EdgeTypeEnd
                   else ret (EdgeTypeMid s)) s = Ok edge s)
    by (unfold edge; destruct (is_nil (map Sprint vs)); reflexivity).
  rewrite (bind_Ok _ _ _ _ _ Hedge).
  assert (Hline : forall e,
             printValues wr 0 e edge c s
             = Ok (Write wr (edge +:+ " " +:+ Sprint v +:+ nl)) s).
  { intros e. unfold printValues. change (seqZ 0 0) with (@nil Z).
    cbn [foldM]. rewrite bind_ret.
    rewrite (bind_Ok _ _ _ _ _
               (renderValue_single 0 c _ _ s Hc (Split_single _ Hv))).
    rewrite (bind_load _ _ _ _ Hc). reflexivity. }
  rewrite (bind_Ok _ _ _ _ _ (Hline _)).
  rewrite (bind_load _ _ _ _ Hc). cbn [Nodes length Nat.ltb Nat.leb].
  rewrite bind_ret.
  replace (Z.of_nat i + 1)%Z with (Z.of_nat (S i)) by lia.
  rewrite IH by (cbn [length] in Hlen; lia). reflexivity.
Qed.
End FlatTree.

(** ** A negative indent *)

Section NegativeIndent.
Context {W : Type} `{IOWriter W}.

Lemma printValues_negative (wr : W) level levelsEnded edge node s :
  (IndentSize s < -1)%Z -> (0 < level)%Z ->
  printValues wr level levelsEnded edge node s = Panic.
Proof.
  intros Hind Hlevel. unfold printValues.
  rewrite seqZ_cons by exact Hlevel. cbn [foldM].
  rewrite bind_assoc. apply bind_Panic.
  rewrite bind_gets. unfold strings_Repeat.
  assert (H1 : (IndentSize s + 1 <? 0)%Z = true) by (apply Z.ltb_lt; lia).
  assert (H2 : (IndentSize s <? 0)%Z = true) by (apply Z.ltb_lt; lia).
  rewrite H1, H2.
  destruct (isEnded levelsEnded 0); [reflexivity|].
  rewrite bind_gets. reflexivity.
Qed.
End NegativeIndent.

Lemma edge_choice (b : bool) s :
  (if b then gets EdgeTypeEnd else ret (EdgeTypeMid s)) s
  = Ok (if b then EdgeTypeEnd s else EdgeTypeMid s) s.
Proof. destruct b; reflexivity. Qed.

(** ** What the searches find *)

Lemma find_first {A : Type} (P : A -> bool) (l : list A) a :
  find P l = Some a ->
  P a = true /\
  exists before after,
    l = before ++ a :: after /\ Forall (fun b => P b = false) before.
Proof.
  induction l as [|x l IH]; [discriminate|]. cbn [find].
  destruct (P x) eqn:Ex.
  - intros [= ->]. split; [exact Ex|]. exists [], l. split; [reflexivity|].
    constructor.
  - intros E. destruct (IH E) as (Ha & before & after & -> & Hb).
    split; [exact Ha|]. exists (x :: before), after.
    split; [reflexivity|]. constructor; assumption.
Qed.

Lemma find_nothing {A : Type} (P : A -> bool) (l : list A) :
  find P l = None -> Forall (fun b => P b = false) l.
Proof.
  intros E. apply List.Forall_forall. intros b Hb.
  exact (find_none P l E b Hb).
Qed.

Lemma DeepEqual_false x y : DeepEqual x y = false <-> x <> y.
Proof.
  rewrite <- DeepEqual_eq. destruct (DeepEqual x y); split; congruence.
Qed.

Lemma first_hit_leaves (P : addr -> bool) (sub : tree -> option addr) ts :
  Forall (fun k => sub k = None) ts ->
  first_hit P sub ts = find P (map root_of ts).
Proof.
  induction 1 as [|k ts Hk _ IH]; [reflexivity|].
  cbn [first_hit map find]. rewrite Hk, IH. reflexivity.
Qed.

Lemma first_hit_cases (P : addr -> bool) (sub : tree -> option addr) ts r :
  first_hit P sub ts = Some r ->
  (In r (map root_of ts) /\ P r = true) \/
  (exists k, In k ts /\ sub k = Some r).
Proof.
  induction ts as [|k ts IH]; [discriminate|]. cbn [first_hit].
  destruct (P (root_of k)) eqn:Ek.
  - intros [= <-]. left. split; [left; reflexivity|exact Ek].
  - destruct (sub k) as [x|] eqn:Es.
    + intros [= <-]. right. exists k. split; [left; reflexivity|exact Es].
    + intros E. destruct (IH E) as [[Hin Hp]|(k' & Hin & Hs)].
      * left. split; [right; exact Hin|exact Hp].
      * right. exists k'. split; [right; exact Hin|exact Hs].
Qed.

Lemma first_hit_none (P : addr -> bool) (sub : tree -> option addr) ts :
  first_hit P sub ts = None ->
  Forall (fun k => P (root_of k) = false /\ sub k = None) ts.
Proof.
  induction ts as [|k ts IH]; [constructor|]. cbn [first_hit].
  destruct (P (root_of k)) eqn:Ek; [discriminate|].
  destruct (sub k) eqn:Es; [discriminate|].
  intros E. constructor; [split; assumption|exact (IH E)].
Qed.

Lemma kids_roots fuel h nodes ts :
  Forall2 (fun c k => unfold fuel h c = Some k) nodes ts ->
  map root_of ts = nodes.
Proof.
  induction 1 as [|c k nodes ts Hk _ IH]; [reflexivity|].
  cbn [map]. rewrite IH, (unfold_root _ _ _ _ Hk). reflexivity.
Qed.

(** ** Invariants of the trees built through the public operations *)

(** Induction over the ways the public operations change the heap: a
    fresh parentless node, a fresh last child, and an update that keeps
    the children and keeps or clears the parent. *)
Lemma built_heap_ind (P : list Node -> Prop) :
  P [] ->
  (forall h nd0, P h -> Root nd0 = None -> Nodes nd0 = [] -> P (h ++ [nd0])) ->
  (forall h (n : addr) nd new,
      P h -> h !! n = Some nd -> Root new = Some n -> Nodes new = [] ->
      P (<[n := {| Root := Root nd; Meta := Meta nd; Value := Value nd;
                   Nodes := Nodes nd ++ [length h] |}]> (h ++ [new]))) ->
  (forall h (n : addr) nd nd',
      P h -> h !! n = Some nd -> Nodes nd' = Nodes nd ->
      (Root nd' = Root nd \/ Root nd' = None) -> P (<[n := nd']> h)) ->
  forall s, built s -> P (heap s).
Proof.
  intros Hnil Halloc Hadd Hupd.
  induction 1 as [ |s indent l m e _ IH|s r s' _ IH E|s v r s' _ IH E
                 |s n v r s' _ IH E|s n m v r s' _ IH E
                 |s n v r s' _ IH E|s n m v r s' _ IH E
                 |s n r s' _ IH E|s n v r s' _ IH E|s n m r s' _ IH E].
  - exact Hnil.
  - exact IH.
  - unfold New, alloc in E. injection E as _ <-.
    apply Halloc; [exact IH|reflexivity..].
  - unfold NewWithRoot, alloc in E. injection E as _ <-.
    apply Halloc; [exact IH|reflexivity..].
  - apply (add_child_run n ANil v (fun x _ => ret x)) in E
      as (nd & Hn & ->); [|intros x y; exists x; reflexivity].
    apply Hadd; [exact IH|exact Hn|reflexivity..].
  - apply (add_child_run n m v (fun x _ => ret x)) in E
      as (nd & Hn & ->); [|intros x y; exists x; reflexivity].
    apply Hadd; [exact IH|exact Hn|reflexivity..].
  - apply (add_child_run n ANil v (fun _ y => ret y)) in E
      as (nd & Hn & ->); [|intros x y; exists y; reflexivity].
    apply Hadd; [exact IH|exact Hn|reflexivity..].
  - apply (add_child_run n m v (fun _ y => ret y)) in E
      as (nd & Hn & ->); [|intros x y; exists y; reflexivity].
    apply Hadd; [exact IH|exact Hn|reflexivity..].
  - unfold Branch in E. rewrite <- bind_assoc in E.
    unfold bind at 1 in E.
    destruct ((let! nd := load n in
               store n {| Root := None; Meta := Meta nd; Value := Value nd;
                          Nodes := Nodes nd |}) s) as [u s1| |] eqn:E1;
      try discriminate E.
    injection E as _ <-.
    apply (update_run n (fun nd => {| Root := None; Meta := Meta nd;
                                      Value := Value nd;
                                      Nodes := Nodes nd |})) in E1
      as (nd & Hn & ->).
    apply (Hupd _ n nd); [exact IH|exact Hn|reflexivity|].
    right. reflexivity.
  - apply (update_run n (fun nd => {| Root := Root nd; Meta := Meta nd;
                                      Value := v; Nodes := Nodes nd |})) in E
      as (nd & Hn & ->).
    apply (Hupd _ n nd); [exact IH|exact Hn|reflexivity|].
    left. reflexivity.
  - apply (update_run n (fun nd => {| Root := Root nd; Meta := m;
                                      Value := Value nd;
                                      Nodes := Nodes nd |})) in E
      as (nd & Hn & ->).
    apply (Hupd _ n nd); [exact IH|exact Hn|reflexivity|].
    left. reflexivity.
Qed.

Lemma concat_insert_snoc {A : Type} (L : list (list A)) : forall (n : nat) r x,
  L !! n = Some r ->
  concat (<[n := r ++ [x]]> L) ≡ₚ x :: concat L.
Proof.
  induction L as [|r0 L IH]; intros n r x Hn; [discriminate|].
  destruct n as [|n]; cbn in Hn |- *.
  - injection Hn as ->. rewrite <- app_assoc. cbn.
    symmetry. apply Permutation_middle.
  - rewrite (IH n r x Hn). symmetry. apply Permutation_middle.
Qed.

Lemma concat_rows {A : Type} (L : list (list A)) : forall (i j : nat) r1 r2 x,
  NoDup (concat L) ->
  L !! i = Some r1 -> L !! j = Some r2 ->
  x ∈ r1 -> x ∈ r2 -> i = j.
Proof.
  induction L as [|r L IH]; intros i j r1 r2 x Hnd Hi Hj H1 H2;
    [discriminate|].
  cbn in Hnd. apply NoDup_app in Hnd as (_ & Hdis & Hnd).
  assert (Hin : forall k r', L !! k = Some r' -> x ∈ r' -> x ∈ concat L).
  { intros k r' Hk Hx. apply list_elem_of_In, in_concat. exists r'.
    split; [|apply list_elem_of_In; exact Hx].
    apply list_elem_of_In. eapply list_elem_of_lookup_2. exact Hk. }
  destruct i as [|i], j as [|j]; cbn in Hi, Hj.
  - reflexivity.
  - injection Hi as ->. exfalso. exact (Hdis x H1 (Hin j r2 Hj H2)).
  - injection Hj as ->. exfalso. exact (Hdis x H2 (Hin i r1 Hi H1)).
  - f_equal. exact (IH i j r1 r2 x Hnd Hi Hj H1 H2).
Qed.

Lemma concat_row_NoDup {A : Type} (L : list (list A)) (i : nat) r :
  NoDup (concat L) -> L !! i = Some r -> NoDup r.
Proof.
  revert i. induction L as [|r0 L IH]; intros i Hnd Hi; [discriminate|].
  cbn in Hnd. apply NoDup_app in Hnd as (Hr & _ & Hnd).
  destruct i as [|i]; cbn in Hi.
  - injection Hi as ->. exact Hr.
  - exact (IH i Hnd Hi).
Qed.

Lemma children_in_heap h :
  tree_shaped h -> Forall (fun c => (c < length h)%nat) (concat (map Nodes h)).
Proof.
  intros Hts. apply List.Forall_forall. intros c Hc.
  apply in_concat in Hc as (r & Hr & Hc).
  apply in_map_iff in Hr as (pd & <- & Hpd).
  apply list_elem_of_In, list_elem_of_lookup_1 in Hpd as [p Hp].
  pose proof (Hts p pd Hp) as Hall.
  apply (proj1 (List.Forall_forall _ _) Hall) in Hc
    as (_ & cd & Hcd & _).
  eapply lookup_lt_Some. exact Hcd.
Qed.

Lemma built_unshared s : built s -> tree_shaped (heap s) /\ unshared (heap s).
Proof.
  apply (built_heap_ind (fun h => tree_shaped h /\ unshared h)).
  - split; [intros p pd Hp; discriminate Hp|constructor].
  - intros h nd0 [Hts Hun] _ Hns.
    split; [apply tree_shaped_alloc; assumption|].
    unfold unshared. rewrite map_app, concat_app. cbn. rewrite Hns.
    rewrite !app_nil_r. exact Hun.
  - intros h n nd new [Hts Hun] Hn HR Hns.
    split; [apply tree_shaped_add; assumption|].
    unfold unshared in *. unfold addr in *.
    change (map Nodes) with (fmap (M := list) Nodes).
    rewrite list_fmap_insert. cbn [Nodes]. rewrite fmap_app.
    cbn [fmap list_fmap].
    rewrite insert_app_l
      by (rewrite length_fmap; eapply lookup_lt_Some; exact Hn).
    rewrite concat_app. cbn. rewrite Hns, !app_nil_r.
    rewrite concat_insert_snoc by (rewrite list_lookup_fmap, Hn; reflexivity).
    apply NoDup_cons. split; [|exact Hun].
    intros Hin. apply list_elem_of_In in Hin.
    pose proof (proj1 (List.Forall_forall _ _) (children_in_heap h Hts) _ Hin)
      as Hlt.
    cbv beta in Hlt. lia.
  - intros h n nd nd' [Hts Hun] Hn Hns HR.
    split; [apply (tree_shaped_update h n nd); assumption|].
    unfold unshared in *. unfold addr in *.
    change (map Nodes) with (fmap (M := list) Nodes) in *.
    rewrite list_fmap_insert, list_insert_id; [exact Hun|].
    rewrite list_lookup_fmap, Hn, Hns. reflexivity.
Qed.

Lemma built_rooted s : built s -> rooted (heap s).
Proof.
  apply (built_heap_ind rooted).
  - intros c cd p Hc. discriminate Hc.
  - intros h nd0 IH HR _ c cd p Hc Hp.
    destruct (decide (c < length h)%nat) as [Hlt|Hge].
    + rewrite lookup_app_l in Hc by exact Hlt.
      destruct (IH c cd p Hc Hp) as (pd & Hpd & Hin).
      exists pd. split; [apply lookup_app_l_Some; exact Hpd|exact Hin].
    + rewrite lookup_app_r in Hc by lia.
      destruct (c - length h)%nat; [|discriminate Hc].
      injection Hc as <-. congruence.
  - intros h n nd new IH Hn HR _ c cd p Hc Hp.
    assert (Hlt : (n < length h)%nat) by (eapply lookup_lt_Some; exact Hn).
    set (nd1 := {| Root := Root nd; Meta := Meta nd; Value := Value nd;
                   Nodes := Nodes nd ++ [length h] |}) in *.
    assert (Hn1 : <[n := nd1]> (h ++ [new]) !! n = Some nd1)
      by (apply list_lookup_insert_eq; rewrite length_app; cbn; lia).
    assert (Hold : forall (q : addr) qd, h !! q = Some qd ->
               exists qd', <[n := nd1]> (h ++ [new]) !! q = Some qd' /\
                           forall x, In x (Nodes qd) -> In x (Nodes qd')).
    { intros q qd Hq. destruct (decide (q = n)) as [->|Hne].
      - exists nd1. split; [exact Hn1|]. intros x Hx. cbn.
        rewrite Hn in Hq. injection Hq as <-. apply in_or_app. left. exact Hx.
      - exists qd. split; [|auto].
        rewrite list_lookup_insert_ne by congruence.
        apply lookup_app_l_Some. exact Hq. }
    destruct (decide (c = n)) as [->|Hne].
    + rewrite Hn1 in Hc. injection Hc as <-. cbn in Hp.
      destruct (IH n nd p Hn Hp) as (pd & Hpd & Hin).
      destruct (Hold p pd Hpd) as (pd' & Hpd' & Hsub). eauto.
    + rewrite list_lookup_insert_ne in Hc by congruence.
      destruct (decide (c < length h)%nat) as [Hc_lt|Hc_ge].
      * rewrite lookup_app_l in Hc by exact Hc_lt.
        destruct (IH c cd p Hc Hp) as (pd & Hpd & Hin).
        destruct (Hold p pd Hpd) as (pd' & Hpd' & Hsub). eauto.
      * rewrite lookup_app_r in Hc by lia.
        destruct (c - length h)%nat as [|k] eqn:Ek; [|discriminate Hc].
        injection Hc as <-. rewrite HR in Hp. injection Hp as <-.
        exists nd1. split; [exact Hn1|]. cbn. apply in_or_app. right.
        left. lia.
  - intros h n nd nd' IH Hn Hns HR c cd p Hc Hp.
    assert (Hlt : (n < length h)%nat) by (eapply lookup_lt_Some; exact Hn).
    assert (Hold : forall (q : addr) qd, h !! q = Some qd ->
               exists qd', <[n := nd']> h !! q = Some qd' /\
                           Nodes qd' = Nodes qd).
    { intros q qd Hq. destruct (decide (q = n)) as [->|Hne].
      - exists nd'. split; [apply list_lookup_insert_eq; exact Hlt|].
        rewrite Hn in Hq. injection Hq as <-. exact Hns.
      - exists qd. split; [|reflexivity].
        rewrite list_lookup_insert_ne by congruence. exact Hq. }
    assert (Hc0 : exists cd0, h !! c = Some cd0 /\ Root cd0 = Some p).
    { destruct (decide (c = n)) as [->|Hne].
      - rewrite list_lookup_insert_eq in Hc by exact Hlt.
        injection Hc as <-. exists nd. split; [exact Hn|].
        destruct HR as [HR|HR]; congruence.
      - rewrite list_lookup_insert_ne in Hc by congruence. eauto. }
    destruct Hc0 as (cd0 & Hc0 & Hp0).
    destruct (IH c cd0 p Hc0 Hp0) as (pd & Hpd & Hin).
    destruct (Hold p pd Hpd) as (pd' & Hpd' & Hsame).
    exists pd'. split; [exact Hpd'|]. rewrite Hsame. exact Hin.
Qed.

(** ** Subtrees of an unshared heap *)




Lemma one_parent h (p q : addr) pd qd (x : addr) :
  unshared h ->
  h !! p = Some pd -> h !! q = Some qd ->
  In x (Nodes pd) -> In x (Nodes qd) -> p = q.
Proof.
  intros Hun Hp Hq H1 H2.
  apply (concat_rows (map Nodes h) p q (Nodes pd) (Nodes qd) x Hun).
  - change (map Nodes h) with (Nodes <$> h).
    unfold addr in *. rewrite list_lookup_fmap, Hp. reflexivity.
  - change (map Nodes h) with (Nodes <$> h).
    unfold addr in *. rewrite list_lookup_fmap, Hq. reflexivity.
  - apply list_elem_of_In. exact H1.
  - apply list_elem_of_In. exact H2.
Qed.



Lemma rows_NoDup h :
  unshared h -> forall (p : addr) pd, h !! p = Some pd -> NoDup (Nodes pd).
Proof.
  intros Hun p pd Hp.
  apply (concat_row_NoDup (map Nodes h) p); [exact Hun|].
  change (map Nodes h) with (Nodes <$> h).
  unfold addr in *. rewrite list_lookup_fmap, Hp. reflexivity.
Qed.

Lemma two_leaves_built : built two_leaves.
Proof.
  apply (built_AddNode
           (state_of (AddNode 0 (AString "A") (state_of (New init))))
           0%nat (AString "B") 0%nat); [|reflexivity].
  apply (built_AddNode (state_of (New init)) 0%nat (AString "A") 0%nat);
    [|reflexivity].
  apply (built_New init 0%nat); [exact built_init|reflexivity].
Qed.


Lemma two_line_leaf_built : built two_line_leaf.
Proof.
  apply (built_AddNode
           (state_of (AddBranch 0 (AString "b") (state_of (New init))))
           1%nat (AString ("x" +:+ nl +:+ "y")) 1%nat); [|reflexivity].
  apply (built_AddBranch (state_of (New init)) 0%nat (AString "b") 1%nat);
    [|reflexivity].
  apply (built_New init 0%nat); [exact built_init|reflexivity].
Qed.

(** ** Searches and visits on built trees *)


(** ** Setting values and metas *)

Lemma SetValue_run (a : addr) nd v s :
  heap s !! a = Some nd ->
  SetValue a v s = Ok tt (with_heap s (alter (with_value v) a (heap s))).
Proof.
  intros Ha. unfold SetValue. rewrite (bind_load _ _ _ _ Ha).
  unfold store. rewrite Ha. do 2 f_equal. unfold addr in *.
  apply list_eq. intros i. destruct (decide (i = a)) as [->|Hne].
  - rewrite list_lookup_alter_eq, Ha.
    apply list_lookup_insert_eq. eapply lookup_lt_Some. exact Ha.
  - rewrite list_lookup_alter_ne, list_lookup_insert_ne by congruence.
    reflexivity.
Qed.

Lemma relabel_cons v (x : nat) (l : list nat) h :
  relabel v (x :: l) h = relabel v l (alter (with_value v) x h).
Proof. reflexivity. Qed.

Lemma relabel_lookup v (l : list nat) : forall h (a : nat),
  relabel v l h !! a
  = if bool_decide (a ∈ l) then with_value v <$> h !! a else h !! a.
Proof.
  induction l as [|x l IH]; intros h a; [reflexivity|].
  rewrite relabel_cons, IH. destruct (decide (a = x)) as [->|Hne].
  - rewrite list_lookup_alter_eq.
    rewrite (bool_decide_eq_true_2 (x ∈ x :: l)) by constructor.
    destruct (bool_decide (x ∈ l)); [|reflexivity].
    destruct (h !! x); reflexivity.
  - rewrite list_lookup_alter_ne by congruence.
    destruct (bool_decide (a ∈ l)) eqn:E.
    + apply bool_decide_eq_true in E.
      rewrite bool_decide_eq_true_2 by (constructor; exact E). reflexivity.
    + apply bool_decide_eq_false in E.
      rewrite bool_decide_eq_false_2; [reflexivity|].
      intros Hin. apply elem_of_cons in Hin as [?|?]; congruence.
Qed.

Lemma relabel_shape v l h : map Nodes (relabel v l h) = map Nodes h.
Proof.
  unfold addr in *.
  apply list_eq. intros i. rewrite !list_lookup_fmap, relabel_lookup.
  destruct (bool_decide (i ∈ l)); [|reflexivity].
  destruct (h !! i); reflexivity.
Qed.

Lemma foldM_SetValue v l : forall s,
  Forall (fun a => is_Some (heap s !! a)) l ->
  foldM (visit (fun a (_ : unit) => SetValue a v)) l tt s
  = Ok tt (with_heap s (relabel v l (heap s))).
Proof.
  induction l as [|a l IH]; intros s Hl.
  - cbn. unfold ret. rewrite with_heap_same. reflexivity.
  - apply Forall_cons in Hl as [[nd Ha] Hl]. cbn [foldM]. unfold visit at 1.
    rewrite (bind_Ok _ _ _ _ _ (SetValue_run a nd v s Ha)).
    rewrite IH.
    + reflexivity.
    + eapply Forall_impl; [exact Hl|]. intros b [bd Hb]. cbn [heap with_heap].
      unfold addr in *. destruct (decide (b = a)) as [->|Hne].
      * rewrite list_lookup_alter_eq, Ha. eauto.
      * rewrite list_lookup_alter_ne, Hb by congruence. eauto.
Qed.

(** ** The padding of a line and the segments in front of it *)

Lemma drop_last_flag {A : Type} `{EqDecision A} (l : list A) (i : nat) x rest :
  NoDup l -> drop i l = x :: rest ->
  bool_decide (last l = Some x) = is_nil rest.
Proof.
  intros Hnd Hdrop.
  assert (Hl : l = take i l ++ x :: rest)
    by (rewrite <- Hdrop; symmetry; apply take_drop).
  destruct rest as [|y rest]; cbn [is_nil].
  - apply bool_decide_eq_true_2. rewrite Hl. apply last_snoc.
  - apply bool_decide_eq_false_2. intros Hlast.
    rewrite Hl in Hnd. apply NoDup_app in Hnd as (_ & _ & Hnd).
    apply NoDup_cons in Hnd as [Hx _]. apply Hx.
    rewrite Hl, last_app_cons, last_cons_cons in Hlast.
    apply last_Some_elem_of. exact Hlast.
Qed.

Lemma sib_calls_walk h fuel :
  tree_shaped h ->
  (forall (p : addr) pd, h !! p = Some pd -> NoDup (Nodes pd)) ->
  forall (p : addr) pd level ended anc,
    h !! p = Some pd ->
    upward h p (map snd anc) ->
    forall rest ts i,
      drop i (Nodes pd) = rest ->
      Forall2 (fun c k => unfold fuel h c = Some k) rest ts ->
      (forall (x : addr) xd, In x (flat_map preorder ts) ->
         h !! x = Some xd -> Root xd <> None) ->
      Forall (fun c => upward h (c_node c) (map snd (c_anc c) ++ [c_end c]))
        (sib_calls p level ended anc i ts).
Proof.
  intros Hts Hrows. induction fuel as [|f IH];
    intros p pd level ended anc Hp Hup rest ts i Hdrop HF Hatt.
  - destruct HF; [constructor|discriminate].
  - revert ts i Hdrop HF Hatt.
    induction rest as [|node rest IHrest]; intros ts i Hdrop HF Hatt.
    + inversion HF; subst. constructor.
    + inversion HF as [|? t ? ts' Hnode HF']; subst.
      apply unfold_S in Hnode as (nd & ks & Hnd & -> & Hks).
      cbn [sib_calls]. rewrite node_calls_eq.
      assert (Hi : In node (Nodes pd)).
      { apply list_elem_of_In. rewrite <- (take_drop i (Nodes pd)), Hdrop.
        apply elem_of_app. right. constructor. }
      assert (HR : Root nd = Some p).
      { destruct (proj1 (List.Forall_forall _ _) (Hts p pd Hp) node Hi)
          as (_ & cd & Hcd & [HR|HR]).
        - exfalso. rewrite Hnd in Hcd. injection Hcd as <-.
          apply (Hatt node nd); [left; reflexivity|exact Hnd|exact HR].
        - rewrite Hnd in Hcd. injection Hcd as <-. exact HR. }
      assert (Hflag : bool_decide (last (Nodes pd) = Some node)
                      = is_nil ts').
      { rewrite (drop_last_flag (Nodes pd) i node rest (Hrows p pd Hp) Hdrop).
        destruct HF'; reflexivity. }
      assert (Hwalk : upward h node (map snd anc ++ [is_nil ts'])).
      { rewrite <- Hflag.
        exact (upward_step h node nd p pd (map snd anc) Hnd HR Hp Hup). }
      apply Forall_cons. split; [|apply Forall_app; split].
      * cbn. exact Hwalk.
      * assert (Hwalk' : upward h node
                           (map snd (anc ++ [(node, is_nil ts')])))
          by (rewrite map_app; exact Hwalk).
        apply (IH node nd (level + 1)%Z _ _ Hnd Hwalk' (Nodes nd) ks O
                 (drop_0 _) Hks).
        intros x xd Hx. apply Hatt. cbn [flat_map preorder].
           right. apply in_or_app. left. exact Hx.
      * apply IHrest; [|exact HF'|].
        -- transitivity (drop 1 (drop i (Nodes pd))).
           { rewrite drop_drop. f_equal. lia. }
           rewrite Hdrop. reflexivity.
        -- intros x xd Hx. apply Hatt. cbn [flat_map].
           apply in_or_app. right. exact Hx.
Qed.

(** ** A visitor that adds children *)

Lemma adding_visitor_runs_on v fuel :
  forall s (a : addr) ad u,
    tree_shaped (heap s) ->
    heap s !! a = Some ad -> Nodes ad <> [] ->
    VisitAll fuel a (adding_visitor v) u s = Timeout.
Proof.
  induction fuel as [|f IH]; intros s a ad u Hts Ha Hne; [reflexivity|].
  cbn [VisitAll]. rewrite (bind_load _ _ _ _ Ha).
  destruct (Nodes ad) as [|c rest] eqn:Hns; [congruence|].
  cbn [visit_range].
  destruct (proj1 (List.Forall_forall _ _) (Hts a ad Ha) c)
    as (_ & cd & Hc & _); [rewrite Hns; left; reflexivity|].
  assert (Hadd : adding_visitor v c u s
                 = Ok (u ++ [c]) (with_child s c cd ANil v)).
  { unfold adding_visitor, AddNode.
    rewrite (bind_Ok _ _ _ _ _ (add_child_Ok c cd ANil v (fun x _ => x) s Hc)).
    reflexivity. }
  rewrite (bind_Ok _ _ _ _ _ Hadd).
  destruct (with_child_lookup s c cd ANil v Hc) as (Hc1 & _).
  rewrite (bind_load _ _ _ _ Hc1). cbn [Nodes].
  assert (Hpos : (0 <? length (Nodes cd ++ [length (heap s)]))%nat = true).
  { apply Nat.ltb_lt. rewrite length_app. cbn. lia. }
  rewrite Hpos. apply bind_Timeout.
  eapply IH; [|exact Hc1|].
  - unfold with_child. cbn [heap with_heap].
    apply tree_shaped_add; [exact Hts|exact Hc|reflexivity..].
  - cbn [Nodes]. intros E. apply app_eq_nil in E as [_ E]. discriminate E.
Qed.

(** ** Lines with values of several lines *)

Lemma renderValue_padded level (a : addr) cd fl s :
  (0 <= IndentSize s)%Z -> (0 <= level + 1)%Z ->
  heap s !! a = Some cd ->
  upward (heap s) a fl ->
  (Z.of_nat (length fl) <= level + 1)%Z ->
  renderValue level a s = Ok (padded (walk_padding s fl) cd) s.
Proof.
  intros Hind Hlevel Ha Hup Hlen. unfold padded.
  destruct (Split_cases (Sprint (Value cd))) as [[l Hs]|(l1 & l2 & ls & Hs)].
  - rewrite Hs. exact (renderValue_single level a cd l s Ha Hs).
  - rewrite Hs.
    rewrite (renderValue_lines level a cd l1 l2 ls fl s Hind Hlevel Ha Hs Hup).
    destruct (Z.leb_spec (Z.of_nat (length fl)) (level + 1));
      [reflexivity|lia].
Qed.

Section PaddedLines.
Context {W : Type} `{IOWriter W}.

Lemma emit_padded (w : W) c cd fl s :
  (0 <= IndentSize s)%Z ->
  c_level c = Z.of_nat (length (c_anc c)) ->
  (forall (d : nat) x, c_anc c !! d = Some x ->
     isEnded (c_ended c) (Z.of_nat d) = x.2) ->
  heap s !! c_node c = Some cd ->
  upward (heap s) (c_node c) fl ->
  (Z.of_nat (length fl) <= c_level c + 1)%Z ->
  emit w c s = Ok (feed w (line_chunks s c cd (walk_padding s fl))) s.
Proof.
  intros Hind Hlev Hanc Hcd Hup Hlen. unfold emit. rewrite bind_gets.
  rewrite printValues_line by exact Hind.
  rewrite (bind_Ok _ _ _ _ _
             (renderValue_padded (c_level c) (c_node c) cd fl s Hind
                ltac:(lia) Hcd Hup Hlen)).
  rewrite (bind_load _ _ _ _ Hcd).
  rewrite Hlev, (segments_anc s (c_ended c) (c_anc c) Hanc). reflexivity.
Qed.

Lemma foldM_emit_lines s cs lines :
  Forall2 (fun c l => forall w : W, emit w c s = Ok (feed w l) s) cs lines ->
  forall w : W, foldM emit cs w s = Ok (feed w (concat lines)) s.
Proof.
  induction 1 as [|c l cs lines Hc _ IH]; intros w; [reflexivity|].
  cbn [foldM concat]. rewrite (bind_Ok _ _ _ _ _ (Hc w)), IH, feed_app.
  reflexivity.
Qed.
End PaddedLines.

Lemma Forall_pick {A B : Type} (P : A -> B -> Prop) (l : list A) :
  Forall (fun a => exists b, P a b) l -> exists k, Forall2 P l k.
Proof.
  induction 1 as [|a l [b Hb] _ [k Hk]].
  - exists []. constructor.
  - exists (b :: k). constructor; assumption.
Qed.

Section EmitChunks.
Context {W : Type} `{IOWriter W}.

Lemma foldM_emit_chunks (f : call -> list string) s cs :
  Forall (fun c => forall w : W, emit w c s = Ok (feed w (f c)) s) cs ->
  forall w : W, foldM emit cs w s = Ok (feed w (flat_map f cs)) s.
Proof.
  induction 1 as [|c cs Hc _ IH]; intros w; [reflexivity|].
  cbn [foldM flat_map]. rewrite (bind_Ok _ _ _ _ _ (Hc w)), IH, feed_app.
  reflexivity.
Qed.
End EmitChunks.

(** * The claims *)

(** C1 (code defect).  On root -> "a" -> "b", [FindByValue] for "b"
    answers nil although the grandchild's value equals the target, since
    the recursion descends through [FindByMeta]; the node found by
    pre-order comparison of values is the grandchild.  For the same
    reason a target equal to a grandchild's meta is answered with that
    grandchild, whose value differs. *)
Theorem FindByValue_misses_grandchild :
  unfold 3 (heap chain3) 0 = Some (T 0 [T 1 [T 2 []]]) /\
  Value_at (heap chain3) 2 = AString "b" /\
  first_by_value (heap chain3) (AString "b") (T 0 [T 1 [T 2 []]]) = Some 2%nat /\
  FindByValue 3 0 (AString "b") chain3 = Ok None chain3 /\
  FindByValue 3 0 (AInt 1) meta_chain = Ok (Some 2%nat) meta_chain /\
  Value_at (heap meta_chain) 2 = AString "x".
Proof. repeat split; vm_compute; reflexivity. Qed.




(** C3 (as stated, refuted).  In the tree of [small_tree], "C" has the
    ancestor "B", which is not the last child of the root.  A render
    started at the root shows the link of "B" in front of "C"; a render
    started at "B" prints "B" and "C" both at level 0 and shows no link
    at all. *)
Lemma no_link_below_start_node :
  String_ 3 0 small_tree
  = Ok ("." +:+ nl +:+
        "├─ [1]  x" +:+ nl +:+
        "├─ B" +:+ nl +:+
        "│   └─ C" +:+ nl +:+
        "└─ D" +:+ nl) small_tree /\
  String_ 3 2 small_tree
  = Ok ("├─ B" +:+ nl +:+ "└─ C" +:+ nl) small_tree /\
  ~ link_below_open_ancestor small_tree 2.
Proof.
  split; [vm_compute; reflexivity|].
  split; [vm_compute; reflexivity|].
  intros Hclaim.
  specialize (Hclaim 3%nat (T 2 [T 3 []]) ("├─ B" +:+ nl +:+ "└─ C" +:+ nl)
                small_tree 3%nat 2%nat
                {| Root := Some 2%nat; Meta := ANil; Value := AString "C";
                   Nodes := [] |}
                {| Root := Some 0%nat; Meta := ANil; Value := AString "B";
                   Nodes := [3%nat] |}
                0%nat
                {| Root := None; Meta := ANil; Value := AString ".";
                   Nodes := [1; 2; 4]%nat |}
                eq_refl).
  assert (Hrun : String_ 3 2 small_tree
                 = Ok ("├─ B" +:+ nl +:+ "└─ C" +:+ nl) small_tree)
    by (vm_compute; reflexivity).
  specialize (Hclaim Hrun (or_introl eq_refl) eq_refl eq_refl eq_refl eq_refl
                eq_refl).
  assert (Hlast : last [1; 2; 4]%nat <> Some 2%nat) by discriminate.
  specialize (Hclaim Hlast). vm_compute in Hclaim. discriminate Hclaim.
Qed.

(** C3 (amended).  [printValues] starts a line at level L with one
    segment per depth below L, blank when the depth is among the ended
    levels and a vertical link otherwise.  In a render, the ended levels a
    line sees are exactly the depths of its ancestors below the start
    node that got the end connector, so the segment at the depth of such
    an ancestor is a link exactly when that ancestor was not the last
    sibling, whatever was printed in other branches; the start node and
    the nodes above it give no segment.  This also holds of
    [levelsEnded] as a Go slice: the appends made further down never
    show in the window of a slice held further up. *)
Theorem indentation {W : Type} `{IOWriter W} fuel s n nd t :
  (0 <= IndentSize s)%Z ->
  heap s !! n = Some nd ->
  unfold fuel (heap s) n = Some t ->
  (forall (wr : W) level levelsEnded edge node,
     printValues wr level levelsEnded edge node s
     = (let! val := renderValue level node in
        let! cd := load node in
        ret (feed wr
               (map (fun i => if isEnded levelsEnded i then blank s else link s)
                  (seqZ 0 level)
                ++ [edge +:+ " " +:+ label cd val +:+ nl]))) s) /\
  (forall w : W,
     Writer fuel n w s
     = (let! w := own_line n nd w in foldM emit (Writer_calls n t) w) s) /\
  Forall (fun c =>
            c_level c = Z.of_nat (length (c_anc c)) /\
            (forall (d : nat) x, c_anc c !! d = Some x ->
               isEnded (c_ended c) (Z.of_nat d) = x.2) /\
            (forall (d : nat) x, c_anc c !! d = Some x ->
               exists c' pd, c' ∈ Writer_calls n t /\
                 c_node c' = x.1 /\ c_level c' = Z.of_nat d /\
                 heap s !! c_parent c' = Some pd /\
                 Nodes pd !! c_index c' = Some x.1 /\
                 (x.2 = true <-> S (c_index c') = length (Nodes pd))) /\
            (forall wr : W,
               emit wr c s
               = (let! val := renderValue (c_level c) (c_node c) in
                  let! cd := load (c_node c) in
                  ret (feed wr
                         (map (fun x : addr * bool =>
                                 if x.2 then blank s else link s)
                            (c_anc c)
                          ++ [(if c_end c then EdgeTypeEnd s
                               else EdgeTypeMid s)
                              +:+ " " +:+ label cd val +:+ nl]))) s))
    (Writer_calls n t) /\
  (forall (grow : nat -> nat) (w : W) level m sl nodes,
     slice_ok m sl ->
     agree (same_lines m sl)
       (printNodes_sl grow fuel w level m sl nodes s)
       (printNodes fuel w level (view m sl) nodes s)).
Proof.
  intros Hind Hn Ht. split; [|split; [|split]];
    [| | |intros grow w level m sl nodes Hok;
          apply printNodes_by_value; exact Hok].
  - intros wr level levelsEnded edge node.
    apply printValues_line. exact Hind.
  - intros w. apply Writer_lines; assumption.
  - pose proof Ht as Ht'.
    apply unfold_kids in Ht' as (nd' & Hn' & _ & Hks).
    rewrite Hn in Hn'. injection Hn' as <-.
    assert (Hok : Forall (call_ok (heap s)) (Writer_calls n t)).
    { apply (sib_calls_ok (heap s) fuel n nd 0%Z [] [] (kids_of t) Hn Hks).
      split; [reflexivity|]. split.
      - intros e He. inversion He.
      - intros d x Hd. discriminate Hd. }
    pose proof (Writer_calls_linked n t) as Hlink.
    apply Forall_forall. intros c Hc.
    pose proof (proj1 (Forall_forall _ _) Hok c Hc) as (Hsib & Hlev & Hanc).
    pose proof (proj1 (Forall_forall _ _) Hlink c Hc) as Hl.
    split; [exact Hlev|]. split; [exact Hanc|]. split.
    + intros d x Hd. destruct (Hl d x Hd) as (c' & Hin & Hnode & Hend & Hd').
      pose proof (proj1 (Forall_forall _ _) Hok c' Hin)
        as ((pd & Hpd & Hidx & Hiff) & _).
      exists c', pd. rewrite <- Hnode, <- Hend. repeat split; tauto.
    + intros wr. unfold emit. rewrite bind_gets.
      rewrite printValues_line by exact Hind.
      rewrite Hlev.
      rewrite (segments_anc s (c_ended c) (c_anc c) Hanc). reflexivity.
Qed.

Lemma indentation_witness :
  let t := T 0 [T 1 []; T 2 [T 3 []]; T 4 []] in
  let c := {| c_parent := 2%nat; c_index := 0%nat; c_node := 3%nat;
              c_level := 1; c_ended := [1%Z]; c_end := true;
              c_anc := [(2%nat, false)] |} in
  let t' := T 0 [T 1 [T 2 []]] in
  let c' := {| c_parent := 1%nat; c_index := 0%nat; c_node := 2%nat;
               c_level := 1; c_ended := [0%Z; 1%Z]; c_end := true;
               c_anc := [(1%nat, true)] |} in
  (0 <= IndentSize small_tree)%Z /\
  unfold 3 (heap small_tree) 0 = Some t /\
  c ∈ Writer_calls 0 t /\
  (forall wr : Buffer,
     emit wr c small_tree
     = Ok (feed wr ["│   "; "└─ C" +:+ nl]) small_tree) /\
  (0 <= IndentSize chain3)%Z /\
  unfold 3 (heap chain3) 0 = Some t' /\
  c' ∈ Writer_calls 0 t' /\
  (forall wr : Buffer,
     emit wr c' chain3 = Ok (feed wr ["    "; "└─ b" +:+ nl]) chain3).
Proof.
  intros t c t' c'.
  assert (Hind : (0 <= IndentSize small_tree)%Z) by (cbn; lia).
  assert (Hind' : (0 <= IndentSize chain3)%Z) by (cbn; lia).
  assert (Hc : c ∈ Writer_calls 0 t)
    by (apply list_elem_of_In; cbn; tauto).
  assert (Hc' : c' ∈ Writer_calls 0 t')
    by (apply list_elem_of_In; cbn; tauto).
  pose proof (indentation (W := Buffer) 3 small_tree 0%nat _ t Hind eq_refl
                eq_refl) as (_ & _ & Hall & _).
  pose proof (indentation (W := Buffer) 3 chain3 0%nat _ t' Hind' eq_refl
                eq_refl) as (_ & _ & Hall' & _).
  pose proof (proj1 (Forall_forall _ _) Hall c Hc) as (_ & _ & _ & Hemit).
  pose proof (proj1 (Forall_forall _ _) Hall' c' Hc') as (_ & _ & _ & Hemit').
  split; [exact Hind|]. split; [reflexivity|]. split; [exact Hc|].
  split; [intros wr; rewrite (Hemit wr); reflexivity|].
  split; [exact Hind'|]. split; [reflexivity|]. split; [exact Hc'|].
  intros wr. rewrite (Hemit' wr). reflexivity.
Defined.

(** C4 (code defect).  In root -> "b" -> "x\ny", the walk from the leaf
    passes the leaf and "b", both last children, so the continuation line
    should get two blank segments in front.  A render started at the root
    does that; a render started at "b", which prints the leaf at level 0,
    writes [links[-1]] on the second step of the walk and panics. *)
Theorem padding_panics_in_subtree_render :
  upward (heap two_line_leaf) 2 [true; true] /\
  walk_padding two_line_leaf [true; true] = spaces 8 /\
  String_ 3 0 two_line_leaf
  = Ok ("." +:+ nl +:+
        "└─ b" +:+ nl +:+
        "    └─ x" +:+ nl +:+
        spaces 8 +:+ "y" +:+ nl) two_line_leaf /\
  padding 0 2 two_line_leaf = Panic /\
  String_ 3 1 two_line_leaf = Panic.
Proof.
  split.
  - apply (upward_step _ 2%nat
             {| Root := Some 1%nat; Meta := ANil;
                Value := AString ("x" +:+ nl +:+ "y"); Nodes := [] |}
             1%nat
             {| Root := Some 0%nat; Meta := ANil; Value := AString "b";
                Nodes := [2%nat] |} [true]); try reflexivity.
    apply (upward_step _ 1%nat
             {| Root := Some 0%nat; Meta := ANil; Value := AString "b";
                Nodes := [2%nat] |}
             0%nat
             {| Root := None; Meta := ANil; Value := AString ".";
                Nodes := [1%nat] |} []); try reflexivity.
    apply (upward_top _ 0%nat
             {| Root := None; Meta := ANil; Value := AString ".";
                Nodes := [1%nat] |}); reflexivity.
  - repeat split; vm_compute; reflexivity.
Qed.

(** C5.  Rendering returns the state it was given: no field of any node
    (and no package variable) changes.  Hence rendering twice gives the
    same bytes twice, for [Bytes], [String] and [Writer] alike.  For a
    tree built through the public operations, fuel for the whole heap
    suffices for the render to end, and a render started at a node without
    parent returns its bytes. *)
Theorem render_idempotent fuel (n : addr) s :
  built s ->
  (n < length (heap s))%nat ->
  (length (heap s) <= fuel)%nat ->
  (forall (W : Type) (HW : IOWriter W) (w w' : W) s',
     Writer fuel n w s = Ok w' s' -> s' = s) /\
  (forall b s', Bytes fuel n s = Ok b s' -> s' = s) /\
  (forall str s', String_ fuel n s = Ok str s' -> s' = s) /\
  (let! a := Bytes fuel n in let! b := Bytes fuel n in ret (a, b)) s
  = (let! a := Bytes fuel n in ret (a, a)) s /\
  (let! a := String_ fuel n in let! b := String_ fuel n in ret (a, b)) s
  = (let! a := String_ fuel n in ret (a, a)) s /\
  (forall (W : Type) (HW : IOWriter W) (w : W),
     (let! a := Writer fuel n w in let! b := Writer fuel n w in ret (a, b)) s
     = (let! a := Writer fuel n w in ret (a, a)) s) /\
  Bytes fuel n s <> Timeout /\
  ((0 <= IndentSize s)%Z ->
   (exists nd, heap s !! n = Some nd /\ Root nd = None) ->
   exists b, Bytes fuel n s = Ok b s /\
             String_ fuel n s = Ok (string_of_list_byte b) s).
Proof.
  intros Hb Hn Hfuel.
  assert (Htwice : forall (A : Type) (m : M A),
             readonly m ->
             (let! a := m in let! b := m in ret (a, b)) s
             = (let! a := m in ret (a, a)) s).
  { intros A m Hm. unfold bind. destruct (m s) as [a s1| |] eqn:E;
      [|reflexivity..].
    apply Hm in E as E'. subst s1. rewrite E. reflexivity. }
  pose proof (built_tree_shaped s Hb) as Hts.
  destruct (unfold_total (heap s) Hts fuel n Hn ltac:(lia)) as [t Ht].
  assert (Hex : exists nd, heap s !! n = Some nd)
    by (apply lookup_lt_is_Some_2; exact Hn).
  destruct Hex as [nd Hnd].
  split; [intros W HW w w' s'; apply readonly_Writer|].
  split; [intros b s'; apply readonly_Bytes|].
  split; [intros str s'; apply readonly_String|].
  split; [apply Htwice, readonly_Bytes|].
  split; [apply Htwice, readonly_String|].
  split; [intros W HW w; apply Htwice, readonly_Writer|].
  split.
  - unfold Bytes, bind. cbv zeta.
    destruct (Writer fuel n ([] : Buffer) s) as [b s1| |] eqn:E;
      [discriminate..|].
    exfalso. exact (terminates_Writer fuel n nd t _ s Hnd Ht E).
  - intros Hind (nd' & Hnd' & HR). rewrite Hnd in Hnd'. injection Hnd' as <-.
    destruct (Writer_returns (W := Buffer) fuel n nd t [] s Hts Hind Hnd HR Ht)
      as [b Eb].
    exists b. unfold String_, Bytes. cbv zeta.
    rewrite !bind_assoc, !(bind_Ok _ _ _ _ _ Eb). split; reflexivity.
Qed.

Lemma render_idempotent_witness :
  built two_leaves /\
  (0 < length (heap two_leaves))%nat /\
  (length (heap two_leaves) <= 3)%nat /\
  (let! a := Bytes 3 0 in let! b := Bytes 3 0 in ret (a, b)) two_leaves
  = (let! a := Bytes 3 0 in ret (a, a)) two_leaves.
Proof.
  assert (Hb : built two_leaves).
  { apply (built_AddNode
             (state_of (AddNode 0 (AString "A") (state_of (New init))))
             0%nat (AString "B") 0%nat); [|reflexivity].
    apply (built_AddNode (state_of (New init)) 0%nat (AString "A") 0%nat);
      [|reflexivity].
    apply (built_New init 0%nat); [exact built_init|reflexivity]. }
  split; [exact Hb|]. split; [cbn; lia|]. split; [cbn; lia|].
  refine (proj1 (proj2 (proj2 (proj2
    (render_idempotent 3 0%nat two_leaves Hb _ _))))); cbn; lia.
Defined.

(** C6.  The line of a node with meta 1 and value "x" is the indentation,
    then the connector, a space and [[1]  x]; more generally the label
    after the connector is the bare value exactly when the meta is nil, so
    metas such as 0 or false still show in brackets.  [Writer] started at
    a node without parent writes the same label without a connector, then
    the line break, and goes on with the calls of [printValues] for the
    descendants; started at a leaf that has a parent it is the call of
    [printValues] for that leaf. *)
Theorem meta_prefix {W : Type} `{IOWriter W} (wr : W) level levelsEnded edge
    node nd s :
  (0 <= IndentSize s)%Z ->
  heap s !! node = Some nd ->
  (Meta nd = AInt 1 -> Value nd = AString "x" ->
   printValues wr level levelsEnded edge node s
   = Ok (feed wr (map (fun i => segment s (isEnded levelsEnded i))
                    (seqZ 0 level)
                  ++ [edge +:+ " " +:+ "[1]  x" +:+ nl])) s) /\
  printValues wr level levelsEnded edge node s
  = (let! val := renderValue level node in
     ret (feed wr (map (fun i => segment s (isEnded levelsEnded i))
                     (seqZ 0 level)
                   ++ [edge +:+ " " +:+ label nd val +:+ nl]))) s /\
  (forall val, label nd val = Sprint val <-> Meta nd = ANil) /\
  (forall val, Meta nd <> ANil ->
     label nd val = "[" +:+ Sprint (Meta nd) +:+ "]  " +:+ Sprint val) /\
  (forall val, Meta nd = AInt 0 -> label nd val = "[0]  " +:+ Sprint val) /\
  (forall val, Meta nd = ABool false ->
     label nd val = "[false]  " +:+ Sprint val) /\
  (forall fuel t, Root nd = None ->
     unfold fuel (heap s) node = Some t ->
     Writer fuel node wr s
     = foldM emit (Writer_calls node t)
         (feed wr [label nd (Value nd); nl]) s) /\
  (forall fuel, Root nd = None -> Nodes nd = [] ->
     Writer fuel node wr s = Ok (feed wr [label nd (Value nd); nl]) s) /\
  (forall fuel, Root nd = None -> Nodes nd = [] ->
     Meta nd = AInt 1 -> Value nd = AString "x" ->
     Writer fuel node wr s = Ok (feed wr ["[1]  x"; nl]) s) /\
  (forall fuel, Root nd <> None -> Nodes nd = [] ->
     Writer fuel node wr s
     = printValues wr 0 [0%Z] (EdgeTypeEnd s) node s).
Proof.
  intros Hind Hnd.
  assert (Hline : printValues wr level levelsEnded edge node s
    = (let! val := renderValue level node in
       ret (feed wr (map (fun i => segment s (isEnded levelsEnded i))
                       (seqZ 0 level)
                     ++ [edge +:+ " " +:+ label nd val +:+ nl]))) s).
  { rewrite printValues_line by exact Hind.
    bind_case (renderValue level node) s Er; [|reflexivity..].
    apply readonly_renderValue in Er. subst s0.
    rewrite (bind_load _ _ _ _ Hnd). reflexivity. }
  assert (Hleaf : forall fuel, Root nd = None -> Nodes nd = [] ->
             Writer fuel node wr s
             = Ok (feed wr [label nd (Value nd); nl]) s).
  { intros fuel HR Hns. unfold Writer. cbv zeta.
    rewrite (bind_load _ _ _ _ Hnd), HR, bind_ret, Hns. cbn [length Nat.ltb Nat.leb].
    unfold label. destruct (Meta nd); reflexivity. }
  split; [|split; [exact Hline|]].
  - intros Hm Hv. rewrite Hline. unfold renderValue.
    rewrite bind_assoc, (bind_load _ _ _ _ Hnd), Hv.
    cbn [Sprint strings_Split].
    unfold label. rewrite Hm. reflexivity.
  - split; [intros val; apply label_bare|].
    split; [|split; [|split; [|split; [|split; [|split]]]]].
    + intros val Hm. unfold label. destruct (Meta nd); [congruence|reflexivity..].
    + intros val Hm. unfold label. rewrite Hm. reflexivity.
    + intros val Hm. unfold label. rewrite Hm. reflexivity.
    + intros fuel t HR Ht. rewrite (Writer_lines fuel node nd t wr s Hnd Ht).
      unfold own_line. rewrite HR, bind_ret. reflexivity.
    + exact Hleaf.
    + intros fuel HR Hns Hm Hv. rewrite (Hleaf fuel HR Hns).
      unfold label. rewrite Hm, Hv. reflexivity.
    + intros fuel HR Hns. unfold Writer. cbv zeta.
      rewrite (bind_load _ _ _ _ Hnd). destruct (Root nd); [|congruence].
      rewrite bind_assoc, bind_gets. rewrite Hns.
      cbn [length Nat.eqb Nat.ltb Nat.leb app].
      rewrite bind_assoc, bind_gets, bind_assoc.
      bind_case (printValues wr 0 [0%Z] (EdgeTypeEnd s) node) s Ep;
        reflexivity.
Qed.

Lemma meta_prefix_witness :
  let nd := {| Root := Some 0%nat; Meta := AInt 1; Value := AString "x";
               Nodes := [] |} in
  let rd := {| Root := None; Meta := AInt 1; Value := AString "x";
               Nodes := [] |} in
  (0 <= IndentSize small_tree)%Z /\
  heap small_tree !! 1%nat = Some nd /\
  printValues ([] : Buffer) 0 [] "├─" 1 small_tree
  = Ok (feed ([] : Buffer) ["├─" +:+ " " +:+ "[1]  x" +:+ nl]) small_tree /\
  (0 <= IndentSize meta_root)%Z /\
  heap meta_root !! 0%nat = Some rd /\
  Writer 1 0 ([] : Buffer) meta_root
  = Ok (feed ([] : Buffer) ["[1]  x"; nl]) meta_root.
Proof.
  intros nd rd. split; [cbn; lia|]. split; [reflexivity|]. split.
  - refine (proj1 (meta_prefix (W := Buffer) [] 0 [] "├─" 1%nat nd
                     small_tree _ eq_refl) eq_refl eq_refl).
    cbn. lia.
  - split; [cbn; lia|]. split; [reflexivity|].
    refine (proj1 (proj2 (proj2 (proj2 (proj2 (proj2 (proj2 (proj2
              (proj2 (meta_prefix (W := Buffer) [] 0 [] "" 0%nat rd
                        meta_root _ eq_refl))))))))) 1%nat
              eq_refl eq_refl eq_refl eq_refl).
    cbn. lia.
Defined.

(** C7 (as stated, refuted).  A visitor that adds a child to the node it
    is called on makes [VisitAll] descend for ever below the first
    child: whatever the fuel, the recursion into child 1 does not
    return, so neither does the call on the root, and the visitor is
    never called on child 2. *)
Lemma adding_visitor_never_leaves_first_child :
  unfold 2 (heap two_leaves) 0 = Some (T 0 [T 1 []; T 2 []]) /\
  (exists s',
     foldM (visit (adding_visitor (AString "n"))) [1; 2]%nat [] two_leaves
     = Ok [1; 2]%nat s') /\
  (forall fuel u,
     VisitAll fuel 1 (adding_visitor (AString "n")) u
       (state_of (adding_visitor (AString "n") 1 [] two_leaves))
     = Timeout) /\
  (forall fuel,
     VisitAll fuel 0 (adding_visitor (AString "n")) [] two_leaves = Timeout) /\
  ~ visit_order_for_every_visitor two_leaves 0.
Proof.
  pose proof (built_tree_shaped two_leaves two_leaves_built) as Hts.
  assert (Hall : forall fuel,
             VisitAll fuel 0 (adding_visitor (AString "n")) [] two_leaves
             = Timeout).
  { intros fuel.
    eapply (adding_visitor_runs_on _ fuel two_leaves 0%nat); [exact Hts|..].
    - reflexivity.
    - discriminate. }
  split; [reflexivity|]. split; [eexists; vm_compute; reflexivity|].
  split; [|split; [exact Hall|]].
  - intros fuel u.
    eapply (adding_visitor_runs_on _ fuel _ 1%nat).
    + cbn [state_of]. 
      change (tree_shaped (heap (with_child two_leaves 1
                {| Root := Some 0%nat; Meta := ANil; Value := AString "A";
                   Nodes := [] |} ANil (AString "n")))).
      unfold with_child. cbn [heap with_heap].
      apply tree_shaped_add; [exact Hts|reflexivity..].
    + vm_compute. reflexivity.
    + discriminate.
  - intros Hclaim.
    specialize (Hclaim (list addr) (adding_visitor (AString "n")) 2%nat
                  (T 0 [T 1 []; T 2 []]) [] eq_refl).
    rewrite Hall in Hclaim. vm_compute in Hclaim. discriminate Hclaim.
Qed.

(** C7 (amended).  For a visitor that leaves the children sequences alone,
    [VisitAll] calls it on the descendants of the receiver one after the
    other: each child, followed at once by that child's descendants in
    the same order, before the next child.  The receiver is not among
    them. *)
Theorem VisitAll_order {U : Type} (fn : addr -> U -> M U) fuel n t u s :
  keeps_shape fn ->
  unfold fuel (heap s) n = Some t ->
  VisitAll fuel n fn u s = foldM (visit fn) (descendants t) u s /\
  descendants t
  = flat_map (fun k => root_of k :: descendants k) (kids_of t) /\
  ~ In n (descendants t).
Proof.
  intros Hfn Ht. split; [|split].
  - apply VisitAll_preorder; assumption.
  - unfold descendants at 1. apply flat_map_ext. intros [a ks]. reflexivity.
  - apply (not_own_descendant fuel (heap s)). exact Ht.
Qed.

Lemma VisitAll_order_witness :
  let fn := fun (a : addr) (u : list addr) => ret (u ++ [a]) in
  let t := T 0 [T 1 []; T 2 [T 3 []]; T 4 []] in
  keeps_shape fn /\
  unfold 3 (heap small_tree) 0 = Some t /\
  VisitAll 3 0 fn [] small_tree = Ok [1; 2; 3; 4]%nat small_tree.
Proof.
  intros fn t.
  assert (Hfn : keeps_shape fn).
  { intros a u s u' s' E. inversion E. reflexivity. }
  split; [exact Hfn|]. split; [reflexivity|].
  rewrite (proj1 (VisitAll_order fn 3 0%nat t [] small_tree Hfn eq_refl)).
  reflexivity.
Defined.

(** C8.  [Branch] returns its receiver and changes nothing but the
    receiver's [Root], which becomes nil: the children sequence, the value
    and the meta stay, and so does every other node.  Calling it again,
    or calling it on a node without parent, changes nothing more. *)
Theorem Branch_detaches n nd s :
  heap s !! n = Some nd ->
  exists s',
    Branch n s = Ok n s' /\
    heap s' !! n = Some {| Root := None; Meta := Meta nd; Value := Value nd;
                           Nodes := Nodes nd |} /\
    (forall a : addr, a <> n -> heap s' !! a = heap s !! a) /\
    length (heap s') = length (heap s) /\
    (IndentSize s', EdgeTypeLink s', EdgeTypeMid s', EdgeTypeEnd s')
    = (IndentSize s, EdgeTypeLink s, EdgeTypeMid s, EdgeTypeEnd s) /\
    Branch n s' = Ok n s' /\
    (let! _ := Branch n in Branch n) s = Branch n s /\
    (Root nd = None -> s' = s).
Proof.
  intros Hn.
  set (nd' := {| Root := None; Meta := Meta nd; Value := Value nd;
                 Nodes := Nodes nd |}).
  set (s' := with_heap s (<[n := nd']> (heap s))).
  assert (Hlt : (n < length (heap s))%nat) by (eapply lookup_lt_Some; exact Hn).
  assert (Hrun : Branch n s = Ok n s').
  { unfold Branch. rewrite (bind_load _ _ _ _ Hn).
    unfold bind, store. rewrite Hn. reflexivity. }
  assert (Hn' : heap s' !! n = Some nd').
  { cbn. apply list_lookup_insert_eq. exact Hlt. }
  assert (Hagain : Branch n s' = Ok n s').
  { unfold Branch. rewrite (bind_load _ _ _ _ Hn').
    unfold bind, store. rewrite Hn'. cbn.
    unfold s', with_heap. cbn. rewrite list_insert_insert_eq. reflexivity. }
  exists s'. split; [exact Hrun|]. split; [exact Hn'|].
  split; [|split; [|split; [|split; [|split]]]].
  - intros a Ha. cbn. apply list_lookup_insert_ne. congruence.
  - cbn. apply length_insert.
  - reflexivity.
  - exact Hagain.
  - rewrite (bind_Ok _ _ _ _ _ Hrun), Hrun. exact Hagain.
  - intros HR. unfold s', nd'. destruct nd as [r m v ns].
    cbn in HR |- *. subst r.
    transitivity (with_heap s (heap s)); [|apply with_heap_same].
    f_equal. apply list_insert_id. exact Hn.
Qed.

Lemma Branch_detaches_witness :
  heap two_leaves !! 1%nat
  = Some {| Root := Some 0%nat; Meta := ANil; Value := AString "A";
            Nodes := [] |} /\
  exists s',
    Branch 1 two_leaves = Ok 1%nat s' /\
    heap s' !! 1%nat
    = Some {| Root := None; Meta := ANil; Value := AString "A"; Nodes := [] |}.
Proof.
  split; [reflexivity|].
  destruct (Branch_detaches 1%nat _ two_leaves eq_refl) as (s' & Hrun & Hn & _).
  exists s'. split; [exact Hrun|exact Hn].
Defined.

(** C9.  [String] is [Bytes] read back as a string, and whatever sink
    [Writer] is given, the bytes it adds to the sink are those [Bytes]
    returns: both return with the same state, or both panic, or both run
    out of fuel. *)
Theorem render_variants_agree {W : Type} `{IOWriter W}
    (contents : W -> list byte) fuel n (w : W) s :
  (forall w p, contents (Write w p) = contents w ++ list_byte_of_string p) ->
  String_ fuel n s
  = (let! b := Bytes fuel n in ret (string_of_list_byte b)) s /\
  agree (fun (b : list byte) (str : string) => str = string_of_list_byte b)
    (Bytes fuel n s) (String_ fuel n s) /\
  agree (fun (w' : W) (b : list byte) => contents w' = contents w ++ b)
    (Writer fuel n w s) (Bytes fuel n s).
Proof.
  intros Hc. split; [reflexivity|]. split.
  - unfold String_, bind. destruct (Bytes fuel n s); cbn; auto.
  - unfold Bytes.
    set (R := fun (w' : W) (b : Buffer) => contents w' = contents w ++ b).
    assert (HR : forall w1 (b1 : Buffer) p,
               R w1 b1 -> R (Write w1 p) (Write b1 p)).
    { intros w1 b1 p Hr. unfold R in *. rewrite Hc, Hr.
      change (@Write Buffer Buffer_Write b1 p)
        with (b1 ++ list_byte_of_string p).
      rewrite app_assoc. reflexivity. }
    pose proof (@agree_Writer W Buffer H Buffer_Write R HR fuel n w [] s
                  (eq_sym (app_nil_r _))) as Hag.
    revert Hag. unfold bind. cbv zeta.
    generalize (@Writer Buffer Buffer_Write fuel n [] s). intros r.
    destruct (Writer fuel n w s), r; cbn; auto.
Qed.

Lemma render_variants_agree_witness :
  (forall (w : Buffer) p, id (Write w p) = id w ++ list_byte_of_string p) /\
  agree (fun (w' : Buffer) (b : list byte) => id w' = id [x2a] ++ b)
    (Writer 2 0 [x2a] two_leaves) (Bytes 2 0 two_leaves).
Proof.
  split; [intros w p; reflexivity|].
  exact (proj2 (proj2 (render_variants_agree (W := Buffer) id 2 0%nat
                         [x2a] two_leaves (fun w p => eq_refl)))).
Defined.

(** C10.  Both searches answer with a descendant of the receiver or with
    nil, never with the receiver itself, whatever its own meta and value
    are; on a node without children they answer nil. *)
Theorem search_below_receiver fuel n nd t target s :
  heap s !! n = Some nd ->
  unfold fuel (heap s) n = Some t ->
  (exists r, FindByMeta fuel n target s = Ok r s /\
     r <> Some n /\
     (forall a, r = Some a -> In a (descendants t)) /\
     (Nodes nd = [] -> r = None)) /\
  (exists r, FindByValue fuel n target s = Ok r s /\
     r <> Some n /\
     (forall a, r = Some a -> In a (descendants t)) /\
     (Nodes nd = [] -> r = None)).
Proof.
  intros Hnd Ht.
  pose proof (not_own_descendant fuel (heap s) n t Ht) as Hself.
  pose proof Ht as Hk. apply unfold_kids in Hk as (nd' & Hnd' & _ & Hks).
  rewrite Hnd in Hnd'. injection Hnd' as <-.
  assert (Hleaf : Nodes nd = [] -> kids_of t = []).
  { intros E. rewrite E in Hks. inversion Hks. reflexivity. }
  assert (Hmeta : forall k a,
             first_by_meta (heap s) target k = Some a -> In a (descendants k)).
  { intros k a E. unfold first_by_meta in E. apply find_some in E as [E _].
    exact E. }
  split.
  - exists (first_by_meta (heap s) target t).
    split; [apply FindByMeta_first; exact Ht|].
    split; [|split].
    + intros E. apply Hmeta in E. exact (Hself E).
    + intros a E. apply Hmeta. exact E.
    + intros E. unfold first_by_meta, descendants. rewrite (Hleaf E).
      reflexivity.
  - exists (found_by_value (heap s) target t).
    split; [apply FindByValue_found; exact Ht|].
    assert (Hin : forall a, found_by_value (heap s) target t = Some a ->
                            In a (descendants t)).
    { intros a E. unfold found_by_value in E.
      apply first_hit_In in E; [exact E|]. intros k b _. apply Hmeta. }
    split; [|split].
    + intros E. apply Hin in E. exact (Hself E).
    + exact Hin.
    + intros E. unfold found_by_value. rewrite (Hleaf E). reflexivity.
Qed.

Lemma search_below_receiver_witness :
  let nd := {| Root := None; Meta := ANil; Value := AString ".";
               Nodes := [1%nat] |} in
  let t := T 0 [T 1 [T 2 []]] in
  heap chain3 !! 0%nat = Some nd /\
  unfold 3 (heap chain3) 0 = Some t /\
  exists r, FindByMeta 3 0 (AString ".") chain3 = Ok r chain3 /\
    r <> Some 0%nat /\
    (forall a, r = Some a -> In a (descendants t)) /\
    (Nodes nd = [] -> r = None).
Proof.
  intros nd t. split; [reflexivity|]. split; [reflexivity|].
  exact (proj1 (search_below_receiver 3 0%nat nd t (AString ".") chain3
                  eq_refl eq_refl)).
Defined.

(** * Further properties of the code *)

(** ** Adding children *)

(** X1.  [AddMetaBranch] allocates a node that was not in the heap, makes
    it the last child of the receiver behind the children already there,
    and returns it; the new node has the receiver as [Root], the given
    meta and value, and no children.  Nothing else changes.  [AddBranch]
    is the same with a nil meta. *)
Theorem AddMetaBranch_appends (n : addr) nd meta a s :
  heap s !! n = Some nd ->
  exists s',
    AddMetaBranch n meta a s = Ok (length (heap s)) s' /\
    AddBranch n a s = AddMetaBranch n ANil a s /\
    heap s !! length (heap s) = None /\
    heap s' !! n
    = Some {| Root := Root nd; Meta := Meta nd; Value := Value nd;
              Nodes := Nodes nd ++ [length (heap s)] |} /\
    heap s' !! length (heap s)
    = Some {| Root := Some n; Meta := meta; Value := a; Nodes := [] |} /\
    length (heap s') = S (length (heap s)) /\
    (forall c : addr, c <> n -> (c < length (heap s))%nat ->
       heap s' !! c = heap s !! c) /\
    (IndentSize s', EdgeTypeLink s', EdgeTypeMid s', EdgeTypeEnd s')
    = (IndentSize s, EdgeTypeLink s, EdgeTypeMid s, EdgeTypeEnd s).
Proof.
  intros Hn. exists (with_child s n nd meta a).
  destruct (with_child_lookup s n nd meta a Hn) as (H1 & H2 & H3 & H4).
  split; [exact (add_child_Ok n nd meta a (fun _ c => c) s Hn)|].
  split; [reflexivity|].
  split; [apply lookup_ge_None_2; lia|].
  repeat split; assumption.
Qed.

Lemma AddMetaBranch_appends_witness :
  exists s',
    AddMetaBranch 0 (AInt 7) (AString "C") two_leaves = Ok 3%nat s' /\
    heap s' !! 0%nat
    = Some {| Root := None; Meta := ANil; Value := AString ".";
              Nodes := [1; 2; 3]%nat |}.
Proof.
  destruct (AddMetaBranch_appends 0%nat _ (AInt 7) (AString "C") two_leaves
              eq_refl) as (s' & Hrun & _ & _ & Hn & _).
  exists s'. split; [exact Hrun|exact Hn].
Defined.

(** X2.  [AddNode] and [AddMetaNode] change the tree exactly as [AddBranch]
    and [AddMetaBranch] do, and differ from them in returning the
    receiver instead of the new child; a nil meta given to [AddMetaNode]
    is the same as none.  On a nil receiver they all panic. *)
Theorem AddNode_returns_receiver (n : addr) meta a s :
  AddNode n a s = (let! _ := AddBranch n a in ret n) s /\
  AddMetaNode n meta a s = (let! _ := AddMetaBranch n meta a in ret n) s /\
  AddNode n a s = AddMetaNode n ANil a s /\
  (forall r s', AddMetaNode n meta a s = Ok r s' ->
     r = n /\ AddMetaBranch n meta a s = Ok (length (heap s)) s') /\
  (heap s !! n = None ->
   AddMetaNode n meta a s = Panic /\ AddMetaBranch n meta a s = Panic).
Proof.
  assert (Hnil : heap s !! n = None ->
                 forall m, AddMetaNode n m a s = Panic /\
                           AddMetaBranch n m a s = Panic).
  { intros Hn m. unfold AddMetaNode, AddMetaBranch, bind, load.
    rewrite Hn. split; reflexivity. }
  assert (Hrel : forall m,
             AddMetaNode n m a s
             = (let! _ := AddMetaBranch n m a in ret n) s).
  { intros m. destruct (heap s !! n) as [nd|] eqn:Hn.
    - unfold AddMetaNode, AddMetaBranch.
      rewrite (add_child_Ok n nd m a (fun x _ => x) s Hn).
      rewrite (bind_Ok _ _ _ _ _ (add_child_Ok n nd m a (fun _ c => c) s Hn)).
      reflexivity.
    - destruct (Hnil eq_refl m) as [E1 E2].
      rewrite E1, (bind_Panic _ _ _ E2). reflexivity. }
  split; [exact (Hrel ANil)|]. split; [exact (Hrel meta)|].
  split; [reflexivity|]. split.
  - intros r s' E. destruct (heap s !! n) as [nd|] eqn:Hn.
    + unfold AddMetaNode in E.
      rewrite (add_child_Ok n nd meta a (fun x _ => x) s Hn) in E.
      injection E as <- <-. split; [reflexivity|].
      exact (add_child_Ok n nd meta a (fun _ c => c) s Hn).
    + destruct (Hnil eq_refl meta) as [E1 _]. congruence.
  - intros Hn. exact (Hnil Hn meta).
Qed.

(** X3.  A chain [n.AddNode(v1).AddNode(v2)...] returns the receiver and
    leaves it with its former children followed by one new leaf per
    value, in the order of the calls; the leaves are fresh nodes with the
    receiver as [Root], and no other node changes. *)
Theorem AddNode_chain_order (n : addr) nd vs s :
  heap s !! n = Some nd ->
  exists s',
    foldM AddNode vs n s = Ok n s' /\
    heap s' !! n
    = Some {| Root := Root nd; Meta := Meta nd; Value := Value nd;
              Nodes := Nodes nd ++ seq (length (heap s)) (length vs) |} /\
    (forall (i : nat) v, vs !! i = Some v ->
       heap s !! (length (heap s) + i)%nat = None /\
       heap s' !! (length (heap s) + i)%nat
       = Some {| Root := Some n; Meta := ANil; Value := v; Nodes := [] |}) /\
    length (heap s') = (length (heap s) + length vs)%nat /\
    (forall c : addr, c <> n -> (c < length (heap s))%nat ->
       heap s' !! c = heap s !! c).
Proof.
  intros Hn. exists (with_children s n nd vs).
  destruct (with_children_lookup s n nd vs Hn) as (H1 & H2 & H3 & H4).
  split; [apply foldM_AddNode; exact Hn|].
  split; [exact H1|]. split; [|split; [exact H3|exact H4]].
  intros i v Hi. split; [apply lookup_ge_None_2; lia|].
  exact (H2 i v Hi).
Qed.

Lemma AddNode_chain_order_witness :
  exists s',
    foldM AddNode [AString "C"; AString "D"] 0%nat two_leaves = Ok 0%nat s' /\
    heap s' !! 0%nat
    = Some {| Root := None; Meta := ANil; Value := AString ".";
              Nodes := [1; 2; 3; 4]%nat |}.
Proof.
  destruct (AddNode_chain_order 0%nat _ [AString "C"; AString "D"] two_leaves
              eq_refl) as (s' & Hrun & Hn & _).
  exists s'. split; [exact Hrun|exact Hn].
Defined.

(** X4.  [FindLastNode] answers the last element of the receiver's children
    and nil exactly when there are none; it looks no deeper.  Right after
    [AddMetaNode] it answers the node just added. *)
Theorem FindLastNode_after_add (n : addr) nd meta a s :
  heap s !! n = Some nd ->
  FindLastNode n s = Ok (last (Nodes nd)) s /\
  (FindLastNode n s = Ok None s <-> Nodes nd = []) /\
  (forall c, FindLastNode n s = Ok (Some c) s ->
     Nodes nd !! (length (Nodes nd) - 1)%nat = Some c) /\
  exists s',
    (let! _ := AddMetaNode n meta a in FindLastNode n) s
    = Ok (Some (length (heap s))) s' /\
    heap s' !! length (heap s)
    = Some {| Root := Some n; Meta := meta; Value := a; Nodes := [] |}.
Proof.
  intros Hn.
  assert (Hrun : FindLastNode n s = Ok (last (Nodes nd)) s).
  { unfold FindLastNode. rewrite (bind_load _ _ _ _ Hn). reflexivity. }
  split; [exact Hrun|]. split; [|split].
  - rewrite Hrun. split.
    + intros [= E]. apply last_None in E. exact E.
    + intros ->. reflexivity.
  - intros c. rewrite Hrun. intros [= E].
    rewrite last_lookup in E. rewrite <- E. f_equal. lia.
  - exists (with_child s n nd meta a).
    destruct (with_child_lookup s n nd meta a Hn) as (H1 & H2 & _).
    split; [|exact H2].
    unfold AddMetaNode.
    rewrite (bind_Ok _ _ _ _ _ (add_child_Ok n nd meta a (fun x _ => x) s Hn)).
    unfold FindLastNode. rewrite (bind_load _ _ _ _ H1). cbn [Nodes].
    unfold ret. rewrite last_snoc. reflexivity.
Qed.

Lemma FindLastNode_after_add_witness :
  FindLastNode 0 two_leaves = Ok (Some 2%nat) two_leaves /\
  FindLastNode 1 two_leaves = Ok None two_leaves.
Proof.
  split.
  - exact (proj1 (FindLastNode_after_add 0%nat _ ANil ANil two_leaves eq_refl)).
  - exact (proj1 (FindLastNode_after_add 1%nat _ ANil ANil two_leaves eq_refl)).
Defined.

(** ** Invariants of built trees *)

(** X5.  In every state reached through the public operations no node is
    listed twice among the children of one node, no node is listed by
    two nodes, every child was allocated after the node listing it and
    has that node or nil as [Root], and a [Root] that is not nil points
    at the node that lists the node holding it. *)
Theorem built_no_sharing s :
  built s ->
  (forall (p : addr) pd, heap s !! p = Some pd -> NoDup (Nodes pd)) /\
  (forall (p q : addr) pd qd (c : addr),
     heap s !! p = Some pd -> heap s !! q = Some qd ->
     In c (Nodes pd) -> In c (Nodes qd) -> p = q) /\
  (forall (p : addr) pd (c : addr),
     heap s !! p = Some pd -> In c (Nodes pd) ->
     (p < c)%nat /\
     exists cd, heap s !! c = Some cd /\
                (Root cd = Some p \/ Root cd = None)) /\
  (forall (c : addr) cd (p : addr),
     heap s !! c = Some cd -> Root cd = Some p ->
     exists pd, heap s !! p = Some pd /\ In c (Nodes pd)).
Proof.
  intros Hb. destruct (built_unshared s Hb) as [Hts Hun].
  split; [|split; [|split]].
  - exact (rows_NoDup (heap s) Hun).
  - intros p q pd qd c Hp Hq H1 H2.
    exact (one_parent (heap s) p q pd qd c Hun Hp Hq H1 H2).
  - intros p pd c Hp Hc.
    destruct (proj1 (List.Forall_forall _ _) (Hts p pd Hp) c Hc)
      as (Hlt & cd & Hcd & HR).
    split; [exact Hlt|]. exists cd. split; [exact Hcd|tauto].
  - exact (built_rooted s Hb).
Qed.

Lemma built_no_sharing_witness :
  built two_leaves /\
  forall (p : addr) pd, heap two_leaves !! p = Some pd -> NoDup (Nodes pd).
Proof.
  pose proof two_leaves_built as Hb.
  split; [exact Hb|]. exact (proj1 (built_no_sharing two_leaves Hb)).
Defined.



(** ** Searching *)

(** X7.  [FindByMeta] answers the first descendant, in the order child,
    the child's descendants, next child, whose meta is the target: the
    node found carries the target as meta and no descendant before it
    does; the answer is nil exactly when no descendant carries it. *)
Theorem FindByMeta_first_match fuel (n : addr) t meta s :
  unfold fuel (heap s) n = Some t ->
  exists r,
    FindByMeta fuel n meta s = Ok r s /\
    (forall a, r = Some a ->
       (exists ad, heap s !! a = Some ad /\ Meta ad = meta) /\
       exists before after,
         descendants t = before ++ a :: after /\
         Forall (fun b => Meta_at (heap s) b <> meta) before) /\
    (r = None <->
     Forall (fun b => Meta_at (heap s) b <> meta) (descendants t)).
Proof.
  intros Ht. exists (first_by_meta (heap s) meta t).
  split; [apply FindByMeta_first; exact Ht|]. unfold first_by_meta.
  split; [|split].
  - intros a E. apply find_first in E as (Ha & before & after & Hd & Hb).
    apply DeepEqual_eq in Ha.
    split.
    + assert (Hin : In a (descendants t))
        by (rewrite Hd; apply in_elt).
      destruct (descendants_live fuel (heap s) n t a Ht Hin) as [ad Had].
      exists ad. split; [exact Had|].
      unfold Meta_at in Ha. rewrite Had in Ha. exact Ha.
    + exists before, after. split; [exact Hd|].
      eapply Forall_impl; [exact Hb|]. intros b Hb'.
      apply DeepEqual_false. exact Hb'.
  - intros E. apply find_nothing in E.
    eapply Forall_impl; [exact E|]. intros b Hb'.
    apply DeepEqual_false. exact Hb'.
  - intros Hall.
    destruct (find _ (descendants t)) as [a|] eqn:E; [|reflexivity].
    exfalso. apply find_some in E as [Hin Ha].
    apply DeepEqual_eq in Ha.
    exact (proj1 (List.Forall_forall _ _) Hall a Hin Ha).
Qed.

Lemma FindByMeta_first_match_witness :
  exists r,
    FindByMeta 3 0 (AInt 1) small_tree = Ok r small_tree /\
    (r = None <->
     Forall (fun b => Meta_at (heap small_tree) b <> AInt 1)
       (descendants (T 0 [T 1 []; T 2 [T 3 []]; T 4 []]))).
Proof.
  destruct (FindByMeta_first_match 3 0%nat
              (T 0 [T 1 []; T 2 [T 3 []]; T 4 []]) (AInt 1) small_tree
              eq_refl) as (r & Hrun & _ & Hnone).
  exists r. split; [exact Hrun|exact Hnone].
Defined.

(** X8.  [FindByValue] compares values on the children of the receiver
    only.  Its answer is a child whose value is the target, or a node
    below a child whose meta is the target; it is nil only if no child
    has the target as value.  When all children are leaves it answers
    the first child whose value is the target, as documented. *)
Theorem FindByValue_children fuel (n : addr) nd t value s :
  heap s !! n = Some nd ->
  unfold fuel (heap s) n = Some t ->
  exists r,
    FindByValue fuel n value s = Ok r s /\
    (forall a, r = Some a ->
       (In a (Nodes nd) /\ Value_at (heap s) a = value) \/
       (exists k, In k (kids_of t) /\ In a (descendants k) /\
                  Meta_at (heap s) a = value)) /\
    (r = None ->
     Forall (fun c => Value_at (heap s) c <> value) (Nodes nd)) /\
    (Forall (fun c => exists cd, heap s !! c = Some cd /\ Nodes cd = [])
       (Nodes nd) ->
     descendants t = Nodes nd /\
     r = first_by_value (heap s) value t).
Proof.
  intros Hn Ht. exists (found_by_value (heap s) value t).
  split; [apply FindByValue_found; exact Ht|].
  pose proof Ht as Hk. apply unfold_kids in Hk as (nd' & Hn' & _ & Hks).
  rewrite Hn in Hn'. injection Hn' as <-.
  pose proof (kids_roots _ _ _ _ Hks) as Hroots.
  unfold found_by_value. split; [|split].
  - intros a E. apply first_hit_cases in E as [[Hin Hp]|(k & Hk & Hs)].
    + left. rewrite <- Hroots. split; [exact Hin|].
      apply DeepEqual_eq. exact Hp.
    + right. exists k. unfold first_by_meta in Hs.
      apply find_some in Hs as [Hd Hm].
      split; [exact Hk|]. split; [exact Hd|]. apply DeepEqual_eq. exact Hm.
  - intros E. apply first_hit_none in E.
    rewrite <- Hroots. apply Forall_fmap.
    eapply Forall_impl; [exact E|]. intros k [Hp _]. cbn.
    apply DeepEqual_false. exact Hp.
  - intros Hleaves.
    assert (Hflat : Forall (fun k => kids_of k = []) (kids_of t)).
    { clear Hroots. revert Hleaves.
      induction Hks as [|c k nodes ts Hk _ IH]; intros Hl; [constructor|].
      apply Forall_cons in Hl as [(cd & Hc & Hcs) Hl].
      constructor; [|exact (IH Hl)].
      apply unfold_kids in Hk as (cd' & Hc' & _ & Hkk).
      rewrite Hc in Hc'. injection Hc' as <-. rewrite Hcs in Hkk.
      inversion Hkk. reflexivity. }
    assert (Hdesc : descendants t = map root_of (kids_of t)).
    { unfold descendants. clear -Hflat.
      induction Hflat as [|k ts Hk _ IH]; [reflexivity|].
      destruct k as [b ks]. cbn in Hk. subst ks.
      cbn [flat_map map preorder root_of app]. rewrite IH. reflexivity. }
    split; [rewrite Hdesc; exact Hroots|].
    unfold first_by_value. rewrite Hdesc.
    apply first_hit_leaves.
    eapply Forall_impl; [exact Hflat|]. intros k Hk.
    unfold first_by_meta, descendants. rewrite Hk. reflexivity.
Qed.

Lemma FindByValue_children_witness :
  exists r,
    FindByValue 2 0 (AString "B") two_leaves = Ok r two_leaves /\
    r = first_by_value (heap two_leaves) (AString "B") (T 0 [T 1 []; T 2 []]).
Proof.
  destruct (FindByValue_children 2 0%nat _ (T 0 [T 1 []; T 2 []])
              (AString "B") two_leaves eq_refl eq_refl)
    as (r & Hrun & _ & _ & Hflat).
  exists r. split; [exact Hrun|]. apply Hflat.
  repeat constructor; eexists; split; reflexivity.
Defined.



(** X10.  For a meta that [reflect.DeepEqual] finds equal to itself,
    after [SetMetaValue(meta)] on a descendant of [n], [FindByMeta] from
    [n] for that meta answers a node, never nil: the descendant itself,
    or a node whose meta equals the target and that comes before it. *)
Theorem FindByMeta_after_SetMetaValue fuel (n c : addr) t meta s :
  DeepEqual meta meta = true ->
  unfold fuel (heap s) n = Some t ->
  In c (descendants t) ->
  exists s' r,
    SetMetaValue c meta s = Ok tt s' /\
    FindByMeta fuel n meta s' = Ok (Some r) s' /\
    Meta_at (heap s') c = meta /\
    DeepEqual (Meta_at (heap s') r) meta = true /\
    exists before after,
      descendants t = before ++ r :: after /\ ~ In c before /\
      Forall (fun b => DeepEqual (Meta_at (heap s') b) meta = false) before.
Proof.
  intros Hrefl Ht Hc.
  destruct (descendants_live fuel (heap s) n t c Ht Hc) as [cd Hcd].
  set (cd' := {| Root := Root cd; Meta := meta; Value := Value cd;
                 Nodes := Nodes cd |}).
  set (s' := with_heap s (<[c := cd']> (heap s))).
  assert (Hrun : SetMetaValue c meta s = Ok tt s').
  { unfold SetMetaValue. rewrite (bind_load _ _ _ _ Hcd).
    unfold store. rewrite Hcd. reflexivity. }
  assert (Hc' : heap s' !! c = Some cd').
  { cbn. apply list_lookup_insert_eq. eapply lookup_lt_Some. exact Hcd. }
  assert (Hmeta : Meta_at (heap s') c = meta).
  { unfold Meta_at. rewrite Hc'. reflexivity. }
  assert (Ht' : unfold fuel (heap s') n = Some t).
  { apply (unfold_same_shape fuel (heap s)); [|exact Ht].
    cbn [heap s' with_heap]. unfold addr in *. rewrite list_fmap_insert.
    apply list_insert_id. rewrite list_lookup_fmap, Hcd. reflexivity. }
  pose proof (FindByMeta_first fuel n t meta s' Ht') as Hfind.
  unfold first_by_meta in Hfind.
  assert (Hhit : DeepEqual (Meta_at (heap s') c) meta = true)
    by (rewrite Hmeta; exact Hrefl).
  destruct (find (fun a => DeepEqual (Meta_at (heap s') a) meta)
              (descendants t)) as [r|] eqn:E.
  - apply find_first in E as (Hr & before & after & Hd & Hbefore).
    exists s', r. split; [exact Hrun|]. split; [exact Hfind|].
    split; [exact Hmeta|]. split; [exact Hr|].
    exists before, after. split; [exact Hd|]. split; [|exact Hbefore].
    intros Hin.
    pose proof (proj1 (List.Forall_forall _ _) Hbefore c Hin) as Hmiss.
    cbv beta in Hmiss. congruence.
  - exfalso. pose proof (find_none _ _ E c Hc) as Hmiss.
    cbv beta in Hmiss. congruence.
Qed.

Lemma FindByMeta_after_SetMetaValue_witness :
  DeepEqual (AInt 1) (AInt 1) = true /\
  exists s' r,
    SetMetaValue 3 (AInt 1) small_tree = Ok tt s' /\
    FindByMeta 3 0 (AInt 1) s' = Ok (Some r) s'.
Proof.
  split; [reflexivity|].
  destruct (FindByMeta_after_SetMetaValue 3 0%nat 3%nat
              (T 0 [T 1 []; T 2 [T 3 []]; T 4 []]) (AInt 1) small_tree
              eq_refl eq_refl) as (s' & r & Hset & Hfind & _).
  - cbn. tauto.
  - exists s', r. split; [exact Hset|exact Hfind].
Defined.

(** ** Visiting *)

(** X11.  [VisitAll] with the visitor [SetValue(v)] gives the value [v] to
    every descendant of the receiver and touches nothing else: the
    receiver and the nodes outside keep their value, and every node
    keeps its meta, its parent and its children. *)
Theorem VisitAll_SetValue fuel (n : addr) t v s :
  unfold fuel (heap s) n = Some t ->
  exists s',
    VisitAll fuel n (fun a (_ : unit) => SetValue a v) tt s = Ok tt s' /\
    (forall a, In a (descendants t) ->
       exists ad, heap s !! a = Some ad /\
                  heap s' !! a = Some (with_value v ad)) /\
    (forall a : addr, ~ In a (descendants t) ->
       heap s' !! a = heap s !! a) /\
    heap s' !! n = heap s !! n /\
    unfold fuel (heap s') n = Some t.
Proof.
  intros Ht.
  assert (Hshape : keeps_shape (fun a (_ : unit) => SetValue a v)).
  { intros a u s0 u' s1 E.
    apply (update_run a (with_value v)) in E as (nd & Ha & ->).
    cbn [heap with_heap]. unfold addr in *. rewrite list_fmap_insert.
    apply list_insert_id. rewrite list_lookup_fmap, Ha. reflexivity. }
  exists (with_heap s (relabel v (descendants t) (heap s))).
  assert (Hlive : Forall (fun a => is_Some (heap s !! a)) (descendants t)).
  { apply List.Forall_forall. intros a Ha.
    exact (descendants_live fuel (heap s) n t a Ht Ha). }
  assert (Hout : forall a : addr, ~ In a (descendants t) ->
             relabel v (descendants t) (heap s) !! a = heap s !! a).
  { intros a Ha. unfold addr in *.
    rewrite relabel_lookup, bool_decide_eq_false_2; [reflexivity|].
    intros Hin. apply Ha. apply list_elem_of_In. exact Hin. }
  split; [|split; [|split; [|split]]].
  - rewrite (VisitAll_preorder _ Hshape fuel n t tt s Ht).
    apply foldM_SetValue. exact Hlive.
  - intros a Ha.
    destruct (proj1 (List.Forall_forall _ _) Hlive a Ha) as [ad Had].
    exists ad. split; [exact Had|]. cbn [heap with_heap].
    unfold addr in *.
    rewrite relabel_lookup, bool_decide_eq_true_2, Had; [reflexivity|].
    apply list_elem_of_In. exact Ha.
  - exact Hout.
  - apply Hout. exact (not_own_descendant fuel (heap s) n t Ht).
  - apply (unfold_same_shape fuel (heap s)); [|exact Ht].
    apply relabel_shape.
Qed.

Lemma VisitAll_SetValue_witness :
  exists s',
    VisitAll 3 0 (fun a (_ : unit) => SetValue a (AInt 0)) tt small_tree
    = Ok tt s' /\
    heap s' !! 0%nat = heap small_tree !! 0%nat /\
    unfold 3 (heap s') 0 = Some (T 0 [T 1 []; T 2 [T 3 []]; T 4 []]).
Proof.
  destruct (VisitAll_SetValue 3 0%nat (T 0 [T 1 []; T 2 [T 3 []]; T 4 []])
              (AInt 0) small_tree eq_refl) as (s' & Hrun & _ & _ & Hn & Ht).
  exists s'. split; [exact Hrun|]. split; [exact Hn|exact Ht].
Defined.

(** ** Rendering *)



(** X13.  When no value below the start node holds a line break, a render
    returns, whether or not the start node has a parent, and what it
    writes is the chunk of the start node followed, per descendant in
    order, by one segment for each ancestor within the render, blank
    below an ancestor that got the end connector, and the connector with
    the label. *)
Theorem single_line_render {W : Type} `{IOWriter W} fuel (n : addr) nd t
    (w : W) s :
  (0 <= IndentSize s)%Z ->
  heap s !! n = Some nd ->
  unfold fuel (heap s) n = Some t ->
  (forall a, In a (preorder t) ->
     free_of newline (Sprint (Value_at (heap s) a)) = true) ->
  Writer fuel n w s
  = Ok (feed w (own_chunks s nd
                ++ flat_map (call_chunks s) (Writer_calls n t))) s.
Proof.
  intros Hind Hn Ht Hv.
  rewrite (Writer_lines fuel n nd t w s Hn Ht).
  pose proof (unfold_root _ _ _ _ Ht) as Hroot.
  assert (Hvn : free_of newline (Sprint (Value nd)) = true).
  { specialize (Hv n). unfold Value_at in Hv. rewrite Hn in Hv. apply Hv.
    destruct t as [a ks]. cbn in Hroot. subst a. left. reflexivity. }
  assert (Hown : own_line n nd w s = Ok (feed w (own_chunks s nd)) s).
  { unfold own_line, own_chunks. destruct (Root nd); [|reflexivity].
    rewrite bind_gets.
    rewrite (printValues_single _ _ _ _ _ nd s Hind Hn Hvn).
    destruct (is_nil (Nodes nd)); reflexivity. }
  rewrite (bind_Ok _ _ _ _ _ Hown), feed_app.
  apply foldM_emit_single; [exact Hind|].
  pose proof Ht as Ht'.
  apply unfold_kids in Ht' as (nd' & Hn' & _ & Hks).
  rewrite Hn in Hn'. injection Hn' as <-.
  assert (Hok : Forall (call_ok (heap s)) (Writer_calls n t)).
  { apply (sib_calls_ok (heap s) fuel n nd 0%Z [] [] (kids_of t) Hn Hks).
    split; [reflexivity|]. split.
    - intros e He. inversion He.
    - intros d x Hd. discriminate Hd. }
  apply List.Forall_forall. intros c Hc.
  pose proof (proj1 (List.Forall_forall _ _) Hok c Hc) as (_ & Hlev & Hanc).
  split; [exact Hlev|]. split; [exact Hanc|].
  assert (Hd : In (c_node c) (descendants t)).
  { rewrite <- (Writer_calls_nodes n t). apply in_map. exact Hc. }
  destruct (descendants_live fuel (heap s) n t _ Ht Hd) as [cd Hcd].
  exists cd. split; [exact Hcd|].
  specialize (Hv (c_node c)). unfold Value_at in Hv. rewrite Hcd in Hv.
  apply Hv. destruct t as [a ks]. right. exact Hd.
Qed.

Lemma single_line_render_witness :
  Writer 3 2 ([] : Buffer) small_tree
  = Ok (feed ([] : Buffer) ["├─ B" +:+ nl; "└─ C" +:+ nl]) small_tree.
Proof.
  refine (single_line_render (W := Buffer) 3 2%nat _ (T 2 [T 3 []]) []
            small_tree _ eq_refl eq_refl _).
  - cbn. lia.
  - intros a [<-|[<-|[]]]; reflexivity.
Defined.

(** X14.  A tree made by [NewWithRoot] and a chain of [AddNode] calls with
    values free of line breaks renders as the root value on a line of its
    own and one line per value in the order of the calls, the mid
    connector on all but the last and the end connector on the last,
    whatever [IndentSize] is.  [New] is [NewWithRoot] with a dot. *)
Theorem flat_tree_render {W : Type} `{IOWriter W} (root : any)
    (vs : list any) (w : W) fuel s :
  Forall (fun v => free_of newline (Sprint v) = true) vs ->
  exists s',
    (let! t := NewWithRoot root in foldM AddNode vs t) s
    = Ok (length (heap s)) s' /\
    Writer (S fuel) (length (heap s)) w s'
    = Ok (feed w (Sprint root :: nl
                  :: flat_lines (EdgeTypeMid s) (EdgeTypeEnd s)
                       (map Sprint vs))) s' /\
    New s = NewWithRoot (AString ".") s.
Proof.
  intros Hvs.
  set (t := length (heap s)).
  set (rd := {| Root := None; Meta := ANil; Value := root; Nodes := [] |}).
  set (s1 := with_heap s (heap s ++ [rd])).
  assert (Ht : heap s1 !! t = Some rd).
  { cbn. rewrite lookup_app_r by (unfold t; lia).
    unfold t. rewrite Nat.sub_diag. reflexivity. }
  pose proof (foldM_AddNode t vs rd s1 Ht) as Hrun.
  destruct (with_children_lookup s1 t rd vs Ht) as (Hroot & Hkids & _).
  exists (with_children s1 t rd vs). split; [|split; [|reflexivity]].
  - rewrite (bind_Ok (NewWithRoot root) _ s t s1 eq_refl). exact Hrun.
  - change (EdgeTypeMid s) with (EdgeTypeMid (with_children s1 t rd vs)).
    change (EdgeTypeEnd s) with (EdgeTypeEnd (with_children s1 t rd vs)).
    unfold Writer. cbv zeta. rewrite (bind_load _ _ _ _ Hroot).
    cbn [Root Meta Value Nodes rd]. rewrite bind_ret. cbn [app].
    rewrite length_seq.
    destruct vs as [|v vs]; [reflexivity|].
    cbn [length Nat.ltb Nat.leb printNodes].
    rewrite length_seq.
    change 0%Z with (Z.of_nat 0).
    rewrite (print_range_leaves _ _ _ _ (v :: vs) 0 [] _);
      [reflexivity|rewrite length_seq; reflexivity|].
    apply Forall2_same_length_lookup_2; [rewrite length_seq; reflexivity|].
    intros i c v' Hc Hv. apply lookup_seq in Hc as [-> _].
    split.
    + exact (Forall_lookup_1 _ _ _ _ Hvs Hv).
    + exists (Some t). exact (Hkids i v' Hv).
Qed.

Lemma flat_tree_render_witness :
  exists s',
    (let! t := NewWithRoot (AString "r") in
     foldM AddNode [AString "a"; AInt 2] t) init = Ok 0%nat s' /\
    Writer 1 0 ([] : Buffer) s'
    = Ok (feed ([] : Buffer) ["r"; nl; "├─ a" +:+ nl; "└─ 2" +:+ nl])
        s'.
Proof.
  destruct (flat_tree_render (W := Buffer) (AString "r")
              [AString "a"; AInt 2] [] 0 init) as (s' & Hb & Hw & _).
  - repeat constructor.
  - exists s'. split; [exact Hb|exact Hw].
Defined.

(** X15.  With [IndentSize] below -1, [printValues] panics on every line
    below level 0, in [strings.Repeat]; so a render panics as soon as the
    first child of its start node has a child. *)
Theorem negative_indent_panics {W : Type} `{IOWriter W} fuel (n : addr) nd
    (c : addr) cd (g : addr) rest rest' (w : W) s :
  (IndentSize s < -1)%Z ->
  heap s !! n = Some nd -> Nodes nd = c :: rest ->
  heap s !! c = Some cd -> Nodes cd = g :: rest' ->
  (forall (wr : W) level levelsEnded edge node,
     (0 < level)%Z ->
     printValues wr level levelsEnded edge node s = Panic) /\
  Writer (S (S fuel)) n w s = Panic.
Proof.
  intros Hind Hn Hns Hc Hcs.
  split; [intros; apply printValues_negative; assumption|].
  assert (Hloop : forall (w1 : W) e,
             printNodes (S (S fuel)) w1 0 e (Nodes nd) s = Panic).
  { intros w1 e. rewrite Hns. cbn [printNodes print_range].
    rewrite bind_gets. cbv zeta.
    rewrite (bind_Ok _ _ _ _ _ (edge_choice _ s)).
    match goal with
    | |- bind ?m _ _ = _ => destruct (m s) as [w2 s2| |] eqn:Ep
    end.
    - apply readonly_printValues in Ep as Hs. subst s2.
      rewrite (bind_Ok _ _ _ _ _ Ep), (bind_load _ _ _ _ Hc), Hcs.
      cbn [length Nat.ltb Nat.leb]. apply bind_Panic.
      cbn [print_range]. rewrite bind_gets. cbv zeta.
      rewrite (bind_Ok _ _ _ _ _ (edge_choice _ s)). apply bind_Panic.
      apply printValues_negative; [exact Hind|lia].
    - apply bind_Panic. exact Ep.
    - exfalso. exact (terminates_printValues _ _ _ _ _ _ Ep). }
  unfold Writer. cbv zeta. rewrite (bind_load _ _ _ _ Hn).
  assert (Hown : forall r,
             (let! mid := gets EdgeTypeMid in
              let leaf := (length (Nodes nd) =? 0)%nat in
              let! edge := (if leaf then gets EdgeTypeEnd else ret mid) in
              let levelsEnded := if leaf then [] ++ [0%Z] else [] in
              let! w := printValues w 0 levelsEnded edge n in
              ret (w, levelsEnded)) s = r ->
             r = Panic \/ exists x, r = Ok x s).
  { intros r <-. rewrite bind_gets. cbv zeta.
    rewrite (bind_Ok _ _ _ _ _ (edge_choice _ s)).
    match goal with
    | |- bind ?m _ _ = _ \/ _ => destruct (m s) as [w2 s2| |] eqn:Ep
    end.
    - apply readonly_printValues in Ep as Hs. subst s2.
      rewrite (bind_Ok _ _ _ _ _ Ep). right. eauto.
    - left. apply bind_Panic. exact Ep.
    - exfalso. exact (terminates_printValues _ _ _ _ _ _ Ep). }
  match goal with
  | |- bind ?m _ _ = _ => destruct (m s) as [[w1 e] s1| |] eqn:Eo
  end.
  - assert (s1 = s) as ->.
    { destruct (Root nd).
      - destruct (Hown _ Eo) as [E|[x E]]; [discriminate E|].
        inversion E. reflexivity.
      - inversion Eo. reflexivity. }
    rewrite (bind_Ok _ _ _ _ _ Eo). cbv beta iota.
    assert (Hpos : (0 <? length (Nodes nd))%nat = true)
      by (rewrite Hns; reflexivity).
    rewrite Hpos. apply Hloop.
  - apply bind_Panic. exact Eo.
  - exfalso. destruct (Root nd); [|discriminate Eo].
    destruct (Hown _ Eo) as [E|[x E]]; discriminate E.
Qed.

Lemma negative_indent_panics_witness :
  Writer 2 0 ([] : Buffer)
    {| heap := heap chain3; IndentSize := (-2); EdgeTypeLink := "│";
       EdgeTypeMid := "├─"; EdgeTypeEnd := "└─" |}
  = Panic.
Proof.
  refine (proj2 (negative_indent_panics (W := Buffer) 0 0%nat _ 1%nat _
                   2%nat [] [] []
                   {| heap := heap chain3; IndentSize := (-2);
                      EdgeTypeLink := "│"; EdgeTypeMid := "├─";
                      EdgeTypeEnd := "└─" |}
                   _ eq_refl eq_refl eq_refl eq_refl)).
  cbn. lia.
Defined.

(** X16.  [padding] called with [level] on a node whose walk up to the first
    parentless node passes [k] nodes returns one segment per node passed,
    outermost first, blank for a last child and a link otherwise, when
    [k <= level + 1]; it panics on the index [-1] when [k > level + 1],
    and on the negative length when [level < -1].  It never runs on. *)
Theorem padding_law level (a : addr) fl s :
  (0 <= IndentSize s)%Z ->
  upward (heap s) a fl ->
  ((-1 <= level)%Z -> (Z.of_nat (length fl) <= level + 1)%Z ->
   padding level a s = Ok (walk_padding s fl) s) /\
  ((-1 <= level)%Z -> (level + 1 < Z.of_nat (length fl))%Z ->
   padding level a s = Panic) /\
  ((level < -1)%Z -> padding level a s = Panic) /\
  padding level a s <> Timeout /\
  walk_padding s fl
  = strings_Join (map (fun last : bool => if last then blank s else link s) fl)
      EmptyString.
Proof.
  intros Hind Hup. split; [|split; [|split; [|split]]].
  - intros Hlevel Hfit.
    rewrite (padding_value level a fl s Hind ltac:(lia) Hup).
    destruct (Z.leb_spec (Z.of_nat (length fl)) (level + 1)); [reflexivity|lia].
  - intros Hlevel Hfit.
    rewrite (padding_value level a fl s Hind ltac:(lia) Hup).
    destruct (Z.leb_spec (Z.of_nat (length fl)) (level + 1)); [lia|reflexivity].
  - intros Hlevel. unfold padding.
    destruct (Z.ltb_spec (level + 1) 0); [reflexivity|lia].
  - apply terminates_padding.
  - reflexivity.
Qed.

Lemma padding_law_witness :
  padding 1 2 two_line_leaf = Ok (spaces 8) two_line_leaf /\
  padding 0 2 two_line_leaf = Panic.
Proof.
  assert (Hup : upward (heap two_line_leaf) 2 [true; true]).
  { apply (upward_step _ 2%nat
             {| Root := Some 1%nat; Meta := ANil;
                Value := AString ("x" +:+ nl +:+ "y"); Nodes := [] |}
             1%nat
             {| Root := Some 0%nat; Meta := ANil; Value := AString "b";
                Nodes := [2%nat] |} [true]); try reflexivity.
    apply (upward_step _ 1%nat
             {| Root := Some 0%nat; Meta := ANil; Value := AString "b";
                Nodes := [2%nat] |}
             0%nat
             {| Root := None; Meta := ANil; Value := AString ".";
                Nodes := [1%nat] |} []); try reflexivity.
    apply (upward_top _ 0%nat
             {| Root := None; Meta := ANil; Value := AString ".";
                Nodes := [1%nat] |}); reflexivity. }
  assert (Hind : (0 <= IndentSize two_line_leaf)%Z) by (cbn; lia).
  split.
  - apply (proj1 (padding_law 1 2%nat _ two_line_leaf Hind Hup)); cbn; lia.
  - apply (proj1 (proj2 (padding_law 0 2%nat _ two_line_leaf Hind Hup)));
      cbn; lia.
Defined.

(** X17.  A render started at a node without parent, in a tree built
    through the public operations, returns: it writes the label of the
    start node and then, call by call, the segments, the connector and
    the label of each descendant.  Every such node has a walk that fits
    its level, so [padding] returns for it, and the lines of its value
    after the first are written behind the padding of that walk. *)
Theorem root_render_padding {W : Type} `{IOWriter W} fuel (n : addr) nd t s :
  built s ->
  (0 <= IndentSize s)%Z ->
  heap s !! n = Some nd -> Root nd = None ->
  unfold fuel (heap s) n = Some t ->
  exists lines,
    (forall w : W,
       Writer fuel n w s
       = Ok (feed w (label nd (Value nd) :: nl :: concat lines)) s) /\
    Forall2 (fun c l =>
               exists fl cd,
                 upward (heap s) (c_node c) fl /\
                 (Z.of_nat (length fl) <= c_level c + 1)%Z /\
                 heap s !! c_node c = Some cd /\
                 padding (c_level c) (c_node c) s
                 = Ok (walk_padding s fl) s /\
                 renderValue (c_level c) (c_node c) s
                 = Ok (padded (walk_padding s fl) cd) s /\
                 l = line_chunks s c cd (walk_padding s fl) /\
                 forall wr : W,
                   printValues wr (c_level c) (c_ended c)
                     (if c_end c then EdgeTypeEnd s else EdgeTypeMid s)
                     (c_node c) s
                   = Ok (feed wr l) s)
      (Writer_calls n t) lines.
Proof.
  intros Hb Hind Hn HR Ht.
  pose proof (built_tree_shaped s Hb) as Hts.
  pose proof Ht as Ht'.
  apply unfold_kids in Ht' as (nd' & Hn' & _ & Hks).
  rewrite Hn in Hn'. injection Hn' as <-.
  assert (Hfit : fits (heap s) n (0 - 1)).
  { exists []. split; [exact (upward_top _ n nd Hn HR)|cbn; lia]. }
  pose proof (sib_calls_fit (heap s) fuel Hts n nd 0%Z [] [] Hn ltac:(lia)
                Hfit (Nodes nd) (kids_of t) O (Hts n nd Hn) Hks) as Hfits.
  assert (Hok : Forall (call_ok (heap s)) (Writer_calls n t)).
  { apply (sib_calls_ok (heap s) fuel n nd 0%Z [] [] (kids_of t) Hn Hks).
    split; [reflexivity|]. split.
    - intros e He. inversion He.
    - intros d x Hd. discriminate Hd. }
  destruct (Forall_pick
              (fun c l =>
                 exists fl cd,
                   upward (heap s) (c_node c) fl /\
                   (Z.of_nat (length fl) <= c_level c + 1)%Z /\
                   heap s !! c_node c = Some cd /\
                   padding (c_level c) (c_node c) s
                   = Ok (walk_padding s fl) s /\
                   renderValue (c_level c) (c_node c) s
                   = Ok (padded (walk_padding s fl) cd) s /\
                   l = line_chunks s c cd (walk_padding s fl) /\
                   forall wr : W,
                     printValues wr (c_level c) (c_ended c)
                       (if c_end c then EdgeTypeEnd s else EdgeTypeMid s)
                       (c_node c) s
                     = Ok (feed wr l) s)
              (Writer_calls n t)) as [lines Hlines].
  { apply List.Forall_forall. intros c Hc.
    pose proof (proj1 (List.Forall_forall _ _) Hok c Hc) as (_ & Hlev & Hanc).
    pose proof (proj1 (List.Forall_forall _ _) Hfits c Hc)
      as (Hlevel & fl & Hup & Hlen).
    assert (Hcd : exists cd, heap s !! c_node c = Some cd)
      by (inversion Hup; eauto).
    destruct Hcd as [cd Hcd].
    exists (line_chunks s c cd (walk_padding s fl)), fl, cd.
    split; [exact Hup|]. split; [exact Hlen|]. split; [exact Hcd|].
    split; [|split; [|split; [reflexivity|]]].
    - rewrite (padding_value (c_level c) (c_node c) fl s Hind ltac:(lia) Hup).
      destruct (Z.leb_spec (Z.of_nat (length fl)) (c_level c + 1));
        [reflexivity|lia].
    - exact (renderValue_padded (c_level c) (c_node c) cd fl s Hind
               ltac:(lia) Hcd Hup Hlen).
    - intros wr.
      pose proof (emit_padded wr c cd fl s Hind Hlev Hanc Hcd Hup Hlen) as E.
      unfold emit in E. rewrite bind_gets in E. exact E. }
  exists lines. split; [|exact Hlines].
  intros w. rewrite (Writer_lines fuel n nd t w s Hn Ht).
  unfold own_line. rewrite HR, bind_ret.
  change (feed w (label nd (Value nd) :: nl :: concat lines))
    with (feed (feed w [label nd (Value nd); nl]) (concat lines)).
  apply foldM_emit_lines.
  eapply Forall2_impl; [exact Hlines|].
  intros c l (fl & cd & _ & _ & _ & _ & _ & _ & Hp) w'.
  unfold emit. rewrite bind_gets. apply Hp.
Qed.

Lemma root_render_padding_witness :
  built two_line_leaf /\
  exists lines,
    Writer 3 0 ([] : Buffer) two_line_leaf
    = Ok (feed ([] : Buffer) ("." :: nl :: concat lines)) two_line_leaf /\
    length lines = 2%nat.
Proof.
  pose proof two_line_leaf_built as Hb.
  split; [exact Hb|].
  destruct (root_render_padding (W := Buffer) 3 0%nat
              {| Root := None; Meta := ANil; Value := AString ".";
                 Nodes := [1%nat] |}
              (T 0 [T 1 [T 2 []]]) two_line_leaf Hb)
    as (lines & Hw & Hl); [cbn; lia|reflexivity..|].
  exists lines. split; [exact (Hw [])|].
  apply Forall2_length in Hl. rewrite <- Hl. reflexivity.
Defined.

(** X18.  In a render started at a node without parent, in a tree built
    through the public operations in which [Branch] cleared no [Root]
    below the start, the padding of a line is made of the segments
    written in front of its connector followed by one more segment,
    blank when the line got the end connector and a link otherwise.  The
    render writes the label of the start node and then, per descendant,
    those segments, the connector and the label, the lines of the value
    after the first behind that padding. *)
Theorem continuation_lines_follow_first {W : Type} `{IOWriter W} fuel
    (n : addr) nd t (w : W) s :
  built s ->
  (0 <= IndentSize s)%Z ->
  heap s !! n = Some nd -> Root nd = None ->
  unfold fuel (heap s) n = Some t ->
  (forall (x : addr) xd, In x (descendants t) ->
     heap s !! x = Some xd -> Root xd <> None) ->
  Writer fuel n w s
  = Ok (feed w (label nd (Value nd) :: nl
                :: flat_map (full_chunks s) (Writer_calls n t))) s /\
  Forall (fun c =>
            exists cd,
              heap s !! c_node c = Some cd /\
              padding (c_level c) (c_node c) s = Ok (own_padding s c) s /\
              renderValue (c_level c) (c_node c) s
              = Ok (padded (own_padding s c) cd) s /\
              forall wr : W,
                printValues wr (c_level c) (c_ended c)
                  (if c_end c then EdgeTypeEnd s else EdgeTypeMid s)
                  (c_node c) s
                = Ok (feed wr
                        (map (fun x : addr * bool => segment s x.2) (c_anc c)
                         ++ [(if c_end c then EdgeTypeEnd s
                              else EdgeTypeMid s)
                             +:+ " "
                             +:+ label cd (padded (own_padding s c) cd)
                             +:+ nl])) s)
    (Writer_calls n t).
Proof.
  intros Hb Hind Hn HR Ht Hatt.
  destruct (built_unshared s Hb) as [Hts Hun].
  pose proof (rows_NoDup (heap s) Hun) as Hrows.
  pose proof Ht as Ht'.
  apply unfold_kids in Ht' as (nd' & Hn' & _ & Hks).
  rewrite Hn in Hn'. injection Hn' as <-.
  assert (Hok : Forall (call_ok (heap s)) (Writer_calls n t)).
  { apply (sib_calls_ok (heap s) fuel n nd 0%Z [] [] (kids_of t) Hn Hks).
    split; [reflexivity|]. split.
    - intros e He. inversion He.
    - intros d x Hd. discriminate Hd. }
  pose proof (sib_calls_walk (heap s) fuel Hts Hrows n nd 0%Z [] [] Hn
                (upward_top _ n nd Hn HR) (Nodes nd) (kids_of t) O
                (drop_0 _) Hks Hatt) as Hwalk.
  assert (Hall : Forall (fun c =>
            exists cd,
              heap s !! c_node c = Some cd /\
              padding (c_level c) (c_node c) s = Ok (own_padding s c) s /\
              renderValue (c_level c) (c_node c) s
              = Ok (padded (own_padding s c) cd) s /\
              forall wr : W,
                emit wr c s = Ok (feed wr (full_chunks s c)) s)
            (Writer_calls n t)).
  { apply List.Forall_forall. intros c Hc.
    pose proof (proj1 (List.Forall_forall _ _) Hok c Hc) as (_ & Hlev & Hanc).
    pose proof (proj1 (List.Forall_forall _ _) Hwalk c Hc) as Hup.
    assert (Hcd : exists cd, heap s !! c_node c = Some cd)
      by (inversion Hup; eauto).
    destruct Hcd as [cd Hcd]. exists cd. split; [exact Hcd|].
    assert (Hlen : Z.of_nat (length (map snd (c_anc c) ++ [c_end c]))
                   = (c_level c + 1)%Z).
    { rewrite length_app, length_map, Hlev. cbn. lia. }
    assert (Hpad : walk_padding s (map snd (c_anc c) ++ [c_end c])
                   = own_padding s c).
    { unfold walk_padding, own_padding. rewrite map_app, map_map.
      reflexivity. }
    rewrite <- Hpad. split; [|split].
    - rewrite (padding_value (c_level c) (c_node c) _ s Hind ltac:(lia) Hup).
      rewrite Hlen, Z.leb_refl. reflexivity.
    - exact (renderValue_padded (c_level c) (c_node c) cd _ s Hind
               ltac:(lia) Hcd Hup ltac:(lia)).
    - intros wr.
      rewrite (emit_padded wr c cd _ s Hind Hlev Hanc Hcd Hup ltac:(lia)).
      unfold full_chunks. rewrite Hcd, Hpad. reflexivity. }
  split.
  - rewrite (Writer_lines fuel n nd t w s Hn Ht).
    unfold own_line. rewrite HR, bind_ret.
    change (feed w (label nd (Value nd) :: nl
                    :: flat_map (full_chunks s) (Writer_calls n t)))
      with (feed (feed w [label nd (Value nd); nl])
              (flat_map (full_chunks s) (Writer_calls n t))).
    apply foldM_emit_chunks.
    eapply Forall_impl; [exact Hall|].
    intros c (cd & _ & _ & _ & He). exact He.
  - eapply Forall_impl; [exact Hall|].
    intros c (cd & Hcd & Hp & Hr & He). exists cd.
    split; [exact Hcd|]. split; [exact Hp|]. split; [exact Hr|].
    intros wr. specialize (He wr). unfold emit in He.
    rewrite bind_gets in He. rewrite He.
    unfold full_chunks. rewrite Hcd. reflexivity.
Qed.

Lemma continuation_lines_follow_first_witness :
  built two_line_leaf /\
  Writer 3 0 ([] : Buffer) two_line_leaf
  = Ok (feed ([] : Buffer)
          ["."; nl; "└─ b" +:+ nl; "    ";
           "└─ x" +:+ nl +:+ "        y" +:+ nl]) two_line_leaf.
Proof.
  pose proof two_line_leaf_built as Hb.
  split; [exact Hb|].
  refine (proj1 (continuation_lines_follow_first (W := Buffer) 3 0%nat
                   {| Root := None; Meta := ANil; Value := AString ".";
                      Nodes := [1%nat] |}
                   (T 0 [T 1 [T 2 []]]) [] two_line_leaf Hb _ eq_refl eq_refl
                   eq_refl _)).
  - cbn. lia.
  - intros x xd [<-|[<-|[]]] [= <-]; discriminate.
Defined.

(** X19.  [Branch] makes its receiver the start of a tree of its own: in a
    tree built through the public operations, a render started at the
    receiver right after [Branch] returns, and begins with the bare
    label of the receiver on a line of its own, without connector. *)
Theorem render_after_Branch {W : Type} `{IOWriter W} fuel (n : addr)
    (w : W) s :
  built s ->
  (0 <= IndentSize s)%Z ->
  (n < length (heap s))%nat ->
  (length (heap s) <= fuel)%nat ->
  exists s' nd' t w',
    Branch n s = Ok n s' /\
    heap s' !! n = Some nd' /\ Root nd' = None /\
    unfold fuel (heap s') n = Some t /\
    Writer fuel n w s' = Ok w' s' /\
    Writer fuel n w s'
    = foldM emit (Writer_calls n t) (feed w [label nd' (Value nd'); nl]) s'.
Proof.
  intros Hb Hind Hn Hfuel.
  assert (Hex : exists nd, heap s !! n = Some nd)
    by (apply lookup_lt_is_Some_2; exact Hn).
  destruct Hex as [nd Hnd].
  set (nd' := {| Root := None; Meta := Meta nd; Value := Value nd;
                 Nodes := Nodes nd |}).
  set (s' := with_heap s (<[n := nd']> (heap s))).
  assert (Hrun : Branch n s = Ok n s').
  { unfold Branch. rewrite (bind_load _ _ _ _ Hnd).
    unfold bind, store. rewrite Hnd. reflexivity. }
  assert (Hb' : built s') by exact (built_Branch s n n s' Hb Hrun).
  assert (Hnd' : heap s' !! n = Some nd')
    by (cbn; apply list_lookup_insert_eq; exact Hn).
  assert (Hlen : length (heap s') = length (heap s))
    by (cbn; apply length_insert).
  pose proof (built_tree_shaped s' Hb') as Hts.
  destruct (unfold_total (heap s') Hts fuel n ltac:(lia) ltac:(lia))
    as [t Ht].
  destruct (Writer_returns fuel n nd' t w s' Hts Hind Hnd' eq_refl Ht)
    as [w' Hw].
  exists s', nd', t, w'.
  split; [exact Hrun|]. split; [exact Hnd'|]. split; [reflexivity|].
  split; [exact Ht|]. split; [exact Hw|].
  rewrite (Writer_lines fuel n nd' t w s' Hnd' Ht).
  unfold own_line. cbn [Root nd']. rewrite bind_ret. reflexivity.
Qed.

Lemma render_after_Branch_witness :
  built two_line_leaf /\
  exists s' w',
    Branch 1 two_line_leaf = Ok 1%nat s' /\
    Writer 3 1 ([] : Buffer) s' = Ok w' s'.
Proof.
  pose proof two_line_leaf_built as Hb.
  split; [exact Hb|].
  destruct (render_after_Branch (W := Buffer) 3 1%nat [] two_line_leaf Hb)
    as (s' & nd' & t & w' & Hrun & _ & _ & _ & Hw & _); [cbn; lia..|].
  exists s', w'. split; [exact Hrun|exact Hw].
Defined.

(** ** Struct tags *)

(** X20.  In a tag of at least two comma-separated fields, [tagSpec] answers
    the first field, and the flag says whether the second field is
    exactly [omitempty]; further fields are not looked at.  A tag without
    comma is answered whole, with the flag down. *)
Theorem tagSpec_fields name opt tail :
  free_of ","%char name = true ->
  free_of ","%char opt = true ->
  tail = EmptyString \/ (exists r, tail = String ","%char r) ->
  tagSpec (name +:+ "," +:+ opt +:+ tail)
  = (name, String.eqb opt "omitempty") /\
  tagSpec name = (name, false).
Proof.
  intros Hn Ho Ht. split.
  - apply tagSpec_second; assumption.
  - unfold tagSpec. rewrite Split_on_free by exact Hn. reflexivity.
Qed.

Lemma tagSpec_fields_witness :
  tagSpec "id,omitempty,x" = ("id", true) /\ tagSpec "id" = ("id", false).
Proof.
  exact (tagSpec_fields "id" "omitempty" ",x" eq_refl eq_refl
           (or_intror (ex_intro _ "x" eq_refl))).
Defined.

(** X21.  Whatever the tag, the name [tagSpec] answers holds no comma and is the
    tag itself or the part of it before its first comma; the flag is up
    exactly when [,omitempty] follows that name and is followed by the
    end of the tag or by another comma. *)
Theorem tagSpec_name tag :
  free_of ","%char (tagSpec tag).1 = true /\
  (tag = (tagSpec tag).1 \/
   exists rest, tag = (tagSpec tag).1 +:+ "," +:+ rest) /\
  ((tagSpec tag).2 = true <->
   exists tail,
     tag = (tagSpec tag).1 +:+ "," +:+ "omitempty" +:+ tail /\
     (tail = EmptyString \/ exists r, tail = String ","%char r)).
Proof.
  pose proof (Join_Split_on ","%char tag) as HJ.
  pose proof (Split_on_fields ","%char tag) as HF.
  pose proof (Split_on_nonempty ","%char tag) as HN.
  unfold tagSpec.
  destruct (strings_Split_on ","%char tag) as [|p0 [|p1 rest]] eqn:E;
    [congruence| |].
  - cbn in HJ. subst p0. apply Forall_cons in HF as [H0 _]. cbn [fst snd].
    split; [exact H0|]. split; [left; reflexivity|].
    split; [discriminate|].
    intros (tail & Ht & Htail).
    assert (Hs : strings_Split_on ","%char tag
                 = tag :: strings_Split_on ","%char ("omitempty" +:+ tail)).
    { rewrite Ht at 1.
      change ("," +:+ "omitempty" +:+ tail)
        with (String ","%char ("omitempty" +:+ tail)).
      apply Split_on_append. exact H0. }
    rewrite E in Hs. exfalso.
    apply (Split_on_nonempty ","%char ("omitempty" +:+ tail)).
    congruence.
  - apply Forall_cons in HF as [H0 _].
    rewrite Join_cons in HJ by discriminate.
    assert (Hname : (if String.eqb p1 "omitempty" then (p0, true)
                     else (p0, false)) = (p0, String.eqb p1 "omitempty"))
      by (destruct (String.eqb p1 "omitempty"); reflexivity).
    rewrite Hname. cbn [fst snd].
    split; [exact H0|]. split; [right; eauto|].
    split.
    + intros Heq. apply String.eqb_eq in Heq. subst p1.
      destruct rest as [|p2 rest].
      * exists EmptyString. split; [|left; reflexivity].
        rewrite append_empty_r. symmetry. exact HJ.
      * exists (String ","%char (strings_Join (p2 :: rest) ",")).
        split; [|right; eauto].
        rewrite Join_cons in HJ by discriminate. symmetry. exact HJ.
    + intros (tail & Ht & Htail).
      pose proof (tagSpec_second p0 "omitempty" tail H0 eq_refl Htail)
        as Hspec.
      rewrite <- Ht in Hspec. unfold tagSpec in Hspec.
      rewrite E, Hname in Hspec. injection Hspec as Hspec. exact Hspec.
Qed.

(** X22.  The fields of the answer of [filterTags] are the space-separated
    fields of the tag that do not start with [tree:], in their order and
    joined by single spaces again. *)
Theorem filterTags_fields (fields : list string) :
  fields <> [] ->
  Forall (fun f => free_of " "%char f = true) fields ->
  filterTags (strings_Join fields " ")
  = strings_Join
      (List.filter (fun f => negb (strings_HasPrefix f "tree:")) fields) " ".
Proof.
  intros Hne Hfree. rewrite filterTags_filter.
  change " "%string with (String " "%char EmptyString).
  rewrite Split_on_Join by assumption. reflexivity.
Qed.

Lemma filterTags_fields_witness :
  filterTags "json:x tree:y yaml:z" = "json:x yaml:z"%string.
Proof.
  refine (filterTags_fields ["json:x"; "tree:y"; "yaml:z"]%string _ _).
  - discriminate.
  - repeat constructor.
Defined.

(** X23.  Filtering a second time changes nothing, and no field of a filtered
    tag starts with [tree:]. *)
Theorem filterTags_idempotent tag :
  filterTags (filterTags tag) = filterTags tag /\
  Forall (fun f => strings_HasPrefix f "tree:" = false)
    (strings_Split_on " "%char (filterTags tag)).
Proof.
  rewrite (filterTags_filter tag).
  set (keep := fun t => negb (strings_HasPrefix t "tree:")).
  assert (Hin : forall f,
             In f (List.filter keep (strings_Split_on " "%char tag)) ->
             free_of " "%char f = true /\ keep f = true).
  { intros f Hf. apply filter_In in Hf as [Hf Hk]. split; [|exact Hk].
    exact (proj1 (List.Forall_forall _ _) (Split_on_fields " "%char tag)
             f Hf). }
  revert Hin.
  generalize (List.filter keep (strings_Split_on " "%char tag)).
  intros l Hin.
  assert (Hfree : Forall (fun f => free_of " "%char f = true) l).
  { apply List.Forall_forall. intros f Hf. apply Hin. exact Hf. }
  assert (Hkeep : Forall (fun f => strings_HasPrefix f "tree:" = false) l).
  { apply List.Forall_forall. intros f Hf. apply negb_true_iff.
    apply Hin. exact Hf. }
  destruct (list_eq_nil_dec l) as [->|Hne].
  - split; [reflexivity|]. cbn. constructor; [reflexivity|constructor].
  - split.
    + rewrite filterTags_filter.
      change " "%string with (String " "%char EmptyString).
      rewrite Split_on_Join by assumption.
      f_equal. apply forallb_filter_id. apply forallb_forall.
      intros f Hf. apply Hin. exact Hf.
    + change " "%string with (String " "%char EmptyString).
      rewrite Split_on_Join by assumption. exact Hkeep.
Qed.

(** X24.  A tag none of whose fields starts with [tree:] is answered as it is,
    spaces included. *)
Theorem filterTags_plain tag :
  Forall (fun f => strings_HasPrefix f "tree:" = false)
    (strings_Split_on " "%char tag) ->
  filterTags tag = tag.
Proof.
  intros H. rewrite filterTags_filter.
  rewrite forallb_filter_id.
  - apply (Join_Split_on " "%char).
  - apply forallb_forall. intros f Hf.
    rewrite (proj1 (List.Forall_forall _ _) H f Hf). reflexivity.
Qed.

Lemma filterTags_plain_witness :
  filterTags "json:a  yaml:b " = "json:a  yaml:b "%string.
Proof.
  apply filterTags_plain. repeat constructor.
Defined.
